(** * Batch collation for DimeNet: a shallow embedding of
      [src/mol/dimenet/loader.py]

    The development follows the Python module top-down:

    - [float64], [np] and [sp] model the parts of IEEE arithmetic, NumPy
      and SciPy's sparse package that the loader calls, by their
      documented behaviour on scalars, on one- and two-dimensional arrays
      and on CSR matrices;
    - [_concat], [_bmat_fast], [_restore_shape], [_get_rand_norm_3d],
      [_random_rotate] and [AtomsCollate.__call__] are transcribed from
      the source, statement by statement;
    - the theorems at the end relate the assembled batch to the
      specification.

    Modelling conventions.  A stored floating point number is the
    rational number it denotes, so stored numbers are finite (no NaN, no
    infinity) and the sign of a zero is not kept.  The distance test of
    lines 140-141, which decides the edges, is evaluated in binary64
    arithmetic as NumPy does it: every difference, square, sum and root is
    rounded to the nearest binary64 number, and may underflow, overflow or
    be NaN.  The arithmetic that yields stored numbers (the noise added in
    line 130, the rotation of lines 96-98) is exact here, where NumPy
    rounds every operation; no theorem below depends on the digits it
    yields.  Positions are float arrays: for an integer or text array
    under ['R'] the model raises [TypeError] where the code goes on.
    Integer index arrays are lists of natural numbers.  Python exceptions
    are values of [exn]; a computation that can raise returns a [result].
    The example dictionaries handed to the collate function are objects in
    a heap, because the function updates them in place; the process-wide
    random generator of [np.random] is part of the same mutable world.

    Library behaviour assumed.  NumPy has [np.bool] (releases before
    1.24), joins text with numbers as text, and reduces a short axis from
    left to right.  SciPy selects rows of a CSR matrix by copying their
    stored entries in order (release 1.3 and later), admits matrices
    without rows and columns, and subtracts boolean matrices through its
    sparse kernels, which keep an entry when the difference of the operands
    is not zero. *)

From Stdlib Require Import QArith Lqa SpecFloat.
From stdpp Require Import gmap strings list.

Set Default Proof Using "Type".
Local Open Scope nat_scope.

(** ** Exceptions and results *)

Inductive exn :=
| KeyError      (* a dictionary has no such key *)
| IndexError    (* a sequence or matrix index is out of range *)
| ValueError    (* shapes that do not fit, nothing to concatenate, ... *)
| TypeError.    (* an operation applied to a value of the wrong kind *)

Inductive result (A : Type) :=
| Ok (a : A)
| Raise (e : exn).
Arguments Ok {A} a.
Arguments Raise {A} e.

#[global] Instance result_ret : MRet result := @Ok.
#[global] Instance result_bind : MBind result := fun A B f r =>
  match r with Ok a => f a | Raise e => Raise e end.
#[global] Instance result_fmap : FMap result := fun A B f r =>
  match r with Ok a => Ok (f a) | Raise e => Raise e end.

(** [mapM]: a list comprehension whose body may raise; the first failure
    wins, as in Python. *)
Fixpoint mapM {A B : Type} (f : A -> result B) (l : list A) : result (list B) :=
  match l with
  | [] => Ok []
  | a :: l' => b ← f a; bs ← mapM f l'; Ok (b :: bs)
  end.

Definition of_option {A : Type} (e : exn) (o : option A) : result A :=
  match o with Some a => Ok a | None => Raise e end.

(** ** Binary64 numbers

    [np.float64] follows IEEE 754: numbers with 53 bits of precision, two
    zeros, two infinities and NaN, every operation rounded to the nearest
    number, ties to even.  The operations are those of the Standard
    Library's specification of floating point arithmetic. *)

Module float64.

Definition prec : Z := 53.
Definition emax : Z := 1024.

Definition zero : spec_float := S754_zero false.

Definition add : spec_float -> spec_float -> spec_float := SFadd prec emax.
Definition sub : spec_float -> spec_float -> spec_float := SFsub prec emax.
Definition mul : spec_float -> spec_float -> spec_float := SFmul prec emax.
Definition div : spec_float -> spec_float -> spec_float := SFdiv prec emax.
Definition sqrt : spec_float -> spec_float := SFsqrt prec emax.

(** [x <= y]; a comparison with NaN is [False]. *)
Definition leb : spec_float -> spec_float -> bool := SFleb.

Definition is_finite (f : spec_float) : bool :=
  match f with S754_zero _ | S754_finite _ _ _ => true | _ => false end.
Definition is_zero (f : spec_float) : bool :=
  match f with S754_zero _ => true | _ => false end.

(** Not negative and not NaN: a zero, a positive number or [+inf]. *)
Definition nonneg (f : spec_float) : Prop :=
  match f with
  | S754_zero _ | S754_finite false _ _ | S754_infinity false => True
  | _ => False
  end.

(** The binary64 number nearest to a rational number: the number itself
    when it is a binary64 number, an infinity when it is out of range.
    Numerator and denominator are divided as the integers they are, with
    one rounding. *)
Definition of_Q (x : Q) : spec_float :=
  match Qnum x with
  | Z0 => zero
  | Zpos n => div (S754_finite false n 0) (S754_finite false (Qden x) 0)
  | Zneg n => div (S754_finite true n 0) (S754_finite false (Qden x) 0)
  end.

(** The rational number a finite binary64 number denotes. *)
Definition to_Q (f : spec_float) : Q :=
  match f with
  | S754_finite s m e =>
      let n := if s then Zneg m else Zpos m in
      Qred match e with
           | Z0 => inject_Z n
           | Zpos k => inject_Z (n * 2 ^ Zpos k)
           | Zneg k => n # (2 ^ k)
           end
  | _ => 0
  end.

(** An integer converted to binary64, as a stored number.  Integers above
    [2 ^ 53] are rounded; the integers of an [int64] array are in range. *)
Definition of_int (z : Z) : Q := to_Q (of_Q (inject_Z z)).

End float64.

(** ** NumPy *)

Module np.

(** [np.arange(n)] *)
Definition arange (n : nat) : list nat := seq 0 n.

(** [np.cumsum(l)]: running totals, [acc] is the total so far. *)
Fixpoint cumsum_from (acc : nat) (l : list nat) : list nat :=
  match l with
  | [] => []
  | x :: l' => (acc + x) :: cumsum_from (acc + x) l'
  end.
Definition cumsum (l : list nat) : list nat := cumsum_from 0 l.

(** [np.concatenate(ls)] of one-dimensional arrays; an empty sequence of
    arrays is refused. *)
Definition concatenate {A : Type} (ls : list (list A)) : result (list A) :=
  match ls with
  | [] => Raise ValueError
  | _ => Ok (concat ls)
  end.

(** [np.repeat(a, counts)]: element [n] of [a] is repeated [counts[n]]
    times; both arrays must have one length. *)
Fixpoint repeat_each {A : Type} (a : list A) (counts : list nat) : list A :=
  match a, counts with
  | x :: a', c :: counts' => replicate c x ++ repeat_each a' counts'
  | _, _ => []
  end.
Definition repeat {A : Type} (a : list A) (counts : list nat) : result (list A) :=
  if decide (length a = length counts) then Ok (repeat_each a counts)
  else Raise ValueError.

(** [mask.nonzero()] on a one-dimensional boolean array: the positions
    that hold [True], in increasing order.  [k] is the position of the
    head of [mask]. *)
Fixpoint nonzero_from (k : nat) (mask : list bool) : list nat :=
  match mask with
  | [] => []
  | b :: mask' => (if b then [k] else []) ++ nonzero_from (S k) mask'
  end.
Definition nonzero (mask : list bool) : list nat := nonzero_from 0 mask.

(** [a != b] element by element, for arrays of one length (the loader
    compares no others). *)
Definition not_equal (a b : list nat) : result (list bool) :=
  if decide (length a = length b)
  then Ok (zip_with (fun x y => negb (Nat.eqb x y)) a b)
  else Raise ValueError.

(** [a[mask]] with a boolean mask of the length of [a]. *)
Fixpoint compress {A : Type} (mask : list bool) (a : list A) : list A :=
  match mask, a with
  | b :: mask', x :: a' => (if b then [x] else []) ++ compress mask' a'
  | _, _ => []
  end.

(** [a[idx]] with an integer index array. *)
Definition take {A : Type} (a : list A) (idx : list nat) : result (list A) :=
  mapM (fun n => of_option IndexError (a !! n)) idx.

(** [np.linalg.norm(v, axis=-1)] for one row [v] of a float64 array:
    [sqrt(add.reduce(v * v))].  The squares are added to [0.0] from left to
    right. *)
Definition linalg_norm (v : list spec_float) : spec_float :=
  float64.sqrt (fold_left float64.add (map (fun x => float64.mul x x) v) float64.zero).

End np.

(** ** SciPy sparse matrices in CSR format *)

Module sp.

Record csr_matrix (A : Type) := CSR {
  data : list A;        (* stored values, row after row *)
  indices : list nat;   (* column of each stored value *)
  indptr : list nat;    (* row r occupies positions indptr[r] .. indptr[r+1]-1 *)
  shape : nat * nat
}.
Arguments CSR {A} _ _ _ _.
Arguments data {A} _.
Arguments indices {A} _.
Arguments indptr {A} _.
Arguments shape {A} _.

(** [m.nnz]: the number of stored values, read off the row pointer. *)
Definition nnz {A : Type} (m : csr_matrix A) : nat := List.last (indptr m) 0.

(** Positions [lo .. hi-1] of an array: [a[lo:hi]]. *)
Definition slice {A : Type} (lo hi : nat) (a : list A) : list A :=
  take (hi - lo) (drop lo a).

Definition row_lo {A : Type} (m : csr_matrix A) (r : nat) : nat := nth r (indptr m) 0.
Definition row_hi {A : Type} (m : csr_matrix A) (r : nat) : nat := nth (S r) (indptr m) 0.
Definition row_indices {A : Type} (m : csr_matrix A) (r : nat) : list nat :=
  slice (row_lo m r) (row_hi m r) (indices m).
Definition row_data {A : Type} (m : csr_matrix A) (r : nat) : list A :=
  slice (row_lo m r) (row_hi m r) (data m).

(** [sp.csr_matrix((data, indices, indptr), shape=shape)].  Without a
    shape the constructor infers it: one row per row-pointer interval and
    just enough columns for the largest column index, which needs at
    least one stored index.  The cheap format checks of the constructor
    follow, and the arrays are cut to the number of stored values. *)
Definition infer_shape (indices indptr : list nat) : result (nat * nat) :=
  match indptr, indices with
  | [], _ | _, [] => Raise ValueError
  | _ :: _, _ :: _ => Ok (length indptr - 1, S (max_list indices))
  end.

Definition from_arrays {A : Type} (data : list A) (indices indptr : list nat)
    (shape : option (nat * nat)) : result (csr_matrix A) :=
  sh ← match shape with Some sh => Ok sh | None => infer_shape indices indptr end;
  if negb (bool_decide (length indptr = S (fst sh))) then Raise ValueError
  else if negb (bool_decide (head indptr = Some 0)) then Raise ValueError
  else if negb (bool_decide (length indices = length data)) then Raise ValueError
  else if negb (bool_decide (List.last indptr 0 <= length indices)) then Raise ValueError
  else let n := List.last indptr 0 in
       Ok (CSR (take n data) (take n indices) indptr sh).

(** [sp.csr_matrix(dense)] for a two-dimensional boolean array: the
    [True] entries in row-major order. *)
Definition dense := list (list bool).

Definition dense_shape (d : dense) : nat * nat :=
  (length d, match d with [] => 0 | r :: _ => length r end).

Definition of_dense (d : dense) : csr_matrix bool :=
  let cols := map np.nonzero d in
  CSR (replicate (length (concat cols)) true)
      (concat cols)
      (0 :: np.cumsum (map length cols))
      (dense_shape d).

(** Entry [(r, c)] of a boolean CSR matrix. *)
Definition get (m : csr_matrix bool) (r c : nat) : bool :=
  existsb (fun '(c', v) => Nat.eqb c' c && v) (zip (row_indices m r) (row_data m r)).

Definition todense (m : csr_matrix bool) : dense :=
  map (fun r => map (get m r) (seq 0 (snd (shape m)))) (seq 0 (fst (shape m))).

(** [sp.eye(n, dtype=bool)], in the CSR form the subtraction below
    converts it to. *)
Definition eye (n : nat) : csr_matrix bool :=
  of_dense (map (fun r => map (Nat.eqb r) (seq 0 n)) (seq 0 n)).

(** The difference of two boolean values as the sparse kernels compute
    it: the operands are subtracted as small integers and the difference
    is converted back with [!= 0]. *)
Definition bool_minus (a b : bool) : bool :=
  negb (Z.eqb (Z.b2z a - Z.b2z b) 0).

(** [a - b] for boolean CSR matrices of one shape.  The result is in
    canonical form and stores the entries whose difference is not zero. *)
Definition sub (a b : csr_matrix bool) : result (csr_matrix bool) :=
  if decide (shape a = shape b)
  then let d := of_dense (zip_with (zip_with bool_minus) (todense a) (todense b)) in
       Ok (CSR (data d) (indices d) (indptr d) (shape a))
  else Raise ValueError.

(** [m.tocoo().row]: the row of every stored value. *)
Definition tocoo_row {A : Type} (m : csr_matrix A) : list nat :=
  flat_map (fun r => replicate (row_hi m r - row_lo m r) r) (seq 0 (fst (shape m))).

(** [m.nonzero()]: rows and columns of the stored values that are not
    zero. *)
Definition nonzero (m : csr_matrix bool) : list nat * list nat :=
  let nz_mask := data m in
  (np.compress nz_mask (tocoo_row m), np.compress nz_mask (indices m)).

(** [m[idx]] and [m[idx, :]] with an integer index array: the matrix
    whose row [n] is row [idx[n]] of [m]. *)
Definition getrows {A : Type} (m : csr_matrix A) (idx : list nat) : result (csr_matrix A) :=
  if forallb (fun r => bool_decide (r < fst (shape m))) idx
  then Ok (CSR (flat_map (row_data m) idx)
               (flat_map (row_indices m) idx)
               (0 :: np.cumsum (map (fun r => row_hi m r - row_lo m r) idx))
               (length idx, snd (shape m)))
  else Raise IndexError.

(** [m.sum(1).A1] of a boolean matrix: the number of [True] values
    stored in each row. *)
Definition sum1 (m : csr_matrix bool) : list nat :=
  map (fun r => length (filter (fun b => b = true) (row_data m r)))
      (seq 0 (fst (shape m))).

End sp.

(** ** Values, dictionaries and the mutable world *)

Local Open Scope Q_scope.

(** A row of an [N x 3] array of coordinates. *)
Definition point : Type := Q * Q * Q.

Definition origin : point := (0, 0, 0).
Definition padd (p q : point) : point :=
  let '(x1, y1, z1) := p in let '(x2, y2, z2) := q in (x1 + x2, y1 + y2, z1 + z2).
Definition psub (p q : point) : point :=
  let '(x1, y1, z1) := p in let '(x2, y2, z2) := q in (x1 - x2, y1 - y2, z1 - z2).
Definition pscale (c : Q) (p : point) : point :=
  let '(x, y, z) := p in (c * x, c * y, c * z).
(** The text of one element of a text array: a string, or the numeral
    NumPy writes for a number that is joined with text. *)
Inductive text :=
| Text (s : string)
| Numeral_float (x : Q)
| Numeral_int (z : Z).

(** The values that occur as fields of an example or of a batch: NumPy
    arrays and NumPy numbers.  Text occurs in arrays only; a name is an
    array with one element, which is how [np.hstack] treats a text
    scalar. *)
Inductive value :=
| Float2 (a : list point)   (* float array of shape (N, 3) *)
| Float1 (a : list Q)       (* one-dimensional float array *)
| Int1 (a : list Z)         (* one-dimensional integer array *)
| Str1 (a : list text)      (* one-dimensional text array, such as a name *)
| Float0 (x : Q)            (* a float, np.float64 *)
| Int0 (z : Z).             (* an integer, np.int64 *)

(** [len(v)]: the length of the first axis; a number has no length. *)
Definition len (v : value) : result nat :=
  match v with
  | Float2 a => Ok (length a) | Float1 a => Ok (length a)
  | Int1 a => Ok (length a) | Str1 a => Ok (length a)
  | Float0 _ | Int0 _ => Raise TypeError
  end.

(** The number of elements along the first axis, a number counting as
    one element: [len(np.atleast_1d(v))]. *)
Definition count (v : value) : nat :=
  match v with
  | Float2 a => length a | Float1 a => length a
  | Int1 a => length a | Str1 a => length a
  | Float0 _ | Int0 _ => 1%nat
  end.

Definition ints (a : list nat) : value := Int1 (map Z.of_nat a).

(** A Python dictionary with text keys: the entries in insertion order. *)
Definition dict (V : Type) : Type := list (string * V).

Fixpoint dict_get {V : Type} (k : string) (d : dict V) : option V :=
  match d with
  | [] => None
  | (k', v) :: d' => if String.eqb k k' then Some v else dict_get k d'
  end.

(** [d[k] = v]: an existing key keeps its place, a new key goes last. *)
Fixpoint dict_set {V : Type} (k : string) (v : V) (d : dict V) : dict V :=
  match d with
  | [] => [(k, v)]
  | (k', v') :: d' => if String.eqb k k' then (k, v) :: d' else (k', v') :: dict_set k v d'
  end.

Definition keys {V : Type} (d : dict V) : list string := map fst d.

(** The generator behind [np.random]: the stream of random numbers that
    the seed fixes, which the two functions stand for, and the position
    reached in it.  [normal3 n m] is the row that a draw with covariance
    [m] times the identity makes of the numbers at position [n];
    [rotation3 n] holds the rows of the matrix that [rand_rotation_matrix]
    makes of the numbers at position [n]. *)
Record generator := Generator {
  draws : nat;
  normal3 : nat -> Q -> point;
  rotation3 : nat -> point * point * point
}.

Definition loc := nat.

Record world := World {
  heap : gmap loc (dict value);   (* the example dictionaries *)
  np_random : generator
}.

(** Computations that read and update the world and may raise.  What was
    written before an exception stays written. *)
Definition M (A : Type) : Type := world -> result A * world.

Definition retM {A : Type} (a : A) : M A := fun w => (Ok a, w).
Definition bindM {A B : Type} (f : A -> M B) (c : M A) : M B := fun w =>
  match c w with
  | (Ok a, w') => f a w'
  | (Raise e, w') => (Raise e, w')
  end.
#[global] Instance M_ret : MRet M := @retM.
#[global] Instance M_bind : MBind M := @bindM.

(** A computation that only may raise, run inside [M]. *)
Definition liftM {A : Type} (r : result A) : M A := fun w => (r, w).

(** [for x in l: body(x)] *)
Fixpoint forM_ {A : Type} (l : list A) (body : A -> M ()) : M () :=
  match l with
  | [] => mret ()
  | x :: l' => body x ;; forM_ l' body
  end.

Definition the_world : M world := fun w => (Ok w, w).

(** The dictionary an example reference points to. *)
Definition deref (e : loc) (w : world) : dict value := default [] (heap w !! e).

(** [e[k]] *)
Definition getitem (e : loc) (k : string) : M value := fun w =>
  (of_option KeyError (dict_get k (deref e w)), w).

(** [e[k] = v] *)
Definition setitem (e : loc) (k : string) (v : value) : M () := fun w =>
  (Ok (), World (<[e := dict_set k v (deref e w)]> (heap w)) (np_random w)).

(** The coordinates held by a field. *)
Definition coords (v : value) : result (list point) :=
  match v with Float2 a => Ok a | _ => Raise TypeError end.

(** ** The loader *)

(** [AtomsBatch]: the record a batch is turned into.  The tensors are
    of an arbitrary type [T], as the results of [post_fn] are.  What
    [to_tensor] and the [DataLoader] of [get_loader] do is torch's and is
    not modelled. *)
Module AtomsBatch.

(** The fields without a default and the fields that default to [None]. *)
Definition required : list string :=
  ["batch_seg"; "R"; "R_orig"; "Z"; "idnb_i"; "idnb_j"; "id3dnb_i"; "id3dnb_j"; "id3dnb_k";
   "id_expand_kj"; "id_reduce_ji"]%string.

Definition optional : list string :=
  ["rc_A"; "rc_B"; "rc_C"; "mu"; "alpha"; "homo"; "lumo"; "gap"; "r2"; "zpve"; "U0"; "U";
   "H"; "G"; "Cv"; "mulliken"]%string.

Record t (T : Type) := Build {
  batch_seg : T;
  R : T;
  R_orig : T;
  Z : T;
  idnb_i : T;
  idnb_j : T;
  id3dnb_i : T;
  id3dnb_j : T;
  id3dnb_k : T;
  id_expand_kj : T;
  id_reduce_ji : T;
  rc_A : option T;
  rc_B : option T;
  rc_C : option T;
  mu : option T;
  alpha : option T;
  homo : option T;
  lumo : option T;
  gap : option T;
  r2 : option T;
  zpve : option T;
  U0 : option T;
  U : option T;
  H : option T;
  G : option T;
  Cv : option T;
  mulliken : option T
}.

(** The constructor the dataclass generates, called with keywords.  A
    keyword that is no field and a field without default that is not given
    are both a [TypeError]. *)
Definition init {T : Type} (kwargs : dict T) : result (t T) :=
  if forallb (fun k => bool_decide (k ∈ required ++ optional)) (keys kwargs) then
    batch_seg ← of_option TypeError (dict_get "batch_seg" kwargs);
    R ← of_option TypeError (dict_get "R" kwargs);
    R_orig ← of_option TypeError (dict_get "R_orig" kwargs);
    Z ← of_option TypeError (dict_get "Z" kwargs);
    idnb_i ← of_option TypeError (dict_get "idnb_i" kwargs);
    idnb_j ← of_option TypeError (dict_get "idnb_j" kwargs);
    id3dnb_i ← of_option TypeError (dict_get "id3dnb_i" kwargs);
    id3dnb_j ← of_option TypeError (dict_get "id3dnb_j" kwargs);
    id3dnb_k ← of_option TypeError (dict_get "id3dnb_k" kwargs);
    id_expand_kj ← of_option TypeError (dict_get "id_expand_kj" kwargs);
    id_reduce_ji ← of_option TypeError (dict_get "id_reduce_ji" kwargs);
    Ok (Build T batch_seg R R_orig Z idnb_i idnb_j id3dnb_i id3dnb_j id3dnb_k
              id_expand_kj id_reduce_ji
              (dict_get "rc_A" kwargs) (dict_get "rc_B" kwargs) (dict_get "rc_C" kwargs)
              (dict_get "mu" kwargs) (dict_get "alpha" kwargs) (dict_get "homo" kwargs)
              (dict_get "lumo" kwargs) (dict_get "gap" kwargs) (dict_get "r2" kwargs)
              (dict_get "zpve" kwargs) (dict_get "U0" kwargs) (dict_get "U" kwargs)
              (dict_get "H" kwargs) (dict_get "G" kwargs) (dict_get "Cv" kwargs)
              (dict_get "mulliken" kwargs))
  else Raise TypeError.

(** [AtomsBatch.from_dict(params, device)]; [to] is [v.to(device)]. *)
Definition from_dict {T : Type} (to : T -> T) (params : dict T) : result (t T) :=
  init (map (fun '(k, v) => (k, to v)) params).

End AtomsBatch.

(** [np.concatenate(to_stack)] where the first array has two dimensions:
    the arrays are joined along their first axis, and all of them must have
    two dimensions. *)
Definition concatenate2 (to_stack : list value) : result value :=
  (fun ls => Float2 (concat ls)) <$> mapM (fun v => match v with Float2 a => Ok a | _ => Raise ValueError end) to_stack.

(** [np.atleast_1d(v)]: a number becomes an array with one element. *)
Definition atleast_1d (v : value) : value :=
  match v with
  | Float0 x => Float1 [x]
  | Int0 z => Int1 [z]
  | _ => v
  end.

Definition is_2d (v : value) : bool := match v with Float2 _ => true | _ => false end.
Definition is_str (v : value) : bool := match v with Str1 _ => true | _ => false end.
Definition is_float (v : value) : bool := match v with Float1 _ => true | _ => false end.

(** The elements of a one-dimensional array converted to text, to float
    and, for an integer array, as they are. *)
Definition as_text (v : value) : list text :=
  match v with
  | Str1 a => a
  | Float1 a => map Numeral_float a
  | Int1 a => map Numeral_int a
  | _ => []
  end.
Definition as_float (v : value) : list Q :=
  match v with
  | Float1 a => a
  | Int1 a => map float64.of_int a
  | _ => []
  end.
Definition as_int (v : value) : list Z :=
  match v with Int1 a => a | _ => [] end.

(** [np.hstack(to_stack)] where the first value has less than two
    dimensions: the values are made arrays and joined along their only
    axis, so none of them may have two dimensions.  The elements are
    converted to the common type of the arrays: text when one of them holds
    text, else float when one of them holds floats. *)
Definition hstack (to_stack : list value) : result value :=
  let arrs := map atleast_1d to_stack in
  if existsb is_2d arrs then Raise ValueError
  else if existsb is_str arrs then Ok (Str1 (concat (map as_text arrs)))
  else if existsb is_float arrs then Ok (Float1 (concat (map as_float arrs)))
  else Ok (Int1 (concat (map as_int arrs))).

(** [_concat]: stack the values of one field, by [np.concatenate] when
    the first has two or more dimensions and by [np.hstack] otherwise. *)
Definition _concat (to_stack : list value) : result value :=
  match to_stack with
  | [] => Raise IndexError
  | Float2 _ :: _ => concatenate2 to_stack
  | _ => hstack to_stack
  end.

(** [_bmat_fast]: the per-structure matrices laid out along the diagonal
    of one matrix, working on the three CSR arrays.  Matrix [i] has its
    column indices shifted by the rows of the matrices before it and its
    row pointer shifted by their stored values; every matrix but the first
    drops the leading entry of its row pointer ([indptr[i >= 1:]]).  No
    shape is passed to the constructor. *)
Definition _bmat_fast {A : Type} (mats : list (sp.csr_matrix A)) : result (sp.csr_matrix A) :=
  new_data ← np.concatenate (map sp.data mats);
  let ind_offset := 0%nat :: np.cumsum (map (fun mat => fst (sp.shape mat)) mats) in
  new_indices ← np.concatenate
    (imap (fun i mat => map (fun c => c + nth i ind_offset 0)%nat (sp.indices mat)) mats);
  let indptr_offset := 0%nat :: np.cumsum (map sp.nnz mats) in
  new_indptr ← np.concatenate
    (imap (fun i mat => map (fun p => p + nth i indptr_offset 0)%nat
                            (drop (if bool_decide (1 <= i)%nat then 1 else 0) (sp.indptr mat)))
          mats);
  sp.from_arrays new_data new_indices new_indptr None.

(** [a.reshape(-1, 3)] for the coordinates of one example: the elements
    in rows of three, when their number is a multiple of three.  A number
    is a single element.  Positions are float arrays; integer and text
    arrays, which the code reshapes alike, are outside the model. *)
Fixpoint rows3 (a : list Q) : list point :=
  match a with
  | x :: y :: z :: a' => (x, y, z) :: rows3 a'
  | _ => []
  end.

Definition reshape3 (v : value) : result value :=
  match v with
  | Float2 a => Ok (Float2 a)
  | Float1 a => if decide (length a `mod` 3 = 0)%nat then Ok (Float2 (rows3 a))
                else Raise ValueError
  | Float0 _ | Int0 _ => Raise ValueError
  | Int1 _ | Str1 _ => Raise TypeError
  end.

(** [_restore_shape]: every example's ['R'] is replaced, in the example
    itself, by its [N x 3] form. *)
Definition _restore_shape (data : list loc) : M (list loc) :=
  forM_ data (fun d =>
    r ← getitem d "R";
    r' ← liftM (reshape3 r);
    setitem d "R" r') ;;
  mret data.

(** [_get_rand_norm_3d]: [size] draws from the normal distribution with
    mean zero and covariance [m] times the identity.  The generator
    advances by the numbers of [size] rows, so not at all for no row; with
    [m = 0] every draw is the mean. *)
Definition _get_rand_norm_3d (size : nat) (m : Q) : M (list point) := fun w =>
  let g := np_random w in
  (Ok (if Qeq_bool m 0 then replicate size origin
       else map (fun r => normal3 g (draws g + r) m) (seq 0 size)),
   World (heap w) (Generator (draws g + size) (normal3 g) (rotation3 g))).

(** [rand_rotation_matrix()] of [mylib]: the next matrix the generator
    yields. *)
Definition rand_rotation_matrix : M (point * point * point) := fun w =>
  let g := np_random w in
  (Ok (rotation3 g (draws g)),
   World (heap w) (Generator (S (draws g)) (normal3 g) (rotation3 g))).

(** [coords.mean(axis=0)] *)
Definition mean0 (a : list point) : point :=
  pscale (/ inject_Z (Z.of_nat (length a))) (foldr padd origin a).

(** [v.dot(M)] for a row vector [v] and the rows of [M]. *)
Definition dot3 (v : point) (m : point * point * point) : point :=
  let '(x, y, z) := v in let '(m0, m1, m2) := m in
  padd (pscale x m0) (padd (pscale y m1) (pscale z m2)).

Definition _random_rotate (coords : list point) : M (list point) :=
  let center := mean0 coords in
  m ← rand_rotation_matrix;
  mret (map (fun p => dot3 (psub p center) m) coords).

Record AtomsCollate (T : Type) := {
  post_fn : value -> T;
  cutoff : Q;
  rand_cov : Q;
  rotate : bool
}.
Arguments post_fn {T} _ _.
Arguments cutoff {T} _.
Arguments rand_cov {T} _.
Arguments rotate {T} _.

(** Lines 124-130: rotate and perturb each example in place, keeping the
    coordinates before the perturbation under ['R_orig']. *)
Definition augment {T : Type} (self : AtomsCollate T) (examples : list loc) : M () :=
  forM_ examples (fun e =>
    (if rotate self
     then r ← getitem e "R";
          c ← liftM (coords r);
          c' ← _random_rotate c;
          setitem e "R" (Float2 c')
     else mret ()) ;;
    r ← getitem e "R";
    R ← liftM (coords r);
    deltas ← _get_rand_norm_3d (length R) (rand_cov self);
    setitem e "R_orig" (Float2 R) ;;
    setitem e "R" (Float2 (zip_with padd R deltas))).

(** Lines 132-135: one stacked value per key of the first example. *)
Definition concat_fields (examples : list (dict value)) : result (dict value) :=
  first ← of_option IndexError (head examples);
  mapM (fun k =>
          to_stack ← mapM (fun e => of_option KeyError (dict_get k e)) examples;
          v ← _concat to_stack;
          Ok (k, v))
       (keys first).

(** One entry of [D] (line 140): the norm of the difference of two rows
    of [R], in binary64 arithmetic. *)
Definition distance (p q : point) : spec_float :=
  let '(x1, y1, z1) := p in let '(x2, y2, z2) := q in
  np.linalg_norm [float64.sub (float64.of_Q x1) (float64.of_Q x2);
                  float64.sub (float64.of_Q y1) (float64.of_Q y2);
                  float64.sub (float64.of_Q z1) (float64.of_Q z2)].

(** One entry of [D <= self.cutoff] (line 141). *)
Definition within (cutoff : Q) (p q : point) : bool :=
  float64.leb (distance p q) (float64.of_Q cutoff).

(** Lines 139-142: the neighbours of each atom within the cutoff, minus
    the identity matrix sized by the atomic numbers. *)
Definition adjacency (cutoff : Q) (e : dict value) : result (sp.csr_matrix bool) :=
  r ← of_option KeyError (dict_get "R" e);
  R ← coords r;
  let within_cutoff := map (fun p => map (fun q => within cutoff p q) R) R in
  Z ← of_option KeyError (dict_get "Z" e);
  n ← len Z;
  sp.sub (sp.of_dense within_cutoff) (sp.eye n).

(** The index arrays of a batch. *)
Record graph := Graph {
  idnb_i : list nat;
  idnb_j : list nat;
  id3dnb_i : list nat;
  id3dnb_j : list nat;
  id3dnb_k : list nat;
  id_expand_kj : list nat;
  id_reduce_ji : list nat
}.

(** Lines 145-170: edges and triplets of the batch adjacency matrix. *)
Definition edges_and_triplets (adj_matrix : sp.csr_matrix bool) : result graph :=
  atomids_to_edgeid ← sp.from_arrays (np.arange (sp.nnz adj_matrix))
      (sp.indices adj_matrix) (sp.indptr adj_matrix) (Some (sp.shape adj_matrix));
  let '(edgeid_to_target, edgeid_to_source) := sp.nonzero adj_matrix in
  (* Indices of triplets k->j->i *)
  adj_rows ← sp.getrows adj_matrix edgeid_to_source;
  let ntriplets := sp.sum1 adj_rows in
  id3ynb_i ← np.repeat edgeid_to_target ntriplets;
  id3ynb_j ← np.repeat edgeid_to_source ntriplets;
  let id3ynb_k := snd (sp.nonzero adj_rows) in
  (* Indices of triplets that are not i->j->i *)
  differ ← np.not_equal id3ynb_i id3ynb_k;
  let id3_y_to_d := np.nonzero differ in
  i3 ← np.take id3ynb_i id3_y_to_d;
  j3 ← np.take id3ynb_j id3_y_to_d;
  k3 ← np.take id3ynb_k id3_y_to_d;
  (* Edge indices for interactions *)
  edge_rows ← sp.getrows atomids_to_edgeid edgeid_to_source;
  expand_kj ← np.take (sp.data edge_rows) id3_y_to_d;
  edge_rows' ← sp.getrows atomids_to_edgeid edgeid_to_source;
  reduce_ji ← np.take (sp.tocoo_row edge_rows') id3_y_to_d;
  Ok (Graph edgeid_to_target edgeid_to_source i3 j3 k3 expand_kj reduce_ji).

(** Lines 137-170: from the examples to the index arrays. *)
Definition batch_graph (cutoff : Q) (examples : list (dict value)) : result graph :=
  adj_matrices ← mapM (adjacency cutoff) examples;
  adj_matrix ← _bmat_fast adj_matrices;
  edges_and_triplets adj_matrix.

(** Lines 132-179 on the examples as the augmentation left them. *)
Definition collate {T : Type} (self : AtomsCollate T) (examples : list (dict value))
    : result (dict T) :=
  data ← concat_fields examples;
  g ← batch_graph (cutoff self) examples;
  let data := dict_set "idnb_i" (ints (idnb_i g)) data in
  let data := dict_set "idnb_j" (ints (idnb_j g)) data in
  let data := dict_set "id3dnb_i" (ints (id3dnb_i g)) data in
  let data := dict_set "id3dnb_j" (ints (id3dnb_j g)) data in
  let data := dict_set "id3dnb_k" (ints (id3dnb_k g)) data in
  let data := dict_set "id_expand_kj" (ints (id_expand_kj g)) data in
  let data := dict_set "id_reduce_ji" (ints (id_reduce_ji g)) data in
  N ← mapM (fun e => Z ← of_option KeyError (dict_get "Z" e); len Z) examples;
  batch_seg ← np.repeat (np.arange (length examples)) N;
  let data := dict_set "batch_seg" (ints batch_seg) data in
  Ok (omap (fun '(k, v) => if String.eqb k "name" then None else Some (k, post_fn self v)) data).

(** [AtomsCollate.__call__] *)
Definition __call__ {T : Type} (self : AtomsCollate T) (examples : list loc) : M (dict T) :=
  examples ← _restore_shape examples;
  augment self examples ;;
  w ← the_world;
  liftM (collate self (map (fun e => deref e w) examples)).

(** ** Matrices by rows

    A CSR matrix in canonical form is determined by its rows, each the
    list of its stored entries (column, value).  The proofs read the
    matrices of the loader through this view. *)

Close Scope Q_scope.

Definition of_rows {A : Type} (rows : list (list (nat * A))) (ncols : nat) : sp.csr_matrix A :=
  sp.CSR (concat (map (map snd) rows)) (concat (map (map fst) rows))
         (0 :: np.cumsum (map length rows)) (length rows, ncols).

(** Row [r] of a list of rows; rows that do not exist are empty. *)
Definition getrow {A : Type} (rows : list (list A)) (r : nat) : list A :=
  default [] (rows !! r).

(** A boolean adjacency matrix given by the columns of each row. *)
Definition of_cols (cols : list (list nat)) (ncols : nat) : sp.csr_matrix bool :=
  of_rows (map (map (fun c => (c, true))) cols) ncols.

(** The rows of [atomids_to_edgeid]: the stored entries keep their
    columns and are numbered consecutively from [k]. *)
Fixpoint number_from (k : nat) (cols : list (list nat)) : list (list (nat * nat)) :=
  match cols with
  | [] => []
  | row :: cols' => zip row (seq k (length row)) :: number_from (k + length row) cols'
  end.

(** The rows of the block-diagonal arrangement of [blocks]: the columns of
    a block are shifted by the number of rows before it, [off] for the
    first block. *)
Fixpoint block_rows {A : Type} (off : nat) (blocks : list (list (list (nat * A))))
    : list (list (nat * A)) :=
  match blocks with
  | [] => []
  | b :: blocks' =>
      map (map (fun '(c, v) => (c + off, v))) b ++ block_rows (off + length b) blocks'
  end.

(** A matrix given by its rows and its number of columns. *)
Definition block_matrix {A : Type} (b : list (list (nat * A)) * nat) : sp.csr_matrix A :=
  of_rows b.1 b.2.

(** [block_rows] for adjacency matrices given by columns. *)
Fixpoint block_cols (off : nat) (blocks : list (list (list nat))) : list (list nat) :=
  match blocks with
  | [] => []
  | b :: blocks' => map (map (fun c => c + off)) b ++ block_cols (off + length b) blocks'
  end.

(** The adjacency matrix of one structure by columns (lines 140-142):
    entry [(r, c)] is stored when [within] and the identity differ. *)
Definition within_matrix (cutoff : Q) (R : list point) : sp.dense :=
  map (fun p => map (fun q => within cutoff p q) R) R.
Definition identity_matrix (n : nat) : sp.dense :=
  map (fun r => map (Nat.eqb r) (seq 0 n)) (seq 0 n).
Definition neighbours (cutoff : Q) (R : list point) : list (list nat) :=
  map np.nonzero
      (zip_with (zip_with sp.bool_minus) (within_matrix cutoff R) (identity_matrix (length R))).

(** The coordinates of an example after [_restore_shape]. *)
Definition positions (e : dict value) : list point :=
  match dict_get "R" e with Some (Float2 R) => R | _ => [] end.

(** The columns of the batch adjacency matrix. *)
Definition batch_cols (cutoff : Q) (examples : list (dict value)) : list (list nat) :=
  block_cols 0 (map (fun e => neighbours cutoff (positions e)) examples).

(** A position with coordinates in the range of binary64: none of them
    is rounded to an infinity. *)
Definition finite (p : point) : bool :=
  let '(x, y, z) := p in
  float64.is_finite (float64.of_Q x) && float64.is_finite (float64.of_Q y)
  && float64.is_finite (float64.of_Q z).

(** Every run of [c] takes a world to one related to it by [Rel],
    whether it returns or raises. *)
Definition preserves (Rel : world -> world -> Prop) {A : Type} (c : M A) : Prop :=
  forall w, Rel w (c w).2.

(** The result of [c] and the heap it leaves depend on the heap only, not
    on the random generator. *)
Definition oblivious {A : Type} (c : M A) : Prop :=
  forall w1 w2, heap w1 = heap w2 ->
                (c w1).1 = (c w2).1 /\ heap (c w1).2 = heap (c w2).2.

(** The only fields of an example that differ between two worlds are
    ['R'] and ['R_orig'], and no field is lost. *)
Definition only_positions_updated (w w' : world) : Prop :=
  forall e k,
    (k <> "R"%string -> k <> "R_orig"%string ->
     dict_get k (deref e w') = dict_get k (deref e w)) /\
    (is_Some (dict_get k (deref e w)) -> is_Some (dict_get k (deref e w'))).

(** The number of atoms of an example, from its ['R'] in either layout. *)
Definition natoms (d : dict value) : nat :=
  match dict_get "R" d with
  | Some (Float2 a) => length a
  | Some (Float1 a) => length (rows3 a)
  | _ => 0
  end.

Definition same_atoms (w w' : world) : Prop :=
  forall e, natoms (deref e w') = natoms (deref e w).


(** An example without atoms. *)
Definition no_atoms (d : dict value) : Prop :=
  dict_get "R" d = Some (Float1 []) \/ dict_get "R" d = Some (Float2 []).

(** The batch [out] carries the index arrays [g], converted by
    [post_fn]. *)
Definition carries {T : Type} (self : AtomsCollate T) (out : dict T) (g : graph) : Prop :=
  dict_get "idnb_i" out = Some (post_fn self (ints (idnb_i g))) /\
  dict_get "idnb_j" out = Some (post_fn self (ints (idnb_j g))) /\
  dict_get "id3dnb_i" out = Some (post_fn self (ints (id3dnb_i g))) /\
  dict_get "id3dnb_j" out = Some (post_fn self (ints (id3dnb_j g))) /\
  dict_get "id3dnb_k" out = Some (post_fn self (ints (id3dnb_k g))) /\
  dict_get "id_expand_kj" out = Some (post_fn self (ints (id_expand_kj g))) /\
  dict_get "id_reduce_ji" out = Some (post_fn self (ints (id_reduce_ji g))).

(** What [_bmat_fast] computes, in terms of rows. *)
Definition bmat_rows {A : Type} (blocks : list (list (list (nat * A))))
    : result (sp.csr_matrix A) :=
  let rows := block_rows 0 blocks in
  match concat (map (map fst) rows) with
  | [] => Raise ValueError
  | c :: cs => Ok (of_rows rows (S (max_list (c :: cs))))
  end.

(** The block-diagonal matrix of square blocks as the specification
    describes it: the rows of the blocks with their columns shifted, in a
    matrix with as many columns as rows. *)
Definition block_diag {A : Type} (blocks : list (list (list (nat * A)))) : sp.csr_matrix A :=
  of_rows (block_rows 0 blocks) (sum_list (map length blocks)).

(** The local rank of edge [e]: its position among the edges with the
    same source atom, in the order of the edge numbering. *)
Definition local_rank (source : list nat) (e : nat) : nat :=
  length (filter (fun s => s = nth e source 0) (take e source)).

(** The row of every edge of a matrix given by columns. *)
Definition targets (cols : list (list nat)) : list nat :=
  concat (imap (fun r row => replicate (length row) r) cols).

(** The candidate triplets of lines 155-158 and the two edge references
    of lines 168 and 170 before they are filtered: edge [e = (i <- j)] is
    paired with every entry [k] of row [j].  [keep] is the mask of the
    candidates with [i != k]. *)
Definition triplet_counts (cols : list (list nat)) : list nat :=
  map (fun s => length (getrow cols s)) (concat cols).
Definition cand_i (cols : list (list nat)) : list nat :=
  np.repeat_each (targets cols) (triplet_counts cols).
Definition cand_j (cols : list (list nat)) : list nat :=
  np.repeat_each (concat cols) (triplet_counts cols).
Definition cand_k (cols : list (list nat)) : list nat :=
  concat (map (getrow cols) (concat cols)).
Definition cand_expand (cols : list (list nat)) : list nat :=
  concat (map (fun s => map snd (getrow (number_from 0 cols) s)) (concat cols)).
Definition cand_reduce (cols : list (list nat)) : list nat :=
  concat (imap (fun e s => replicate (length (getrow cols s)) e) (concat cols)).
Definition keep (cols : list (list nat)) : list bool :=
  zip_with (fun x y => negb (Nat.eqb x y)) (cand_i cols) (cand_k cols).

Definition graph_of_cols (cols : list (list nat)) : graph :=
  Graph (targets cols) (concat cols)
        (np.compress (keep cols) (cand_i cols))
        (np.compress (keep cols) (cand_j cols))
        (np.compress (keep cols) (cand_k cols))
        (np.compress (keep cols) (cand_expand cols))
        (np.compress (keep cols) (cand_reduce cols)).

(** ** Notions for the properties of a batch *)

(** Edge [(i <- j)] is listed in the edge arrays. *)
Definition edge (g : graph) (i j : nat) : Prop :=
  exists n, idnb_i g !! n = Some i /\ idnb_j g !! n = Some j.

(** The positions of all atoms of the examples, one structure after the
    other, and the number of its structure for every atom. *)
Definition batch_positions (exs : list (dict value)) : list point :=
  concat (map positions exs).

Definition segments (exs : list (dict value)) : list nat :=
  np.repeat_each (np.arange (length exs)) (map (fun e => length (positions e)) exs).

(** The fields that [__call__] computes and stores over whatever the
    examples hold under these names (lines 151-173). *)
Definition index_fields : list string :=
  ["idnb_i"; "idnb_j"; "id3dnb_i"; "id3dnb_j"; "id3dnb_k"; "id_expand_kj"; "id_reduce_ji";
   "batch_seg"]%string.

(** An example as the loop of lines 124-130 leaves it: positions under
    ['R'] and ['R_orig'], as many of the one as of the other. *)
Definition augmented (d : dict value) : Prop :=
  exists a b, dict_get "R" d = Some (Float2 a) /\ dict_get "R_orig" d = Some (Float2 b) /\
              length a = length b.


(** The positions of every example in [w1] are those in [w] or their
    [N x 3] layout. *)
Definition reshaped (w w1 : world) : Prop :=
  forall e,
    dict_get "R" (deref e w1) = dict_get "R" (deref e w) \/
    exists r R, dict_get "R" (deref e w) = Some r /\ reshape3 r = Ok (Float2 R) /\
                dict_get "R" (deref e w1) = Some (Float2 R).

(** An example in the heap whose positions are in the [N x 3] layout. *)
Definition shaped (e : loc) (w : world) : Prop :=
  exists d a, heap w !! e = Some d /\ dict_get "R" d = Some (Float2 a).

(** The positions an example holds under ['R_orig']. *)
Definition originals (e : dict value) : list point :=
  match dict_get "R_orig" e with Some (Float2 R) => R | _ => [] end.

(** The positions of an example as [reshape(-1, 3)] lays them out. *)
Definition input_positions (d : dict value) : list point :=
  match dict_get "R" d with
  | Some (Float2 a) => a
  | Some (Float1 a) => rows3 a
  | _ => []
  end.

(** A list of numbers in strictly increasing order. *)
Definition increasing (l : list nat) : Prop :=
  forall o o' x y, o < o' -> l !! o = Some x -> l !! o' = Some y -> x < y.

(** The number of elements of a value: [np.size(v)]. *)
Definition array_size (v : value) : nat :=
  match v with
  | Float2 a => 3 * length a
  | Float1 a => length a | Int1 a => length a | Str1 a => length a
  | Float0 _ | Int0 _ => 1
  end.

(** ** Sample batches *)

(** A generator whose draws differ from call to call. *)
Definition sample_generator (n : nat) : generator :=
  Generator n
            (fun n m => (inject_Z (Z.of_nat (S n)) * m, 0, 0)%Q)
            (fun n => ((1, 0, 0), (0, 1, 0), (0, 0, 1))%Q).

Definition sample_world (examples : list (dict value)) : world :=
  World (list_to_map (imap (fun e d => (e, d)) examples)) (sample_generator 0).

Definition plain (cutoff : Q) : AtomsCollate value :=
  {| post_fn := id; cutoff := cutoff; rand_cov := 0%Q; rotate := false |}.

(** Three atoms with all distances equal, stored flat as in the data set. *)
Definition triangle : dict value :=
  [("R", Float1 [1; 0; 0;  0; 1; 0;  0; 0; 1]%Q); ("Z", Int1 [6; 6; 6]%Z);
   ("U0", Float0 (1 # 2)%Q)].

(** The equilateral triangle of side 1.0 in binary64, already in the
    3 x 3 layout: [(0, 0, 0)], [(1, 0, 0)] and [(0.5, 0.8660254037844386, 0)].
    The computed distances are 1.0, 0.9999999999999999 and
    0.9999999999999999. *)
Definition unit_triangle : dict value :=
  [("R", Float2 [(0, 0, 0); (1, 0, 0);
                 (1 # 2, 3900231685776981 # 4503599627370496, 0)]%Q);
   ("Z", Int1 [6; 6; 6]%Z); ("name", Str1 [Text "C3"])].

Definition triangle_call : result (dict value) * world :=
  Eval vm_compute in __call__ (plain 2) [0] (sample_world [triangle]).
Definition triangle_batch : dict value :=
  match triangle_call.1 with Ok out => out | Raise _ => [] end.

(** One atom at the origin. *)
Definition lone_atom : dict value :=
  [("R", Float1 [0; 0; 0]%Q); ("Z", Int1 [1]%Z)].

(** Two atoms one unit apart. *)
Definition pair_apart : dict value :=
  [("R", Float2 [(0, 0, 0); (1, 0, 0)]%Q); ("Z", Int1 [1; 1]%Z)].

(** Two atoms at the same point. *)
Definition pair_coincident : dict value :=
  [("R", Float2 [(0, 0, 0); (0, 0, 0)]%Q); ("Z", Int1 [1; 1]%Z)].

(** Two atoms [2 ^ -600] apart: the square of the difference is below the
    smallest binary64 number. *)
Definition pair_close : dict value :=
  [("R", Float2 [(0, 0, 0); (1 # 2 ^ 600, 0, 0)]%Q); ("Z", Int1 [1; 1]%Z)].

(** A record of the data set without atoms. *)
Definition no_structure : dict value :=
  [("R", Float1 []); ("Z", Int1 []); ("U0", Float0 (3 # 2)%Q)].

Definition with_no_structure_call : result (dict value) * world :=
  Eval vm_compute in __call__ (plain 2) [0; 1] (sample_world [triangle; no_structure]).
Definition with_no_structure_batch : dict value :=
  match with_no_structure_call.1 with Ok out => out | Raise _ => [] end.

(** Noise of variance 0.01 on every coordinate, as in the module's own
    test run. *)
Definition noisy (cutoff : Q) : AtomsCollate value :=
  {| post_fn := id; cutoff := cutoff; rand_cov := (1 # 100)%Q; rotate := false |}.

(** ** Arrays *)

Section arrays.
Context {A : Type}.
Implicit Types (l a : list A) (ls : list (list A)) (mask : list bool).

Lemma cumsum_from_length acc (xs : list nat) :
  length (np.cumsum_from acc xs) = length xs.
Proof. revert acc. induction xs as [|x xs IH]; intros acc; simpl; [done|]. by rewrite IH. Qed.

Lemma cumsum_from_app acc (xs ys : list nat) :
  np.cumsum_from acc (xs ++ ys)
  = np.cumsum_from acc xs ++ np.cumsum_from (acc + sum_list xs) ys.
Proof.
  revert acc. induction xs as [|x xs IH]; intros acc; simpl.
  - by rewrite Nat.add_0_r.
  - rewrite IH. by rewrite Nat.add_assoc.
Qed.

Lemma cumsum_from_shift acc k (xs : list nat) :
  map (fun p => p + k) (np.cumsum_from acc xs) = np.cumsum_from (acc + k) xs.
Proof.
  revert acc. induction xs as [|x xs IH]; intros acc; simpl; [done|].
  rewrite IH. f_equal; [lia|]. f_equal. lia.
Qed.

(** Entry [r] of [acc :: cumsum_from acc xs] is [acc] plus the first [r]
    elements of [xs]. *)
Lemma nth_offsets acc (xs : list nat) r :
  r <= length xs ->
  nth r (acc :: np.cumsum_from acc xs) 0 = acc + sum_list (take r xs).
Proof.
  revert acc r. induction xs as [|x xs IH]; intros acc r Hr; simpl in *.
  - assert (r = 0) as -> by lia. simpl. lia.
  - destruct r as [|r]; simpl; [lia|].
    specialize (IH (acc + x) r ltac:(lia)). simpl in IH. rewrite IH. lia.
Qed.

Lemma nth_offsets_ge acc (xs : list nat) r :
  length xs < r -> nth r (acc :: np.cumsum_from acc xs) 0 = 0.
Proof.
  intros Hr. apply nth_overflow. simpl. rewrite cumsum_from_length. lia.
Qed.

Lemma last_offsets acc (xs : list nat) :
  List.last (acc :: np.cumsum_from acc xs) 0 = acc + sum_list xs.
Proof.
  revert acc. induction xs as [|x xs IH]; intros acc.
  - simpl. lia.
  - change (np.cumsum_from acc (x :: xs)) with ((acc + x) :: np.cumsum_from (acc + x) xs).
    change (List.last (acc :: (acc + x) :: np.cumsum_from (acc + x) xs) 0)
      with (List.last ((acc + x) :: np.cumsum_from (acc + x) xs) 0).
    rewrite IH. simpl. lia.
Qed.

Lemma length_concat_sum ls : length (concat ls) = sum_list (map length ls).
Proof. induction ls as [|l ls IH]; simpl; [done|]. by rewrite length_app, IH. Qed.

(** The slice of a concatenation between the offsets of segment [r] is
    segment [r]. *)
Lemma slice_concat ls r :
  r < length ls ->
  sp.slice (sum_list (take r (map length ls))) (sum_list (take (S r) (map length ls)))
           (concat ls) = getrow ls r.
Proof.
  intros Hr. unfold getrow, sp.slice.
  destruct (lookup_lt_is_Some_2 ls r Hr) as [row Hrow]. rewrite Hrow. simpl.
  assert (sum_list (take r (map length ls)) = length (concat (take r ls))) as ->.
  { by rewrite length_concat_sum, fmap_take. }
  assert (sum_list (take (S r) (map length ls))
          = length (concat (take r ls)) + length row) as ->.
  { rewrite <- fmap_take, <- length_concat_sum, (take_S_r ls r row Hrow).
    rewrite concat_app, length_app. simpl. rewrite app_nil_r. done. }
  assert (concat ls = concat (take r ls) ++ row ++ concat (drop (S r) ls)) as ->.
  { rewrite <- (take_drop_middle ls r row Hrow) at 1. by rewrite concat_app. }
  rewrite drop_app_length.
  replace (length (concat (take r ls)) + length row - length (concat (take r ls)))
    with (length row) by lia.
  by rewrite take_app_length.
Qed.

Lemma compress_all n a : length a = n -> np.compress (replicate n true) a = a.
Proof.
  revert a. induction n as [|n IH]; intros [|x a] Hn; simpl in *; try done.
  f_equal. apply IH. lia.
Qed.

Lemma lookup_nonzero_from k mask n :
  n ∈ np.nonzero_from k mask <-> k <= n /\ mask !! (n - k) = Some true.
Proof.
  revert k. induction mask as [|b mask IH]; intros k; simpl.
  - split; [by intros ?%elem_of_nil | by intros [_ ?]].
  - rewrite elem_of_app, IH. split.
    + intros [Hb | [Hk Hn]].
      * destruct b; [|by apply elem_of_nil in Hb].
        apply list_elem_of_singleton in Hb as ->. by rewrite Nat.sub_diag.
      * split; [lia|]. by replace (n - k) with (S (n - S k)) by lia.
    + intros [Hk Hn]. destruct (decide (n = k)) as [->|Hne].
      * rewrite Nat.sub_diag in Hn. simpl in Hn. injection Hn as ->.
        left. by apply list_elem_of_singleton.
      * right. split; [lia|]. by replace (n - k) with (S (n - S k)) in Hn by lia.
Qed.

(** Indexing with the positions of the [True] values of a mask is
    indexing with the mask. *)
Lemma take_nonzero_from k mask pre a :
  length pre = k -> length mask = length a ->
  np.take (pre ++ a) (np.nonzero_from k mask) = Ok (np.compress mask a).
Proof.
  revert k pre a. induction mask as [|b mask IH]; intros k pre [|x a] Hk Hlen;
    simpl in *; try done.
  specialize (IH (S k) (pre ++ [x]) a).
  rewrite <- app_assoc in IH. simpl in IH.
  unfold np.take in *. destruct b; simpl.
  - rewrite lookup_app_r by lia. rewrite Hk, Nat.sub_diag. simpl.
    rewrite IH; [done | rewrite length_app; simpl; lia | lia].
  - apply IH; [rewrite length_app; simpl; lia | lia].
Qed.

Lemma take_nonzero mask a :
  length mask = length a -> np.take a (np.nonzero mask) = Ok (np.compress mask a).
Proof. intros Hlen. by apply (take_nonzero_from 0 mask [] a). Qed.

Lemma repeat_each_length a (counts : list nat) :
  length a = length counts -> length (np.repeat_each a counts) = sum_list counts.
Proof.
  revert counts. induction a as [|x a IH]; intros [|c counts] Hlen; simpl in *; try done.
  rewrite length_app, length_replicate, IH; [done | lia].
Qed.

(** [np.repeat] as a concatenation of constant segments. *)
Lemma repeat_each_concat a (counts : list nat) :
  np.repeat_each a counts = concat (zip_with (fun x c => replicate c x) a counts).
Proof.
  revert counts. induction a as [|x a IH]; intros [|c counts]; simpl; try done.
  by rewrite IH.
Qed.

End arrays.

(** ** The CSR operations on matrices given by rows *)

Section rows.
Context {A : Type}.
Implicit Types (rows : list (list (nat * A))) (n r : nat).

Lemma getrow_map {B C : Type} (f : B -> C) (ls : list (list B)) r :
  getrow (map (map f) ls) r = map f (getrow ls r).
Proof. unfold getrow. rewrite list_lookup_fmap. by destruct (ls !! r). Qed.

Lemma getrow_ge {B : Type} (ls : list (list B)) r : length ls <= r -> getrow ls r = [].
Proof. intros Hr. unfold getrow. by rewrite lookup_ge_None_2. Qed.

Lemma map_length_map {B C : Type} (f : B -> C) (ls : list (list B)) :
  map length (map (map f) ls) = map length ls.
Proof.
  rewrite <- list_fmap_compose. apply list_fmap_ext. intros _ l _. simpl.
  apply length_map.
Qed.

Lemma row_lo_of_rows rows n r :
  r <= length rows ->
  sp.row_lo (of_rows rows n) r = sum_list (take r (map length rows)).
Proof.
  intros Hr. unfold sp.row_lo, of_rows, np.cumsum. simpl sp.indptr.
  rewrite nth_offsets; [done | by rewrite length_map].
Qed.

Lemma row_hi_of_rows rows n r :
  r < length rows ->
  sp.row_hi (of_rows rows n) r = sum_list (take (S r) (map length rows)).
Proof.
  intros Hr. unfold sp.row_hi, of_rows, np.cumsum. simpl sp.indptr.
  rewrite nth_offsets; [done | rewrite length_map; lia].
Qed.

Lemma row_hi_of_rows_ge rows n r :
  length rows <= r -> sp.row_hi (of_rows rows n) r = 0.
Proof.
  intros Hr. unfold sp.row_hi, of_rows, np.cumsum. simpl sp.indptr.
  apply nth_offsets_ge. rewrite length_map. lia.
Qed.

Lemma row_len_of_rows rows n r :
  sp.row_hi (of_rows rows n) r - sp.row_lo (of_rows rows n) r = length (getrow rows r).
Proof.
  destruct (decide (r < length rows)) as [Hr|Hr].
  - rewrite row_lo_of_rows, row_hi_of_rows by lia.
    destruct (lookup_lt_is_Some_2 rows r Hr) as [row Hrow].
    unfold getrow. rewrite Hrow. simpl.
    rewrite (take_S_r (map length rows) r (length row)).
    + rewrite sum_list_with_app. simpl. unfold id. lia.
    + by rewrite list_lookup_fmap, Hrow.
  - rewrite row_hi_of_rows_ge, getrow_ge by lia. done.
Qed.

Lemma slice_of_rows {B : Type} (f : nat * A -> B) rows n r :
  sp.slice (sp.row_lo (of_rows rows n) r) (sp.row_hi (of_rows rows n) r)
           (concat (map (map f) rows))
  = map f (getrow rows r).
Proof.
  destruct (decide (r < length rows)) as [Hr|Hr].
  - rewrite row_lo_of_rows, row_hi_of_rows by lia.
    rewrite <- (map_length_map f rows).
    rewrite slice_concat by (by rewrite length_map).
    apply getrow_map.
  - rewrite row_hi_of_rows_ge, getrow_ge by lia. done.
Qed.

Lemma row_indices_of_rows rows n r :
  sp.row_indices (of_rows rows n) r = map fst (getrow rows r).
Proof. apply (slice_of_rows fst). Qed.

Lemma row_data_of_rows rows n r :
  sp.row_data (of_rows rows n) r = map snd (getrow rows r).
Proof. apply (slice_of_rows snd). Qed.

Lemma nnz_of_rows rows n :
  sp.nnz (of_rows rows n) = sum_list (map length rows).
Proof. unfold sp.nnz, of_rows, np.cumsum. simpl sp.indptr. by rewrite last_offsets. Qed.

Lemma length_indices_of_rows rows n :
  length (sp.indices (of_rows rows n)) = sum_list (map length rows).
Proof. simpl. by rewrite length_concat_sum, map_length_map. Qed.

Lemma length_data_of_rows rows n :
  length (sp.data (of_rows rows n)) = sum_list (map length rows).
Proof. simpl. by rewrite length_concat_sum, map_length_map. Qed.

Lemma from_arrays_ok (d : list A) (idx ptr : list nat) (sh : nat * nat) :
  length ptr = S (fst sh) -> head ptr = Some 0 -> length idx = length d ->
  List.last ptr 0 = length idx ->
  sp.from_arrays d idx ptr (Some sh) = Ok (sp.CSR d idx ptr sh).
Proof.
  intros H1 H2 H3 H4. unfold sp.from_arrays. cbn [mbind result_bind].
  rewrite !bool_decide_eq_true_2 by (done || lia). cbn [negb].
  rewrite H4, !firstn_all2 by lia. done.
Qed.

(** The row of every stored value: row [r] once for each of its
    entries. *)
Lemma tocoo_row_of_rows rows n :
  sp.tocoo_row (of_rows rows n)
  = concat (imap (fun r row => replicate (length row) r) rows).
Proof.
  unfold sp.tocoo_row. rewrite flat_map_concat_map. f_equal.
  change (fst (sp.shape (of_rows rows n))) with (length rows).
  apply list_eq. intros r.
  rewrite list_lookup_imap, list_lookup_fmap.
  destruct (decide (r < length rows)) as [Hr|Hr].
  - rewrite lookup_seq_lt by done. simpl.
    rewrite row_len_of_rows. unfold getrow.
    destruct (lookup_lt_is_Some_2 rows r Hr) as [row ->]. done.
  - rewrite lookup_seq_ge, lookup_ge_None_2 by lia. done.
Qed.

(** Selecting rows of a matrix selects them from its list of rows. *)
Lemma getrows_of_rows rows n idx :
  sp.getrows (of_rows rows n) idx
  = if forallb (fun r => bool_decide (r < length rows)) idx
    then Ok (of_rows (map (getrow rows) idx) n)
    else Raise IndexError.
Proof.
  unfold sp.getrows. change (fst (sp.shape (of_rows rows n))) with (length rows).
  destruct (forallb _ idx); [|done]. f_equal.
  symmetry. unfold of_rows at 1. rewrite length_map. f_equal.
  - rewrite flat_map_concat_map. f_equal.
    rewrite <- list_fmap_compose. apply list_fmap_ext. intros _ r _. simpl.
    symmetry. apply row_data_of_rows.
  - rewrite flat_map_concat_map. f_equal.
    rewrite <- list_fmap_compose. apply list_fmap_ext. intros _ r _. simpl.
    symmetry. apply row_indices_of_rows.
  - do 2 f_equal.
    rewrite <- list_fmap_compose. apply list_fmap_ext. intros _ r _. simpl.
    symmetry. apply row_len_of_rows.
Qed.

End rows.

(** ** Segmented arrays *)

Section segments.
Context {A B : Type}.
Implicit Types (P : A -> B -> Prop).

Lemma lookup_concat_offset (ls : list (list A)) r o x :
  getrow ls r !! o = Some x ->
  concat ls !! (sum_list (take r (map length ls)) + o) = Some x.
Proof.
  unfold getrow. intros Hx.
  destruct (ls !! r) as [row|] eqn:Hrow; simpl in Hx; [|done].
  assert (concat ls = concat (take r ls) ++ row ++ concat (drop (S r) ls)) as ->.
  { rewrite <- (take_drop_middle ls r row Hrow) at 1. by rewrite concat_app. }
  rewrite <- fmap_take, <- length_concat_sum.
  rewrite lookup_app_r by lia.
  replace (length (concat (take r ls)) + o - length (concat (take r ls))) with o by lia.
  apply lookup_app_l_Some, Hx.
Qed.

Lemma Forall2_concat_segments P (l1 : list (list A)) (l2 : list (list B)) :
  Forall2 (Forall2 P) l1 l2 -> Forall2 P (concat l1) (concat l2).
Proof. induction 1; simpl; [constructor | by apply Forall2_app]. Qed.

Lemma Forall2_compress P mask (a : list A) (b : list B) :
  Forall2 P a b -> Forall2 P (np.compress mask a) (np.compress mask b).
Proof.
  intros H. revert mask. induction H as [|x y a b Hxy _ IH]; intros [|[] mask]; simpl;
    try constructor; auto.
Qed.

End segments.

Lemma compress_not_equal (a b : list nat) :
  let differ := zip_with (fun x y => negb (Nat.eqb x y)) a b in
  Forall2 (fun x y => x <> y) (np.compress differ a) (np.compress differ b).
Proof.
  revert b. induction a as [|x a IH]; intros [|y b]; simpl; try constructor.
  destruct (Nat.eqb_spec x y); simpl; [apply IH|].
  constructor; [done | apply IH].
Qed.

Lemma map_getrow_seq {A B : Type} (f : list A -> B) (ls : list (list A)) :
  map (fun r => f (getrow ls r)) (seq 0 (length ls)) = map f ls.
Proof.
  apply list_eq. intros r. rewrite !list_lookup_fmap.
  destruct (decide (r < length ls)) as [Hr|Hr].
  - rewrite lookup_seq_lt by done. simpl. unfold getrow.
    destruct (lookup_lt_is_Some_2 ls r Hr) as [row ->]. done.
  - rewrite lookup_seq_ge, lookup_ge_None_2 by lia. done.
Qed.

(** ** The numbering of edges *)

Section numbering.
Implicit Types (cols : list (list nat)).

Lemma number_from_fst k cols : map (map fst) (number_from k cols) = cols.
Proof.
  revert k. induction cols as [|row cols IH]; intros k; simpl; [done|].
  rewrite IH. f_equal. apply fst_zip. rewrite length_seq. done.
Qed.

Lemma number_from_length k cols : map length (number_from k cols) = map length cols.
Proof.
  revert k. induction cols as [|row cols IH]; intros k; simpl; [done|].
  rewrite IH. f_equal. rewrite length_zip, length_seq. lia.
Qed.

Lemma number_from_snd k cols :
  concat (map (map snd) (number_from k cols)) = seq k (sum_list (map length cols)).
Proof.
  revert k. induction cols as [|row cols IH]; intros k; simpl; [done|].
  rewrite IH. unfold id at 1. rewrite seq_app. f_equal.
  apply snd_zip. rewrite length_seq. done.
Qed.

Lemma getrow_number_from k cols s :
  getrow (number_from k cols) s
  = zip (getrow cols s)
        (seq (k + sum_list (take s (map length cols))) (length (getrow cols s))).
Proof.
  revert k s. induction cols as [|row cols IH]; intros k s.
  - unfold getrow. by rewrite !lookup_nil.
  - destruct s as [|s].
    + unfold getrow. simpl. by rewrite Nat.add_0_r.
    + change (getrow (number_from k (row :: cols)) (S s))
        with (getrow (number_from (k + length row) cols) s).
      change (getrow (row :: cols) (S s)) with (getrow cols s).
      rewrite IH. simpl. unfold id at 1. by rewrite Nat.add_assoc.
Qed.

End numbering.

(** ** Edges and triplets of a matrix given by columns *)

Section triplets.
Implicit Types (cols : list (list nat)) (n : nat).

Lemma of_cols_indices cols n : sp.indices (of_cols cols n) = concat cols.
Proof.
  unfold of_cols. simpl. f_equal.
  rewrite <- list_fmap_compose. rewrite <- (list_fmap_id cols) at 2.
  apply list_fmap_ext. intros _ row _. simpl.
  rewrite <- list_fmap_compose. apply list_fmap_id.
Qed.

Lemma of_cols_data cols n :
  sp.data (of_cols cols n) = replicate (sum_list (map length cols)) true.
Proof.
  unfold of_cols. simpl. induction cols as [|row cols IH]; simpl; [done|].
  rewrite IH. unfold id at 1. rewrite replicate_add. f_equal.
  clear. induction row; simpl; by f_equal.
Qed.

Lemma of_cols_tocoo_row cols n : sp.tocoo_row (of_cols cols n) = targets cols.
Proof.
  unfold of_cols. rewrite tocoo_row_of_rows, imap_fmap. unfold targets. f_equal.
  apply imap_ext. intros r row _. simpl. by rewrite length_map.
Qed.

Lemma targets_length cols : length (targets cols) = sum_list (map length cols).
Proof.
  unfold targets. rewrite length_concat_sum. f_equal.
  apply list_eq. intros r. rewrite !list_lookup_fmap, list_lookup_imap.
  destruct (cols !! r); simpl; [|done]. by rewrite length_replicate.
Qed.

Lemma nonzero_of_cols cols n :
  sp.nonzero (of_cols cols n) = (targets cols, concat cols).
Proof.
  unfold sp.nonzero. rewrite of_cols_data, of_cols_tocoo_row, of_cols_indices.
  rewrite !compress_all; [done | | ].
  - by rewrite length_concat_sum.
  - apply targets_length.
Qed.

Lemma sum1_of_cols cols n : sp.sum1 (of_cols cols n) = map length cols.
Proof.
  unfold sp.sum1, of_cols.
  change (fst (sp.shape (of_rows (map (map (fun c => (c, true))) cols) n)))
    with (length (map (map (fun c : nat => (c, true))) cols)).
  rewrite length_map.
  rewrite <- (map_getrow_seq length cols).
  apply list_fmap_ext. intros _ r _. simpl.
  rewrite row_data_of_rows, getrow_map, <- list_fmap_compose. simpl.
  induction (getrow cols r) as [|c l IH]; simpl; [done|].
  f_equal. apply IH.
Qed.

Lemma getrows_of_cols cols n idx :
  sp.getrows (of_cols cols n) idx
  = if forallb (fun r => bool_decide (r < length cols)) idx
    then Ok (of_cols (map (getrow cols) idx) n)
    else Raise IndexError.
Proof.
  unfold of_cols. rewrite getrows_of_rows, length_map.
  destruct (forallb _ idx); [|done]. do 2 f_equal.
  rewrite <- !list_fmap_compose. apply list_fmap_ext. intros _ r _. simpl.
  apply getrow_map.
Qed.

(** [atomids_to_edgeid] has the rows of the adjacency matrix with the
    edge identifiers as values. *)
Lemma atomids_of_cols cols n :
  sp.from_arrays (np.arange (sp.nnz (of_cols cols n))) (sp.indices (of_cols cols n))
                 (sp.indptr (of_cols cols n)) (Some (sp.shape (of_cols cols n)))
  = Ok (of_rows (number_from 0 cols) n).
Proof.
  rewrite of_cols_indices. unfold of_cols. rewrite nnz_of_rows, map_length_map.
  rewrite from_arrays_ok.
  - f_equal. unfold of_rows, np.arange.
    rewrite number_from_fst, number_from_snd, number_from_length, map_length_map.
    cbn [sp.indptr sp.shape]. do 2 f_equal. rewrite length_map.
    pose proof (f_equal length (number_from_length 0 cols)) as Hlen.
    by rewrite !length_map in Hlen.
  - unfold of_rows. cbn [sp.indptr sp.shape fst]. unfold np.cumsum. cbn [length].
    by rewrite cumsum_from_length, !length_map.
  - done.
  - unfold np.arange. by rewrite length_seq, length_concat_sum.
  - pose proof (nnz_of_rows (map (map (fun c : nat => (c, true))) cols) n) as Hn.
    unfold sp.nnz in Hn. rewrite Hn, map_length_map. by rewrite length_concat_sum.
Qed.

Lemma length_number_from k cols : length (number_from k cols) = length cols.
Proof.
  pose proof (f_equal length (number_from_length k cols)) as Hlen.
  by rewrite !length_map in Hlen.
Qed.

Lemma length_getrow_number_from k cols s :
  length (getrow (number_from k cols) s) = length (getrow cols s).
Proof. rewrite getrow_number_from, length_zip, length_seq. lia. Qed.

Lemma triplet_counts_length cols :
  length (triplet_counts cols) = sum_list (map length cols).
Proof. unfold triplet_counts. by rewrite length_map, length_concat_sum. Qed.

Lemma cand_i_length cols : length (cand_i cols) = sum_list (triplet_counts cols).
Proof.
  apply repeat_each_length. by rewrite targets_length, triplet_counts_length.
Qed.

Lemma cand_j_length cols : length (cand_j cols) = sum_list (triplet_counts cols).
Proof.
  apply repeat_each_length. by rewrite length_concat_sum, triplet_counts_length.
Qed.

Lemma cand_k_length cols : length (cand_k cols) = sum_list (triplet_counts cols).
Proof.
  unfold cand_k, triplet_counts. by rewrite length_concat_sum, <- list_fmap_compose.
Qed.

Lemma cand_expand_length cols : length (cand_expand cols) = sum_list (triplet_counts cols).
Proof.
  unfold cand_expand, triplet_counts. rewrite length_concat_sum, <- list_fmap_compose.
  f_equal. apply list_fmap_ext. intros _ s _. simpl.
  by rewrite length_map, length_getrow_number_from.
Qed.

Lemma cand_reduce_length cols : length (cand_reduce cols) = sum_list (triplet_counts cols).
Proof.
  unfold cand_reduce, triplet_counts. rewrite length_concat_sum. f_equal.
  apply list_eq. intros e. rewrite !list_lookup_fmap, list_lookup_imap.
  destruct (concat cols !! e); simpl; [|done]. by rewrite length_replicate.
Qed.

Lemma keep_length cols : length (keep cols) = sum_list (triplet_counts cols).
Proof.
  unfold keep. rewrite length_zip_with, cand_i_length, cand_k_length. lia.
Qed.

(** The index arrays of an adjacency matrix given by columns.  The only
    failure is a column that is not a row of the matrix. *)
Lemma edges_and_triplets_of_cols cols n :
  edges_and_triplets (of_cols cols n)
  = if forallb (fun r => bool_decide (r < length cols)) (concat cols)
    then Ok (graph_of_cols cols)
    else Raise IndexError.
Proof.
  unfold edges_and_triplets.
  rewrite atomids_of_cols. cbn [mbind result_bind].
  rewrite nonzero_of_cols, getrows_of_cols, getrows_of_rows, length_number_from.
  destruct (forallb _ (concat cols)); [|done]. cbn [mbind result_bind].
  rewrite sum1_of_cols, nonzero_of_cols. cbn [snd].
  rewrite <- list_fmap_compose.
  replace (length ∘ getrow cols <$> concat cols) with (triplet_counts cols)
    by reflexivity.
  unfold np.repeat.
  rewrite !decide_True
    by (by rewrite ?targets_length, ?length_concat_sum, triplet_counts_length).
  cbn [mbind result_bind].
  fold (cand_i cols) (cand_j cols) (cand_k cols).
  unfold np.not_equal.
  rewrite decide_True by (by rewrite cand_i_length, cand_k_length).
  cbn [mbind result_bind]. fold (keep cols).
  rewrite (take_nonzero (keep cols) (cand_i cols))
    by (by rewrite keep_length, cand_i_length).
  cbn [mbind result_bind].
  rewrite (take_nonzero (keep cols) (cand_j cols))
    by (by rewrite keep_length, cand_j_length).
  cbn [mbind result_bind].
  rewrite (take_nonzero (keep cols) (cand_k cols))
    by (by rewrite keep_length, cand_k_length).
  cbn [mbind result_bind].
  assert (sp.data (of_rows (map (getrow (number_from 0 cols)) (concat cols)) n)
          = cand_expand cols) as ->.
  { unfold of_rows, cand_expand. cbn [sp.data]. by rewrite <- list_fmap_compose. }
  assert (sp.tocoo_row (of_rows (map (getrow (number_from 0 cols)) (concat cols)) n)
          = cand_reduce cols) as ->.
  { rewrite tocoo_row_of_rows, imap_fmap. unfold cand_reduce. f_equal.
    apply imap_ext. intros e s _. simpl. by rewrite length_getrow_number_from. }
  rewrite (take_nonzero (keep cols) (cand_expand cols))
    by (by rewrite keep_length, cand_expand_length).
  cbn [mbind result_bind].
  rewrite (take_nonzero (keep cols) (cand_reduce cols))
    by (by rewrite keep_length, cand_reduce_length).
  done.
Qed.

End triplets.

(** ** What the index arrays refer to *)

Section references.
Implicit Types (cols : list (list nat)).

(** Position [o] of row [s] is edge number [lo + o], where [lo] counts
    the entries of the rows before [s]; its target is [s] and its source
    the column stored there. *)
Lemma lookup_targets cols s o :
  o < length (getrow cols s) ->
  targets cols !! (sum_list (take s (map length cols)) + o) = Some s.
Proof.
  intros Ho. unfold targets.
  assert (map length cols
          = map length (imap (fun r row => replicate (length row) r) cols)) as ->.
  { apply list_eq. intros r. rewrite !list_lookup_fmap, list_lookup_imap.
    destruct (cols !! r); simpl; [|done]. by rewrite length_replicate. }
  apply lookup_concat_offset. unfold getrow in *. rewrite list_lookup_imap.
  destruct (cols !! s) as [row|]; simpl in *; [|lia].
  by apply lookup_replicate_2.
Qed.

Lemma lookup_sources cols s o k :
  getrow cols s !! o = Some k ->
  concat cols !! (sum_list (take s (map length cols)) + o) = Some k.
Proof. apply lookup_concat_offset. Qed.

Lemma edge_numbers cols s :
  map snd (getrow (number_from 0 cols) s)
  = seq (sum_list (take s (map length cols))) (length (getrow cols s)).
Proof. rewrite getrow_number_from. simpl. apply snd_zip. by rewrite length_seq. Qed.

Lemma cand_j_segments cols :
  cand_j cols = concat (map (fun s => replicate (length (getrow cols s)) s) (concat cols)).
Proof.
  unfold cand_j, triplet_counts. rewrite repeat_each_concat. f_equal.
  induction (concat cols) as [|s l IH]; simpl; [done|]. by rewrite IH.
Qed.

(** [id_expand_kj] before filtering: the target of the edge is [j]. *)
Lemma cand_expand_target cols :
  Forall2 (fun j x => targets cols !! x = Some j) (cand_j cols) (cand_expand cols).
Proof.
  rewrite cand_j_segments. unfold cand_expand.
  apply Forall2_concat_segments, Forall2_fmap, Forall_Forall2_diag, Forall_forall.
  intros s _. rewrite edge_numbers.
  apply Forall2_replicate_l; [by rewrite length_seq|].
  apply Forall_seq. intros x Hx.
  replace x with (sum_list (take s (map length cols))
                  + (x - sum_list (take s (map length cols)))) by lia.
  apply lookup_targets. lia.
Qed.

(** [id_expand_kj] before filtering: the source of the edge is [k]. *)
Lemma cand_expand_source cols :
  Forall2 (fun k x => concat cols !! x = Some k) (cand_k cols) (cand_expand cols).
Proof.
  unfold cand_k, cand_expand.
  apply Forall2_concat_segments, Forall2_fmap, Forall_Forall2_diag, Forall_forall.
  intros s _. rewrite edge_numbers.
  apply Forall2_same_length_lookup_2; [by rewrite length_seq|].
  intros o k x Hk [-> _]%lookup_seq. by apply lookup_sources.
Qed.

(** [id_reduce_ji] before filtering: the edge is [(i <- j)]. *)
Lemma cand_reduce_target cols :
  Forall2 (fun i r => targets cols !! r = Some i) (cand_i cols) (cand_reduce cols).
Proof.
  unfold cand_i, cand_reduce, triplet_counts. rewrite repeat_each_concat.
  apply Forall2_concat_segments, Forall2_same_length_lookup_2.
  - rewrite length_zip_with, length_imap, length_map.
    rewrite targets_length, length_concat_sum. lia.
  - intros e seg1 seg2.
    rewrite lookup_zip_with_Some, list_lookup_imap.
    intros (t & c & -> & Ht & Hc) Hseg2.
    rewrite list_lookup_fmap in Hc.
    destruct (concat cols !! e) as [s|]; simplify_eq/=.
    by apply Forall2_replicate.
Qed.

Lemma cand_reduce_source cols :
  Forall2 (fun j r => concat cols !! r = Some j) (cand_j cols) (cand_reduce cols).
Proof.
  rewrite cand_j_segments. unfold cand_reduce.
  apply Forall2_concat_segments, Forall2_same_length_lookup_2.
  - by rewrite length_imap, length_map.
  - intros e seg1 seg2. rewrite list_lookup_fmap, list_lookup_imap.
    destruct (concat cols !! e) as [s|] eqn:Hs; intros; simplify_eq/=.
    by apply Forall2_replicate.
Qed.

Lemma cand_triplet_edges cols :
  Forall2 (fun i k => i <> k)
          (np.compress (keep cols) (cand_i cols)) (np.compress (keep cols) (cand_k cols)).
Proof. apply compress_not_equal. Qed.

End references.

(** ** [_bmat_fast] on matrices given by rows *)

Section bmat.
Context {A : Type}.
Implicit Types (b : list (list (nat * A)) * nat) (bl : list (list (list (nat * A)) * nat)).

Lemma block_rows_snd off (blocks : list (list (list (nat * A)))) :
  concat (map (map snd) (block_rows off blocks))
  = concat (map (fun rows => concat (map (map snd) rows)) blocks).
Proof.
  revert off. induction blocks as [|rows blocks IH]; intros off; simpl; [done|].
  rewrite fmap_app, concat_app, IH. f_equal. f_equal.
  rewrite <- list_fmap_compose. apply list_fmap_ext. intros _ row _. simpl.
  rewrite <- list_fmap_compose. apply list_fmap_ext. by intros _ [c v] _.
Qed.

Lemma block_rows_length off (blocks : list (list (list (nat * A)))) :
  map length (block_rows off blocks) = concat (map (map length) blocks).
Proof.
  revert off. induction blocks as [|rows blocks IH]; intros off; simpl; [done|].
  rewrite fmap_app, IH. f_equal. apply map_length_map.
Qed.

Lemma shift_indices off (rows : list (list (nat * A))) :
  map (fun c => c + off) (concat (map (map fst) rows))
  = concat (map (map fst) (map (map (fun '(c, v) => (c + off, v))) rows)).
Proof.
  induction rows as [|row rows IH]; [done|].
  cbn [map fmap list_fmap concat]. rewrite fmap_app. f_equal; [|apply IH].
  rewrite <- !list_fmap_compose. apply list_fmap_ext. by intros _ [c v] _.
Qed.

Lemma bmat_data bl :
  concat (map sp.data (map block_matrix bl))
  = concat (map (map snd) (block_rows 0 (map fst bl))).
Proof.
  rewrite block_rows_snd. f_equal. rewrite <- !list_fmap_compose. done.
Qed.

Lemma bmat_indices acc bl :
  concat (imap (fun i mat =>
                  map (fun c => c + nth i (acc :: np.cumsum_from acc
                         (map (fun mat => fst (sp.shape mat)) (map block_matrix bl))) 0)
                      (sp.indices mat))
               (map block_matrix bl))
  = concat (map (map fst) (block_rows acc (map fst bl))).
Proof.
  revert acc. induction bl as [|[rows n] bl IH]; intros acc; [done|].
  cbn [map fmap list_fmap block_rows]. rewrite imap_cons, fmap_app, !concat_app.
  cbn [concat]. f_equal.
  - cbn [nth block_matrix fst snd of_rows sp.indices]. apply shift_indices.
  - rewrite <- IH. reflexivity.
Qed.

Lemma bmat_indptr_tail acc bl :
  concat (imap (fun i mat =>
                  map (fun p => p + nth i (acc :: np.cumsum_from acc
                         (map sp.nnz (map block_matrix bl))) 0)
                      (drop 1 (sp.indptr mat)))
               (map block_matrix bl))
  = np.cumsum_from acc (concat (map (map length) (map fst bl))).
Proof.
  revert acc. induction bl as [|[rows n] bl IH]; intros acc; [done|].
  cbn [map fmap list_fmap]. rewrite imap_cons. cbn [concat].
  rewrite cumsum_from_app. f_equal.
  - cbn [nth block_matrix fst snd of_rows sp.indptr drop]. unfold np.cumsum.
    rewrite drop_0, cumsum_from_shift. done.
  - rewrite <- IH. f_equal. apply imap_ext. intros i mat _.
    cbn [compose]. f_equal.
    unfold block_matrix at 1. cbn [fst snd np.cumsum_from nth].
    by rewrite (nnz_of_rows rows n).
Qed.

Lemma bmat_indptr bl :
  bl <> [] ->
  concat (imap (fun i mat =>
                  map (fun p => p + nth i (0 :: np.cumsum (map sp.nnz (map block_matrix bl))) 0)
                      (drop (if bool_decide (1 <= i) then 1 else 0) (sp.indptr mat)))
               (map block_matrix bl))
  = 0 :: np.cumsum (concat (map (map length) (map fst bl))).
Proof.
  destruct bl as [|[rows n] bl]; [done|]. intros _.
  cbn [map fmap list_fmap]. rewrite imap_cons. cbn [concat].
  unfold np.cumsum. rewrite cumsum_from_app.
  cbn [nth block_matrix fst snd of_rows sp.indptr drop bool_decide].
  rewrite bool_decide_eq_false_2 by lia. cbn [drop].
  assert (forall l : list nat, map (fun p => p + 0) l = l) as Hid.
  { intros l. rewrite <- (list_fmap_id l) at 2. apply list_fmap_ext. intros; simpl; lia. }
  rewrite Hid. unfold np.cumsum. cbn [app]. f_equal. f_equal.
  rewrite <- bmat_indptr_tail. f_equal. apply imap_ext. intros i mat _.
  cbn [compose]. rewrite bool_decide_eq_true_2 by lia.
  f_equal.
  unfold block_matrix at 1. cbn [fst snd np.cumsum_from].
  by rewrite (nnz_of_rows rows n).
Qed.

(** [_bmat_fast] in terms of rows. *)
Lemma bmat_fast_rows bl :
  _bmat_fast (map block_matrix bl) = bmat_rows (map fst bl).
Proof.
  destruct (decide (bl = [])) as [->|Hne]; [done|].
  unfold _bmat_fast, bmat_rows.
  assert (forall {B : Type} (f : _ -> list B),
            np.concatenate (map f (map block_matrix bl))
            = Ok (concat (map f (map block_matrix bl)))) as Hcat1.
  { intros B f. destruct bl; done. }
  assert (forall {B : Type} (f : nat -> _ -> list B),
            np.concatenate (imap f (map block_matrix bl))
            = Ok (concat (imap f (map block_matrix bl)))) as Hcat2.
  { intros B f. destruct bl; done. }
  rewrite Hcat1. cbn [mbind result_bind].
  rewrite Hcat2. cbn [mbind result_bind].
  rewrite Hcat2. cbn [mbind result_bind].
  rewrite bmat_data. unfold np.cumsum at 1. rewrite bmat_indices.
  rewrite bmat_indptr by done.
  rewrite <- (block_rows_length 0).
  set (rows := block_rows 0 (map fst bl)).
  unfold sp.from_arrays, sp.infer_shape.
  destruct (concat (map (map fst) rows)) as [|c cs] eqn:Hidx; [done|].
  cbn [mbind result_bind fst length].
  unfold np.cumsum. rewrite cumsum_from_length, length_map.
  replace (S (length rows) - 1) with (length rows) by lia.
  assert (S (length cs) = sum_list (map length rows)) as Hlen.
  { change (S (length cs)) with (length (c :: cs)).
    by rewrite <- Hidx, length_concat_sum, map_length_map. }
  rewrite last_offsets, length_concat_sum, map_length_map, Hlen. cbn [Nat.add head].
  rewrite !bool_decide_eq_true_2 by done. cbn [negb].
  f_equal. unfold of_rows. rewrite <- Hidx. f_equal.
  - apply firstn_all2. by rewrite length_concat_sum, map_length_map.
  - apply firstn_all2. by rewrite length_concat_sum, map_length_map.
Qed.

End bmat.

(** ** The adjacency matrix of a structure *)

Section adjacency.
Implicit Types (d : list (list bool)) (cols : list (list nat)).

Lemma of_dense_cols d :
  sp.of_dense d = of_cols (map np.nonzero d) (snd (sp.dense_shape d)).
Proof.
  unfold sp.of_dense. symmetry.
  assert (of_cols (map np.nonzero d) (sp.dense_shape d).2
          = sp.CSR (sp.data (of_cols (map np.nonzero d) (sp.dense_shape d).2))
                   (sp.indices (of_cols (map np.nonzero d) (sp.dense_shape d).2))
                   (0 :: np.cumsum (map length (map np.nonzero d)))
                   (length d, (sp.dense_shape d).2)) as ->.
  { unfold of_cols, of_rows. cbn [sp.data sp.indices].
    by rewrite map_length_map, !length_map. }
  rewrite of_cols_data, of_cols_indices, length_concat_sum. done.
Qed.

(** Entry [(r, c)] of a matrix given by columns. *)
Lemma get_of_cols cols n r c :
  sp.get (of_cols cols n) r c = bool_decide (c ∈ getrow cols r).
Proof.
  unfold sp.get, of_cols. rewrite row_indices_of_rows, row_data_of_rows.
  rewrite zip_fst_snd, getrow_map.
  induction (getrow cols r) as [|c' l IH]; [done|].
  cbn [map fmap list_fmap existsb].
  - rewrite IH, andb_true_r. destruct (Nat.eqb_spec c' c) as [->|Hne]; simpl.
    + symmetry. apply bool_decide_eq_true_2. by left.
    + apply bool_decide_ext. rewrite elem_of_cons. intuition congruence.
Qed.

Lemma row_of_nonzero (row : list bool) :
  map (fun c => bool_decide (c ∈ np.nonzero row)) (seq 0 (length row)) = row.
Proof.
  apply list_eq. intros c. rewrite list_lookup_fmap.
  destruct (decide (c < length row)) as [Hc|Hc].
  - rewrite lookup_seq_lt by done. simpl.
    destruct (lookup_lt_is_Some_2 row c Hc) as [b Hb]. rewrite Hb. f_equal.
    unfold np.nonzero. destruct b.
    + apply bool_decide_eq_true_2, lookup_nonzero_from. rewrite Nat.sub_0_r.
      split; [lia | done].
    + apply bool_decide_eq_false_2. rewrite lookup_nonzero_from, Nat.sub_0_r.
      rewrite Hb. intros [_ [=]].
  - rewrite lookup_seq_ge, lookup_ge_None_2 by lia. done.
Qed.

(** A rectangular boolean array is recovered from its CSR form. *)
Lemma todense_of_dense d :
  Forall (fun row => length row = snd (sp.dense_shape d)) d ->
  sp.todense (sp.of_dense d) = d.
Proof.
  intros Hrect. rewrite of_dense_cols. unfold sp.todense.
  change (sp.shape (of_cols (map np.nonzero d) (sp.dense_shape d).2))
    with (length (map (map (fun c : nat => (c, true))) (map np.nonzero d)),
          (sp.dense_shape d).2).
  cbn [fst snd]. rewrite !length_map.
  transitivity (map id d); [|apply list_fmap_id].
  rewrite <- (map_getrow_seq id d).
  apply list_fmap_ext. intros i r Hr. cbn [id].
  destruct (d !! r) as [row|] eqn:Hrow.
  - assert (getrow d r = row) as -> by (by unfold getrow; rewrite Hrow).
    rewrite <- (proj1 (Forall_lookup _ _) Hrect r row Hrow).
    etransitivity; [|apply (row_of_nonzero row)].
    apply list_fmap_ext. intros _ c _.
    rewrite get_of_cols. unfold getrow. by rewrite list_lookup_fmap, Hrow.
  - apply lookup_seq in Hr as [-> Hr]. apply lookup_ge_None in Hrow. cbn in Hrow. lia.
Qed.

Lemma dense_shape_within cutoff R :
  sp.dense_shape (within_matrix cutoff R) = (length R, length R).
Proof.
  unfold within_matrix, sp.dense_shape. rewrite length_map.
  destruct R as [|p R]; [done|]. simpl. by rewrite length_map.
Qed.

Lemma dense_shape_identity n : sp.dense_shape (identity_matrix n) = (n, n).
Proof.
  unfold identity_matrix, sp.dense_shape. rewrite length_map, length_seq.
  destruct n as [|n]; [done|]. simpl. by rewrite length_map, length_seq.
Qed.

Lemma within_matrix_rect cutoff R :
  Forall (fun row => length row = snd (sp.dense_shape (within_matrix cutoff R)))
         (within_matrix cutoff R).
Proof.
  rewrite dense_shape_within. unfold within_matrix.
  apply Forall_forall. intros row (q & -> & _)%list_elem_of_fmap.
  cbn [snd]. by rewrite length_map.
Qed.

Lemma identity_matrix_rect n :
  Forall (fun row => length row = snd (sp.dense_shape (identity_matrix n)))
         (identity_matrix n).
Proof.
  rewrite dense_shape_identity. unfold identity_matrix.
  apply Forall_forall. intros row (q & -> & _)%list_elem_of_fmap.
  cbn [snd]. by rewrite length_map, length_seq.
Qed.

(** The difference of two boolean arrays in CSR form. *)
Lemma sub_of_dense d1 d2 :
  Forall (fun row => length row = snd (sp.dense_shape d1)) d1 ->
  Forall (fun row => length row = snd (sp.dense_shape d2)) d2 ->
  sp.sub (sp.of_dense d1) (sp.of_dense d2)
  = if decide (sp.dense_shape d1 = sp.dense_shape d2)
    then Ok (of_cols (map np.nonzero (zip_with (zip_with sp.bool_minus) d1 d2))
                     (snd (sp.dense_shape d1)))
    else Raise ValueError.
Proof.
  intros H1 H2. unfold sp.sub.
  change (sp.shape (sp.of_dense d1)) with (sp.dense_shape d1).
  change (sp.shape (sp.of_dense d2)) with (sp.dense_shape d2).
  rewrite !todense_of_dense by done.
  destruct (decide _) as [Hs|]; [|done]. f_equal.
  rewrite of_dense_cols. unfold of_cols, of_rows. cbn [sp.data sp.indices sp.indptr].
  f_equal. rewrite !length_map, length_zip_with.
  unfold sp.dense_shape in *. injection Hs as Hs _. rewrite <- Hs.
  cbn [fst snd]. f_equal. lia.
Qed.

(** The adjacency matrix of an example, when it can be built, is given
    by [neighbours]; it can be built when there are as many atomic
    numbers as positions. *)
Lemma adjacency_cols cutoff e m :
  adjacency cutoff e = Ok m ->
  m = of_cols (neighbours cutoff (positions e)) (length (positions e)).
Proof.
  unfold adjacency, positions.
  destruct (dict_get "R" e) as [[R| | | | |]|]; cbn [of_option mbind result_bind coords];
    try done.
  destruct (dict_get "Z" e) as [Z|]; cbn [of_option mbind result_bind]; [|done].
  destruct (len Z) as [n|]; cbn [mbind result_bind]; [|done].
  fold (within_matrix cutoff R). unfold sp.eye. fold (identity_matrix n).
  rewrite sub_of_dense by auto using within_matrix_rect, identity_matrix_rect.
  rewrite dense_shape_within, dense_shape_identity.
  destruct (decide _) as [Hs|]; [|done]. injection Hs as Hs.
  rewrite <- Hs. by intros [= <-].
Qed.

Lemma adjacency_len cutoff e m :
  adjacency cutoff e = Ok m ->
  exists Z, dict_get "Z" e = Some Z /\ len Z = Ok (length (positions e)).
Proof.
  unfold adjacency, positions.
  destruct (dict_get "R" e) as [[R| | | | |]|]; cbn [of_option mbind result_bind coords];
    try done.
  destruct (dict_get "Z" e) as [Z|]; cbn [of_option mbind result_bind]; [|done].
  destruct (len Z) as [n|] eqn:Hn; cbn [mbind result_bind]; [|done].
  fold (within_matrix cutoff R). unfold sp.eye. fold (identity_matrix n).
  rewrite sub_of_dense by auto using within_matrix_rect, identity_matrix_rect.
  rewrite dense_shape_within, dense_shape_identity.
  destruct (decide _) as [Hs|]; [|done]. injection Hs as Hs. intros _.
  exists Z. by rewrite Hn, Hs.
Qed.

End adjacency.

(** ** From the examples to the index arrays *)

Section batch.
Implicit Types (cutoff : Q) (examples : list (dict value)).

Lemma mapM_adjacency cutoff examples mats :
  mapM (adjacency cutoff) examples = Ok mats ->
  mats = map (fun e => of_cols (neighbours cutoff (positions e)) (length (positions e)))
             examples.
Proof.
  revert mats. induction examples as [|e examples IH]; intros mats; simpl.
  - by intros [= <-].
  - destruct (adjacency cutoff e) as [m|] eqn:Hm; cbn [mbind result_bind]; [|done].
    destruct (mapM (adjacency cutoff) examples) as [ms|]; cbn [mbind result_bind]; [|done].
    intros [= <-]. f_equal; [by apply adjacency_cols | by apply IH].
Qed.

Lemma block_rows_cols off (blocks : list (list (list nat))) :
  block_rows off (map (map (map (fun c => (c, true)))) blocks)
  = map (map (fun c => (c, true))) (block_cols off blocks).
Proof.
  revert off. induction blocks as [|b blocks IH]; intros off; [done|].
  cbn [map fmap list_fmap block_rows block_cols].
  rewrite fmap_app, length_map. f_equal; [|apply IH].
  rewrite <- !list_fmap_compose. apply list_fmap_ext. intros _ row _. cbn [compose].
  rewrite <- !list_fmap_compose. done.
Qed.

Lemma bmat_fast_cols (blocks : list (list (list nat) * nat)) :
  _bmat_fast (map (fun b => of_cols b.1 b.2) blocks)
  = match concat (block_cols 0 (map fst blocks)) with
    | [] => Raise ValueError
    | c :: cs => Ok (of_cols (block_cols 0 (map fst blocks)) (S (max_list (c :: cs))))
    end.
Proof.
  assert (map (fun b => of_cols b.1 b.2) blocks
          = map block_matrix
                (map (fun b => (map (map (fun c => (c, true))) b.1, b.2)) blocks)) as ->.
  { by rewrite <- list_fmap_compose. }
  rewrite bmat_fast_rows. unfold bmat_rows.
  assert (map fst (map (fun b : list (list nat) * nat =>
                          (map (map (fun c => (c, true))) b.1, b.2)) blocks)
          = map (map (map (fun c => (c, true)))) (map fst blocks)) as ->.
  { by rewrite <- !list_fmap_compose. }
  rewrite block_rows_cols.
  pose proof (of_cols_indices (block_cols 0 (map fst blocks)) 0) as Hidx.
  unfold of_cols, of_rows in Hidx. cbn [sp.indices] in Hidx. rewrite Hidx.
  by destruct (concat (block_cols 0 (map fst blocks))).
Qed.

(** The index arrays of a batch that can be assembled are those of the
    block-diagonal adjacency matrix. *)
Lemma batch_graph_cols cutoff examples g :
  batch_graph cutoff examples = Ok g ->
  g = graph_of_cols (batch_cols cutoff examples).
Proof.
  unfold batch_graph, batch_cols.
  destruct (mapM (adjacency cutoff) examples) as [mats|] eqn:Hmats;
    cbn [mbind result_bind]; [|done].
  apply mapM_adjacency in Hmats as ->.
  assert (map (fun e => of_cols (neighbours cutoff (positions e)) (length (positions e)))
              examples
          = map (fun b => of_cols b.1 b.2)
                (map (fun e => (neighbours cutoff (positions e), length (positions e)))
                     examples)) as ->.
  { by rewrite <- list_fmap_compose. }
  rewrite bmat_fast_cols.
  assert (map fst (map (fun e => (neighbours cutoff (positions e), length (positions e)))
                       examples)
          = map (fun e => neighbours cutoff (positions e)) examples) as ->.
  { by rewrite <- list_fmap_compose. }
  destruct (concat _) as [|c cs]; cbn [mbind result_bind]; [done|].
  rewrite edges_and_triplets_of_cols.
  destruct (forallb _ _); [|done]. by intros [= <-].
Qed.

End batch.

(** ** Dictionaries *)

Section dictionaries.
Context {V : Type}.
Implicit Types (d : dict V) (k : string).

Lemma dict_get_set_eq k v d : dict_get k (dict_set k v d) = Some v.
Proof.
  induction d as [|[k' v'] d IH]; simpl.
  - by rewrite String.eqb_refl.
  - destruct (String.eqb_spec k k') as [->|Hne]; simpl.
    + by rewrite String.eqb_refl.
    + destruct (String.eqb_spec k k'); [done | apply IH].
Qed.

Lemma dict_get_set_ne k k' v d : k <> k' -> dict_get k (dict_set k' v d) = dict_get k d.
Proof.
  intros Hne. induction d as [|[k'' v''] d IH]; simpl.
  - by destruct (String.eqb_spec k k').
  - destruct (String.eqb_spec k' k'') as [->|Hne']; simpl.
    + destruct (String.eqb_spec k k''); [done|]. done.
    + destruct (String.eqb_spec k k''); [done | apply IH].
Qed.

Lemma dict_get_set k k' v d :
  dict_get k (dict_set k' v d) = if String.eqb k k' then Some v else dict_get k d.
Proof.
  destruct (String.eqb_spec k k') as [->|Hne].
  - apply dict_get_set_eq.
  - by apply dict_get_set_ne.
Qed.

(** The last line of [__call__]: every field but ['name'] is converted. *)
Lemma dict_get_converted {T : Type} (f : V -> T) k d :
  k <> "name"%string ->
  dict_get k (omap (fun '(k, v) => if String.eqb k "name" then None else Some (k, f v)) d)
  = f <$> dict_get k d.
Proof.
  intros Hne. induction d as [|[k' v'] d IH]; simpl; [done|].
  destruct (String.eqb_spec k' "name") as [->|Hne'].
  - destruct (String.eqb_spec k "name"); [done | apply IH].
  - simpl. destruct (String.eqb_spec k k'); [done | apply IH].
Qed.

End dictionaries.

(** ** The collate function *)

Section call.
Context {T : Type}.
Implicit Types (self : AtomsCollate T) (examples : list loc) (w : world) (out : dict T).

Lemma restore_shape_result data w r w1 :
  _restore_shape data w = (Ok r, w1) -> r = data.
Proof.
  unfold _restore_shape, mbind, M_bind, bindM, mret, M_ret, retM.
  destruct (forM_ data _ w) as [[[]|] w2]; by intros [= <- _].
Qed.

(** A call that returns a batch has collated the examples as they are
    in the heap afterwards. *)
Lemma call_collate self examples w out w' :
  __call__ self examples w = (Ok out, w') ->
  collate self (map (fun e => deref e w') examples) = Ok out.
Proof.
  unfold __call__. unfold mbind at 1, M_bind at 1, bindM at 1.
  destruct (_restore_shape examples w) as [[r|] w1] eqn:Hr; [|done].
  apply restore_shape_result in Hr as ->.
  unfold mbind at 1, M_bind at 1, bindM at 1.
  destruct (augment self examples w1) as [[[]|] w2]; [|done].
  unfold mbind, M_bind, bindM, the_world, liftM. by intros [= Hout <-].
Qed.

Lemma collate_carries self (exs : list (dict value)) out :
  collate self exs = Ok out ->
  exists g, batch_graph (cutoff self) exs = Ok g /\ carries self out g.
Proof.
  unfold collate.
  destruct (concat_fields exs) as [data|]; cbn [mbind result_bind]; [|done].
  destruct (batch_graph (cutoff self) exs) as [g|]; cbn [mbind result_bind]; [|done].
  destruct (mapM _ exs) as [N|]; cbn [mbind result_bind]; [|done].
  destruct (np.repeat _ N) as [seg|]; cbn [mbind result_bind]; [|done].
  intros [= <-]. exists g. split; [done|].
  unfold carries.
  repeat split; rewrite dict_get_converted by done; rewrite !dict_get_set; reflexivity.
Qed.

(** The index arrays of an assembled batch. *)
Lemma call_graph self examples w out w' :
  __call__ self examples w = (Ok out, w') ->
  exists g, carries self out g
            /\ g = graph_of_cols (batch_cols (cutoff self)
                                             (map (fun e => deref e w') examples)).
Proof.
  intros Hcall%call_collate. apply collate_carries in Hcall as (g & Hg & Hout).
  exists g. split; [done|]. by apply batch_graph_cols.
Qed.

End call.

(** ** Properties of the index arrays *)

Section graph_properties.
Implicit Types (cols : list (list nat)).

Lemma triplet_lengths cols :
  let g := graph_of_cols cols in
  length (id3dnb_j g) = length (id3dnb_i g) /\
  length (id3dnb_k g) = length (id3dnb_i g) /\
  length (id_expand_kj g) = length (id3dnb_i g) /\
  length (id_reduce_ji g) = length (id3dnb_i g).
Proof.
  cbn.
  pose proof (Forall2_length _ _ _ (Forall2_compress _ (keep cols) _ _ (cand_reduce_target cols))).
  pose proof (Forall2_length _ _ _ (Forall2_compress _ (keep cols) _ _ (cand_reduce_source cols))).
  pose proof (Forall2_length _ _ _ (Forall2_compress _ (keep cols) _ _ (cand_expand_target cols))).
  pose proof (Forall2_length _ _ _ (Forall2_compress _ (keep cols) _ _ (cand_expand_source cols))).
  lia.
Qed.

Lemma expand_kj_edge cols t e j k :
  let g := graph_of_cols cols in
  id_expand_kj g !! t = Some e -> id3dnb_j g !! t = Some j -> id3dnb_k g !! t = Some k ->
  idnb_i g !! e = Some j /\ idnb_j g !! e = Some k.
Proof.
  cbn. intros He Hj Hk. split.
  - exact (Forall2_lookup_lr _ _ _ t j e
             (Forall2_compress _ (keep cols) _ _ (cand_expand_target cols)) Hj He).
  - exact (Forall2_lookup_lr _ _ _ t k e
             (Forall2_compress _ (keep cols) _ _ (cand_expand_source cols)) Hk He).
Qed.

Lemma reduce_ji_edge cols t r i j :
  let g := graph_of_cols cols in
  id_reduce_ji g !! t = Some r -> id3dnb_i g !! t = Some i -> id3dnb_j g !! t = Some j ->
  idnb_i g !! r = Some i /\ idnb_j g !! r = Some j.
Proof.
  cbn. intros Hr Hi Hj. split.
  - exact (Forall2_lookup_lr _ _ _ t i r
             (Forall2_compress _ (keep cols) _ _ (cand_reduce_target cols)) Hi Hr).
  - exact (Forall2_lookup_lr _ _ _ t j r
             (Forall2_compress _ (keep cols) _ _ (cand_reduce_source cols)) Hj Hr).
Qed.

Lemma triplet_ends_differ cols t i k :
  let g := graph_of_cols cols in
  id3dnb_i g !! t = Some i -> id3dnb_k g !! t = Some k -> k <> i.
Proof.
  cbn. intros Hi Hk Heq.
  by apply (Forall2_lookup_lr _ _ _ t i k (cand_triplet_edges cols) Hi Hk).
Qed.

End graph_properties.

Section triplet_entries.
Implicit Types (cols : list (list nat)).

(** Entry [t] of the five triplet arrays, with what its two edge
    references point to. *)
Lemma triplet_entry cols t :
  let g := graph_of_cols cols in
  t < length (id3dnb_i g) ->
  exists i j k e r,
    id3dnb_i g !! t = Some i /\ id3dnb_j g !! t = Some j /\ id3dnb_k g !! t = Some k /\
    id_expand_kj g !! t = Some e /\ id_reduce_ji g !! t = Some r /\
    idnb_i g !! e = Some j /\ idnb_j g !! e = Some k /\
    idnb_i g !! r = Some i /\ idnb_j g !! r = Some j /\
    k <> i.
Proof.
  intros g Ht. destruct (triplet_lengths cols) as (Hj & Hk & He & Hr). fold g in Hj, Hk, He, Hr.
  destruct (lookup_lt_is_Some_2 (id3dnb_i g) t Ht) as [i Hi].
  destruct (lookup_lt_is_Some_2 (id3dnb_j g) t ltac:(lia)) as [j Hjt].
  destruct (lookup_lt_is_Some_2 (id3dnb_k g) t ltac:(lia)) as [k Hkt].
  destruct (lookup_lt_is_Some_2 (id_expand_kj g) t ltac:(lia)) as [e Het].
  destruct (lookup_lt_is_Some_2 (id_reduce_ji g) t ltac:(lia)) as [r Hrt].
  exists i, j, k, e, r.
  destruct (expand_kj_edge cols t e j k Het Hjt Hkt).
  destruct (reduce_ji_edge cols t r i j Hrt Hi Hjt).
  pose proof (triplet_ends_differ cols t i k Hi Hkt).
  by repeat split.
Qed.

End triplet_entries.

Lemma triangle_assembled :
  __call__ (plain 2) [0] (sample_world [triangle]) = (Ok triangle_batch, triangle_call.2).
Proof. vm_compute. reflexivity. Qed.

(** ** The claims about edge and triplet indices *)

(** C2.  In every assembled batch, [id_expand_kj] is parallel to the
    triplet arrays, and for every surviving triplet [t] the entry
    [id_expand_kj[t]] is a valid edge number whose edge has the triplet's
    middle atom as target ([idnb_i[id_expand_kj[t]] = id3dnb_j[t]]) and the
    triplet's outer-most atom as source
    ([idnb_j[id_expand_kj[t]] = id3dnb_k[t]]). *)
Theorem id_expand_kj_is_inner_edge {T : Type} (self : AtomsCollate T)
    (examples : list loc) (w w' : world) (out : dict T) :
  __call__ self examples w = (Ok out, w') ->
  exists g, carries self out g /\
    length (id3dnb_j g) = length (id_expand_kj g) /\
    length (id3dnb_k g) = length (id_expand_kj g) /\
    forall t, t < length (id_expand_kj g) ->
      exists e j k,
        id_expand_kj g !! t = Some e /\ id3dnb_j g !! t = Some j /\
        id3dnb_k g !! t = Some k /\
        e < length (idnb_i g) /\ idnb_i g !! e = Some j /\ idnb_j g !! e = Some k.
Proof.
  intros (g & Hout & ->)%call_graph. eexists. split; [exact Hout|].
  set (cols := batch_cols _ _).
  destruct (triplet_lengths cols) as (Hj & Hk & He & Hr).
  split; [lia|]. split; [lia|]. intros t Ht.
  destruct (triplet_entry cols t ltac:(lia))
    as (i & j & k & e & r & Hi & Hjt & Hkt & Het & Hrt & H1 & H2 & H3 & H4 & Hne).
  exists e, j, k. repeat split; try done. by apply lookup_lt_Some in H1.
Qed.

Lemma id_expand_kj_is_inner_edge_witness :
  exists g, carries (plain 2) triangle_batch g /\
    length (id3dnb_j g) = length (id_expand_kj g) /\
    length (id3dnb_k g) = length (id_expand_kj g) /\
    forall t, t < length (id_expand_kj g) ->
      exists e j k,
        id_expand_kj g !! t = Some e /\ id3dnb_j g !! t = Some j /\
        id3dnb_k g !! t = Some k /\
        e < length (idnb_i g) /\ idnb_i g !! e = Some j /\ idnb_j g !! e = Some k.
Proof.
  apply (id_expand_kj_is_inner_edge (plain 2) [0] (sample_world [triangle])
                                    triangle_call.2 triangle_batch).
  vm_compute. reflexivity.
Defined.

(** C4.  In every assembled batch the three triplet arrays have one
    length, and entry [t] describes one path [k -> j -> i]: the edges
    [(j <- k)] and [(i <- j)] are edges of the batch, and [k] differs from
    [i]. *)
Theorem triplets_are_paths {T : Type} (self : AtomsCollate T)
    (examples : list loc) (w w' : world) (out : dict T) :
  __call__ self examples w = (Ok out, w') ->
  exists g, carries self out g /\
    length (id3dnb_j g) = length (id3dnb_i g) /\
    length (id3dnb_k g) = length (id3dnb_i g) /\
    forall t, t < length (id3dnb_i g) ->
      exists i j k,
        id3dnb_i g !! t = Some i /\ id3dnb_j g !! t = Some j /\ id3dnb_k g !! t = Some k /\
        k <> i /\
        (exists e, idnb_i g !! e = Some j /\ idnb_j g !! e = Some k) /\
        (exists e, idnb_i g !! e = Some i /\ idnb_j g !! e = Some j).
Proof.
  intros (g & Hout & ->)%call_graph. eexists. split; [exact Hout|].
  set (cols := batch_cols _ _).
  destruct (triplet_lengths cols) as (Hj & Hk & He & Hr).
  split; [lia|]. split; [lia|]. intros t Ht.
  destruct (triplet_entry cols t Ht)
    as (i & j & k & e & r & Hi & Hjt & Hkt & Het & Hrt & H1 & H2 & H3 & H4 & Hne).
  exists i, j, k. repeat split; eauto.
Qed.

Lemma triplets_are_paths_witness :
  exists g, carries (plain 2) triangle_batch g /\
    length (id3dnb_j g) = length (id3dnb_i g) /\
    length (id3dnb_k g) = length (id3dnb_i g) /\
    forall t, t < length (id3dnb_i g) ->
      exists i j k,
        id3dnb_i g !! t = Some i /\ id3dnb_j g !! t = Some j /\ id3dnb_k g !! t = Some k /\
        k <> i /\
        (exists e, idnb_i g !! e = Some j /\ idnb_j g !! e = Some k) /\
        (exists e, idnb_i g !! e = Some i /\ idnb_j g !! e = Some j).
Proof.
  apply (triplets_are_paths (plain 2) [0] (sample_world [triangle])
                            triangle_call.2 triangle_batch).
  vm_compute. reflexivity.
Defined.

(** C1, as the code has it.  In every assembled batch, [id_reduce_ji] is
    parallel to the triplet arrays, and for every surviving triplet [t]
    the entry [id_reduce_ji[t]] is the number of the triplet's outer edge
    [(i <- j)] in the edge numbering of the batch:
    [idnb_i[id_reduce_ji[t]] = id3dnb_i[t]] and
    [idnb_j[id_reduce_ji[t]] = id3dnb_j[t]]. *)
Theorem id_reduce_ji_is_outer_edge {T : Type} (self : AtomsCollate T)
    (examples : list loc) (w w' : world) (out : dict T) :
  __call__ self examples w = (Ok out, w') ->
  exists g, carries self out g /\
    length (id3dnb_i g) = length (id_reduce_ji g) /\
    length (id3dnb_j g) = length (id_reduce_ji g) /\
    forall t, t < length (id_reduce_ji g) ->
      exists r i j,
        id_reduce_ji g !! t = Some r /\ id3dnb_i g !! t = Some i /\
        id3dnb_j g !! t = Some j /\
        r < length (idnb_i g) /\ idnb_i g !! r = Some i /\ idnb_j g !! r = Some j.
Proof.
  intros (g & Hout & ->)%call_graph. eexists. split; [exact Hout|].
  set (cols := batch_cols _ _).
  destruct (triplet_lengths cols) as (Hj & Hk & He & Hr).
  split; [lia|]. split; [lia|]. intros t Ht.
  destruct (triplet_entry cols t ltac:(lia))
    as (i & j & k & e & r & Hi & Hjt & Hkt & Het & Hrt & H1 & H2 & H3 & H4 & Hne).
  exists r, i, j. repeat split; try done. by apply lookup_lt_Some in H3.
Qed.

Lemma id_reduce_ji_is_outer_edge_witness :
  exists g, carries (plain 2) triangle_batch g /\
    length (id3dnb_i g) = length (id_reduce_ji g) /\
    length (id3dnb_j g) = length (id_reduce_ji g) /\
    forall t, t < length (id_reduce_ji g) ->
      exists r i j,
        id_reduce_ji g !! t = Some r /\ id3dnb_i g !! t = Some i /\
        id3dnb_j g !! t = Some j /\
        r < length (idnb_i g) /\ idnb_i g !! r = Some i /\ idnb_j g !! r = Some j.
Proof.
  apply (id_reduce_ji_is_outer_edge (plain 2) [0] (sample_world [triangle])
                                    triangle_call.2 triangle_batch).
  vm_compute. reflexivity.
Defined.

(** C1 as stated fails.  In the batch of one triangle, the last triplet
    is [0 -> 1 -> 2]; its outer edge [(2 <- 1)] is edge 5 and has local
    rank 1 among the edges with source atom 1 (edge 0 is the other one),
    yet [id_reduce_ji] holds 5 for it. *)
Lemma id_reduce_ji_local_rank_counterexample :
  exists out w' g,
    __call__ (plain 2) [0] (sample_world [triangle]) = (Ok out, w') /\
    carries (plain 2) out g /\
    id3dnb_i g !! 5 = Some 2 /\ id3dnb_j g !! 5 = Some 1 /\ id3dnb_k g !! 5 = Some 0 /\
    idnb_i g !! 5 = Some 2 /\ idnb_j g !! 5 = Some 1 /\
    local_rank (idnb_j g) 5 = 1 /\
    id_reduce_ji g !! 5 = Some 5.
Proof.
  exists triangle_batch, triangle_call.2,
    (Graph [0; 0; 1; 1; 2; 2] [1; 2; 0; 2; 0; 1]
           [0; 0; 1; 1; 2; 2] [1; 2; 0; 2; 0; 1] [2; 1; 2; 0; 1; 0]
           [3; 5; 1; 4; 0; 2] [0; 1; 2; 3; 4; 5]).
  split; [vm_compute; reflexivity|].
  split; [by repeat split|].
  by repeat split.
Qed.

(** ** Binary64 arithmetic *)

Section float64_lemmas.
Import float64.

Lemma iter_pos_invariant {A : Type} (P : A -> Prop) (f : A -> A) (n : positive) (x : A) :
  (forall y, P y -> P (f y)) -> P x -> P (SpecFloat.iter_pos f n x).
Proof.
  intros Hf. revert x. induction n as [n IH|n IH|]; intros x Hx; cbn [SpecFloat.iter_pos]; auto.
Qed.

Lemma shr_1_nonneg mrs : (0 <= shr_m mrs)%Z -> (0 <= shr_m (shr_1 mrs))%Z.
Proof. destruct mrs as [[|[p|p|]|[p|p|]] r s]; cbn; lia. Qed.

Lemma shr_fexp_nonneg m e l :
  (0 <= m)%Z -> (0 <= shr_m (shr_fexp prec emax m e l).1)%Z.
Proof.
  intros Hm. unfold shr_fexp, shr.
  assert (0 <= shr_m (shr_record_of_loc m l))%Z as H0.
  { by destruct l as [|[| |]]. }
  destruct (_ - e)%Z as [|p|p]; cbn [fst]; try done.
  by apply iter_pos_invariant; [apply shr_1_nonneg|].
Qed.

Lemma round_nearest_even_nonneg m l : (0 <= m)%Z -> (0 <= round_nearest_even m l)%Z.
Proof.
  intros Hm. unfold round_nearest_even. destruct l as [|[| |]]; try done; [|lia].
  destruct (Z.even m); lia.
Qed.

Lemma binary_round_aux_nonneg m e l :
  (0 <= m)%Z -> nonneg (binary_round_aux prec emax false m e l).
Proof.
  intros Hm. unfold binary_round_aux.
  pose proof (shr_fexp_nonneg m e l Hm) as H1.
  destruct (shr_fexp prec emax m e l) as [mrs' e'] eqn:E1. cbn [fst] in H1.
  pose proof (shr_fexp_nonneg _ e' loc_Exact
                (round_nearest_even_nonneg _ (loc_of_shr_record mrs') H1)) as H2.
  destruct (shr_fexp prec emax (round_nearest_even _ _) e' loc_Exact) as [mrs'' e''].
  cbn [fst] in H2. destruct (shr_m mrs'') as [|p|p]; [done| |lia].
  by destruct (_ <=? _)%Z.
Qed.

Lemma binary_round_aux_opp s m e l :
  binary_round_aux prec emax (negb s) m e l = SFopp (binary_round_aux prec emax s m e l).
Proof.
  unfold binary_round_aux.
  destruct (shr_fexp prec emax m e l) as [mrs' e'].
  destruct (shr_fexp prec emax _ e' loc_Exact) as [mrs'' e''].
  destruct (shr_m mrs''); [done| |done]. by destruct (_ <=? _)%Z.
Qed.

Lemma binary_round_opp s m e :
  binary_round prec emax (negb s) m e = SFopp (binary_round prec emax s m e).
Proof.
  unfold binary_round. destruct (shl_align _ _ _). apply binary_round_aux_opp.
Qed.

Lemma binary_normalize_opp m e :
  binary_normalize prec emax (- m) e false
  = match m with
    | Z0 => zero
    | _ => SFopp (binary_normalize prec emax m e false)
    end.
Proof.
  destruct m as [|p|p]; cbn [Z.opp binary_normalize]; [done| |].
  - apply (binary_round_opp false).
  - by rewrite <- (binary_round_opp true).
Qed.

Lemma mul_opp x : mul (SFopp x) (SFopp x) = mul x x.
Proof. destruct x as [[]|[]| |[] m e]; reflexivity. Qed.

Lemma mul_zero x : is_zero x = true -> mul x x = zero.
Proof. by destruct x as [[]|[]| |[] m e]. Qed.

(** The square of a difference does not depend on the order of the
    operands. *)
Lemma sq_sub_sym a b : mul (sub a b) (sub a b) = mul (sub b a) (sub b a).
Proof.
  assert (sub b a = SFopp (sub a b) \/
          (is_zero (sub a b) = true /\ is_zero (sub b a) = true)) as [->| [H1 H2]].
  2: by rewrite mul_opp.
  2: by rewrite !mul_zero.
  destruct a as [sa|sa| |sa ma ea], b as [sb|sb| |sb mb eb]; cbn [sub SFsub SFopp];
    try (by left); try (destruct sa, sb; by auto).
  rewrite (Z.min_comm eb ea).
  set (X := cond_Zopp sa _). set (Y := cond_Zopp sb _).
  replace (Y - X)%Z with (- (X - Y))%Z by lia.
  rewrite binary_normalize_opp.
  destruct (X - Y)%Z; [right; by split | by left | by left].
Qed.

(** A finite number minus itself is [+0]. *)
Lemma sub_diag a : is_finite a = true -> sub a a = zero.
Proof.
  destruct a as [[]|[]| |s m e]; try done. intros _. cbn [sub SFsub].
  by rewrite Z.sub_diag.
Qed.

Lemma div_nonneg n d :
  nonneg (div (S754_finite false n 0) (S754_finite false d 0)).
Proof.
  cbn [div SFdiv xorb]. unfold SFdiv_core_binary.
  set (e' := Z.min _ _). set (m' := match (0 - 0 - e')%Z with Z0 => _ | Zpos _ => _ | Zneg _ => _ end).
  assert (0 <= m')%Z as Hm'.
  { unfold m'. destruct (0 - 0 - e')%Z; [done| |done]. apply Z.shiftl_nonneg. lia. }
  pose proof (Z_div_mod m' (Zpos d) ltac:(lia)) as Hdiv.
  destruct (Z.div_eucl m' (Z.pos d)) as [q r]. apply binary_round_aux_nonneg. nia.
Qed.

Lemma of_Q_nonneg (c : Q) : (0 <= c)%Q -> nonneg (of_Q c).
Proof.
  destruct c as [[|n|n] d]; unfold of_Q; cbn [Qnum Qden]; intros Hc.
  - done.
  - apply div_nonneg.
  - exfalso. unfold Qle in Hc. cbn in Hc. lia.
Qed.

Lemma of_Q_zero (c : Q) : (c == 0)%Q -> of_Q c = zero.
Proof.
  destruct c as [n d]. unfold Qeq, of_Q. cbn [Qnum Qden]. intros Hc.
  assert (n = 0%Z) as -> by lia. done.
Qed.

Lemma leb_zero_nonneg s f : nonneg f -> leb (S754_zero s) f = true.
Proof. by destruct f as [[]|[]| |[] m e]. Qed.

Lemma sqrt_nonneg x : sqrt x = S754_nan \/ nonneg (sqrt x).
Proof.
  destruct x as [[]|[]| |[] m e]; cbn [sqrt SFsqrt]; try (by left); try (by right).
  right. unfold SFsqrt_core_binary.
  set (e' := Z.min _ _). set (m' := match (e - 2 * e')%Z with Z0 => _ | Zpos _ => _ | Zneg _ => _ end).
  assert (0 <= m')%Z as Hm'.
  { unfold m'. destruct (e - 2 * e')%Z; [done| |done]. apply Z.shiftl_nonneg. lia. }
  pose proof (Z.sqrtrem_spec m' Hm') as Hs.
  destruct (Z.sqrtrem m') as [q r]. apply binary_round_aux_nonneg. lia.
Qed.

Lemma leb_sqrt_zero x : leb (sqrt x) zero = is_zero (sqrt x).
Proof.
  destruct (sqrt_nonneg x) as [->|H]; [done|].
  by destruct (sqrt x) as [[]|[]| |[] m e].
Qed.

End float64_lemmas.

(** ** Distances *)

Section distances.
Implicit Types (c : Q) (p q : point).

(** [D] is symmetric, to the last bit, whatever the coordinates. *)
Lemma distance_sym p q : distance p q = distance q p.
Proof.
  destruct p as [[x1 y1] z1], q as [[x2 y2] z2]. unfold distance, np.linalg_norm.
  cbn [map fmap list_fmap fold_left].
  by rewrite (sq_sub_sym (float64.of_Q x1)), (sq_sub_sym (float64.of_Q y1)),
    (sq_sub_sym (float64.of_Q z1)).
Qed.

Lemma within_sym c p q : within c p q = within c q p.
Proof. unfold within. by rewrite distance_sym. Qed.

(** The diagonal of [D] is zero where the coordinates are finite. *)
Lemma distance_diag p : finite p = true -> distance p p = float64.zero.
Proof.
  destruct p as [[x y] z]. unfold finite, distance, np.linalg_norm.
  intros [[Hx Hy]%andb_true_iff Hz]%andb_true_iff.
  by rewrite !sub_diag.
Qed.

Lemma within_refl c p : (0 <= c)%Q -> finite p = true -> within c p p = true.
Proof.
  intros Hc Hp. unfold within. rewrite distance_diag by done.
  by apply leb_zero_nonneg, of_Q_nonneg.
Qed.

(** With cutoff zero the test is whether the computed distance is zero. *)
Lemma within_zero c p q : (c == 0)%Q -> within c p q = float64.is_zero (distance p q).
Proof.
  intros Hc. unfold within. rewrite of_Q_zero by done.
  destruct p as [[x1 y1] z1], q as [[x2 y2] z2]. apply leb_sqrt_zero.
Qed.

End distances.

(** ** Which atoms are neighbours *)

Section neighbours.
Implicit Types (cutoff : Q) (R : list point) (r c : nat).

Lemma elem_of_neighbours cutoff R r c :
  c ∈ getrow (neighbours cutoff R) r <->
  exists p q, R !! r = Some p /\ R !! c = Some q /\
              sp.bool_minus (within cutoff p q) (Nat.eqb r c) = true.
Proof.
  unfold neighbours, getrow, within_matrix, identity_matrix.
  rewrite list_lookup_fmap, lookup_zip_with, !list_lookup_fmap.
  destruct (R !! r) as [p|] eqn:Hp; cbn [fmap option_fmap option_map mbind option_bind default].
  - rewrite lookup_seq_lt by (by apply lookup_lt_Some in Hp).
    cbn [fmap option_fmap option_map mbind option_bind default Nat.add].
    unfold np.nonzero, id. rewrite lookup_nonzero_from, Nat.sub_0_r.
    rewrite lookup_zip_with, !list_lookup_fmap.
    destruct (R !! c) as [q|] eqn:Hq; cbn [fmap option_fmap option_map mbind option_bind].
    + rewrite lookup_seq_lt by (by apply lookup_lt_Some in Hq).
      cbn [fmap option_fmap option_map mbind option_bind Nat.add].
      split.
      * intros [_ [= Hb]]. by exists p, q.
      * intros (p' & q' & [= <-] & [= <-] & Hb). split; [lia | by rewrite Hb].
    + split; [by intros [_ ?] | by intros (? & ? & _ & ? & _)].
  - split; [by intros ?%elem_of_nil | by intros (? & ? & ? & _)].
Qed.

Lemma finite_lookup R r p : forallb finite R = true -> R !! r = Some p -> finite p = true.
Proof.
  rewrite forallb_forall. intros HR Hp. by apply HR, list_elem_of_In, (list_elem_of_lookup_2 _ r).
Qed.

(** With a cutoff that is not negative and finite coordinates no atom is
    its own neighbour. *)
Lemma neighbours_irreflexive cutoff R r :
  (0 <= cutoff)%Q -> forallb finite R = true -> r ∉ getrow (neighbours cutoff R) r.
Proof.
  intros Hc HR (p & q & Hp & Hq & Hb)%elem_of_neighbours.
  rewrite Hp in Hq. injection Hq as <-.
  by rewrite within_refl, Nat.eqb_refl in Hb by eauto using finite_lookup.
Qed.

End neighbours.

(** ** Self-loops *)

Section self_loops.
Implicit Types (cols : list (list nat)).

Lemma getrow_app {A : Type} (l1 l2 : list (list A)) r :
  getrow (l1 ++ l2) r
  = if decide (r < length l1) then getrow l1 r else getrow l2 (r - length l1).
Proof.
  unfold getrow. destruct (decide _).
  - by rewrite lookup_app_l.
  - by rewrite lookup_app_r by lia.
Qed.

(** An entry of the block-diagonal arrangement comes from an entry of
    one block, row and column shifted alike. *)
Lemma elem_of_block_cols off (blocks : list (list (list nat))) r c :
  c ∈ getrow (block_cols off blocks) r ->
  exists b r' c', b ∈ blocks /\ c' ∈ getrow b r' /\ c + r' = c' + r + off.
Proof.
  revert off r. induction blocks as [|b blocks IH]; intros off r; cbn [block_cols].
  - unfold getrow. rewrite lookup_nil. by intros ?%elem_of_nil.
  - rewrite getrow_app, length_map. destruct (decide _) as [Hr|Hr].
    + rewrite getrow_map. intros (c' & -> & Hc')%list_elem_of_fmap.
      exists b, r, c'. split; [by left|]. split; [done | lia].
    + intros (b' & r' & c' & Hb' & Hc' & Heq)%IH.
      exists b', r', c'. split; [by right|]. split; [done | lia].
Qed.

(** Every edge [(i <- j)] of a matrix given by columns is an entry [j]
    of row [i]. *)
Lemma edges_in_rows cols :
  Forall2 (fun i j => j ∈ getrow cols i) (targets cols) (concat cols).
Proof.
  unfold targets. apply Forall2_concat_segments, Forall2_same_length_lookup_2.
  - by rewrite length_imap.
  - intros r seg row. rewrite list_lookup_imap. intros Hseg Hrow.
    rewrite Hrow in Hseg. injection Hseg as <-.
    apply Forall2_replicate_l; [done|]. apply Forall_forall. intros j Hj.
    unfold getrow. by rewrite Hrow.
Qed.

Lemma batch_cols_irreflexive cutoff (examples : list (dict value)) r :
  (0 <= cutoff)%Q ->
  Forall (fun e => forallb finite (positions e) = true) examples ->
  r ∉ getrow (batch_cols cutoff examples) r.
Proof.
  intros Hc Hfin (b & r' & c' & Hb & Hc' & Heq)%elem_of_block_cols.
  apply list_elem_of_fmap in Hb as (e & -> & He).
  rewrite Forall_forall in Hfin.
  assert (c' = r') as -> by lia. by apply neighbours_irreflexive in Hc'; auto.
Qed.

Lemma rows_empty cols :
  (forall r c, c ∉ getrow cols r) -> targets cols = [] /\ concat cols = [].
Proof.
  intros Hempty.
  assert (sum_list (map length cols) = 0) as Hsum.
  { assert (Forall (fun row => row = []) cols) as Hall.
    { apply Forall_lookup. intros r row Hrow.
      destruct row as [|c row]; [done|]. exfalso. apply (Hempty r c).
      unfold getrow. rewrite Hrow. by left. }
    induction Hall as [|row cols -> _ IH]; [done|]. simpl. apply IH.
    intros r c. apply (Hempty (S r) c). }
  split; apply length_zero_iff_nil.
  - by rewrite targets_length.
  - by rewrite length_concat_sum.
Qed.

End self_loops.

(** With a cutoff that is not negative and positions that are finite
    when the call has perturbed them, an assembled batch has no edge from
    an atom to itself. *)
Lemma no_self_loops {T : Type} (self : AtomsCollate T)
    (examples : list loc) (w w' : world) (out : dict T) :
  (0 <= cutoff self)%Q ->
  __call__ self examples w = (Ok out, w') ->
  Forall (fun e => forallb finite (positions (deref e w')) = true) examples ->
  exists g, carries self out g /\
    length (idnb_i g) = length (idnb_j g) /\
    forall e i j, idnb_i g !! e = Some i -> idnb_j g !! e = Some j -> i <> j.
Proof.
  intros Hc (g & Hout & ->)%call_graph Hfin. eexists. split; [exact Hout|].
  set (cols := batch_cols _ _). cbn [graph_of_cols idnb_i idnb_j].
  split; [apply (Forall2_length _ _ _ (edges_in_rows cols))|].
  intros e i j Hi Hj ->.
  pose proof (Forall2_lookup_lr _ _ _ e j j (edges_in_rows cols) Hi Hj) as Hin.
  apply batch_cols_irreflexive in Hin; [done | done |]. by apply Forall_fmap.
Qed.

(** C3 at a negative cutoff.  Nothing is within a negative cutoff, not
    even an atom and itself, and subtracting the identity from the empty
    matrix stores the diagonal: the batch of one atom has the edge
    [(0 <- 0)]. *)
Theorem self_loop_at_negative_cutoff :
  exists out w',
    __call__ (plain (-1)) [0] (sample_world [lone_atom]) = (Ok out, w') /\
    dict_get "idnb_i" out = Some (ints [0]) /\
    dict_get "idnb_j" out = Some (ints [0]).
Proof.
  eexists _, _. split; [vm_compute; reflexivity|]. by split.
Qed.

(** ** Structures without edges *)

(** C8, as the code has it.  For one structure whose coordinates are
    finite, the adjacency matrix has no edge when the cutoff is zero and
    the distance that line 140 computes for every two different atoms is
    not zero, and it has no edge when the structure has at most one atom
    and the cutoff is not negative. *)
Theorem zero_edges (cutoff : Q) (e : dict value) (R : list point) (m : sp.csr_matrix bool) :
  dict_get "R" e = Some (Float2 R) ->
  adjacency cutoff e = Ok m ->
  forallb finite R = true ->
  ((cutoff == 0)%Q /\
   (forall r c p q, R !! r = Some p -> R !! c = Some q -> r <> c ->
                    float64.is_zero (distance p q) = false))
  \/ (length R <= 1 /\ (0 <= cutoff)%Q) ->
  sp.nonzero m = ([], []).
Proof.
  intros HR Hm Hfin Hcase. apply adjacency_cols in Hm as ->.
  unfold positions. rewrite HR, nonzero_of_cols.
  destruct (rows_empty (neighbours cutoff R)) as [-> ->]; [|done].
  intros r c (p & q & Hp & Hq & Hb)%elem_of_neighbours.
  destruct (decide (r = c)) as [<-|Hne].
  - rewrite Hp in Hq. injection Hq as <-.
    rewrite within_refl, Nat.eqb_refl in Hb; [done| |by eauto using finite_lookup].
    destruct Hcase as [[Hc _]|[_ Hc]]; [rewrite Hc|]; lra.
  - destruct Hcase as [[Hc Hapart]|[HN _]].
    + rewrite (within_zero _ _ _ Hc), (Hapart r c p q Hp Hq Hne) in Hb.
      by destruct (Nat.eqb_spec r c).
    + apply lookup_lt_Some in Hp, Hq. lia.
Qed.

Lemma zero_edges_witness :
  adjacency 0 pair_apart = Ok (of_cols [[]; []] 2) /\
  sp.nonzero (of_cols [[]; []] 2) = ([], []).
Proof.
  split; [vm_compute; reflexivity|].
  apply (zero_edges 0 pair_apart [(0, 0, 0); (1, 0, 0)]%Q (of_cols [[]; []] 2)).
  - reflexivity.
  - vm_compute. reflexivity.
  - vm_compute. reflexivity.
  - left. split; [reflexivity|].
    intros [|[|r]] [|[|c]] p q Hp Hq Hne; simplify_eq/=; vm_compute; reflexivity.
Defined.

(** C8 as stated fails: with cutoff 0 the two atoms of [pair_coincident]
    are joined by the edges [(0 <- 1)] and [(1 <- 0)]. *)
Lemma zero_cutoff_counterexample :
  exists m, adjacency 0 pair_coincident = Ok m /\ sp.nonzero m = ([0; 1], [1; 0]).
Proof. eexists. split; vm_compute; reflexivity. Qed.

(** With cutoff 0 two atoms at different points are joined too when they
    are so close that the squares of the differences of their coordinates
    underflow: the atoms of [pair_close] are [2 ^ -600] apart. *)
Lemma zero_cutoff_underflow :
  exists m, adjacency 0 pair_close = Ok m /\ sp.nonzero m = ([0; 1], [1; 0]).
Proof. eexists. split; vm_compute; reflexivity. Qed.

(** ** The block-diagonal merge *)

Section merge.
Context {A : Type}.
Implicit Types (bl : list (list (list (nat * A)) * nat)).




End merge.

(** C5 on the adjacency matrix of a single atom, which is square and has
    no stored entry: [_bmat_fast] raises where the block-diagonal matrix is
    the 1 x 1 matrix without entries. *)
Theorem bmat_fast_without_entries :
  _bmat_fast [of_cols [[]] 1] = Raise ValueError /\
  block_diag [[[]]] = of_cols [[]] 1.
Proof. split; reflexivity. Qed.

(** C5 on a pair of bonded atoms followed by a single atom: the result
    of [_bmat_fast] has two columns where the block-diagonal matrix has
    three. *)
Lemma bmat_fast_short_of_columns :
  exists m, _bmat_fast [of_cols [[1]; [0]] 2; of_cols [[]] 1] = Ok m /\
            sp.shape m = (3, 2) /\
            sp.shape (block_diag [[[(1, true)]; [(0, true)]]; [[]]]) = (3, 3).
Proof. eexists. split; [reflexivity|]. by split. Qed.

(** ** Reasoning about the world *)

Section world.
Context {A B : Type}.
Implicit Types (w : world) (e : loc) (k : string).

Lemma deref_insert_eq e d h g : deref e (World (<[e := d]> h) g) = d.
Proof. unfold deref. cbn [heap]. by rewrite lookup_insert_eq. Qed.

Lemma deref_insert_ne e e' d h g :
  e <> e' -> deref e' (World (<[e := d]> h) g) = deref e' (World h g).
Proof. intros Hne. unfold deref. cbn [heap]. by rewrite lookup_insert_ne. Qed.

Lemma deref_heap e w w' : heap w = heap w' -> deref e w = deref e w'.
Proof. unfold deref. by intros ->. Qed.

Lemma preserves_bind (Rel : world -> world -> Prop) `{!PreOrder Rel}
    (c : M A) (f : A -> M B) :
  preserves Rel c -> (forall a, preserves Rel (f a)) -> preserves Rel (c ≫= f).
Proof.
  intros Hc Hf w. unfold mbind, M_bind, bindM.
  specialize (Hc w). destruct (c w) as [[a|err] w1]; cbn [snd] in *; [|done].
  etransitivity; [exact Hc | apply Hf].
Qed.

Lemma oblivious_bind (c : M A) (f : A -> M B) :
  oblivious c -> (forall a, oblivious (f a)) -> oblivious (c ≫= f).
Proof.
  intros Hc Hf w1 w2 Hw. unfold mbind, M_bind, bindM.
  destruct (Hc w1 w2 Hw) as [Hr Hh].
  destruct (c w1) as [r1 w1'], (c w2) as [r2 w2']. cbn [fst snd] in *. subst r2.
  destruct r1 as [a|err]; [by apply Hf | done].
Qed.

End world.

Section loops.
Context {A : Type}.

Lemma preserves_forM (Rel : world -> world -> Prop) `{!PreOrder Rel}
    (l : list A) (body : A -> M ()) :
  (forall x, preserves Rel (body x)) -> preserves Rel (forM_ l body).
Proof.
  intros Hbody. induction l as [|x l IH]; cbn [forM_].
  - intros w. reflexivity.
  - apply preserves_bind; [done | apply Hbody | by intros _].
Qed.

Lemma oblivious_forM (l : list A) (body : A -> M ()) :
  (forall x, oblivious (body x)) -> oblivious (forM_ l body).
Proof.
  intros Hbody. induction l as [|x l IH]; cbn [forM_].
  - by intros w1 w2 Hw.
  - apply oblivious_bind; [apply Hbody | by intros _].
Qed.

End loops.

(** ** What a call does to the examples *)

#[local] Instance only_positions_updated_preorder : PreOrder only_positions_updated.
Proof.
  split.
  - intros w e k. by split.
  - intros w1 w2 w3 H12 H23 e k.
    destruct (H12 e k) as [Heq12 Hsome12], (H23 e k) as [Heq23 Hsome23].
    split; [|by auto]. intros H1 H2. by rewrite Heq23, Heq12.
Qed.

#[local] Instance same_atoms_preorder : PreOrder same_atoms.
Proof.
  split.
  - by intros w e.
  - intros w1 w2 w3 H12 H23 e. by rewrite H23, H12.
Qed.

Section frame.
Implicit Types (w : world) (e : loc) (k : string).

Lemma only_positions_updated_heap w w' :
  heap w' = heap w -> only_positions_updated w w'.
Proof. intros Hh e k. by rewrite (deref_heap e w' w Hh). Qed.

Lemma same_atoms_heap w w' : heap w' = heap w -> same_atoms w w'.
Proof. intros Hh e. by rewrite (deref_heap e w' w Hh). Qed.

Lemma preserves_heap {A : Type} (Rel : world -> world -> Prop) (c : M A) :
  (forall w w', heap w' = heap w -> Rel w w') ->
  (forall w, heap (c w).2 = heap w) -> preserves Rel c.
Proof. intros HRel Hc w. apply HRel, Hc. Qed.

Lemma setitem_positions e k v :
  k = "R"%string \/ k = "R_orig"%string ->
  preserves only_positions_updated (setitem e k v).
Proof.
  intros Hk w e' k'. unfold setitem. cbn [snd]. destruct w as [h g].
  destruct (decide (e = e')) as [<-|Hne].
  - rewrite deref_insert_eq, dict_get_set. split.
    + intros H1 H2. destruct (String.eqb_spec k' k) as [->|]; [|done].
      destruct Hk; congruence.
    + intros Hs. destruct (String.eqb k' k); [by eauto | done].
  - by rewrite deref_insert_ne.
Qed.

Lemma setitem_other_atoms e k v :
  k <> "R"%string -> preserves same_atoms (setitem e k v).
Proof.
  intros Hk w e'. unfold setitem. cbn [snd]. destruct w as [h g].
  destruct (decide (e = e')) as [<-|Hne].
  - rewrite deref_insert_eq. unfold natoms. by rewrite dict_get_set_ne.
  - by rewrite deref_insert_ne.
Qed.

Lemma setitem_R_atoms e a w :
  natoms (deref e w) = length a ->
  same_atoms w (setitem e "R" (Float2 a) w).2.
Proof.
  intros Ha e'. unfold setitem. cbn [snd]. destruct w as [h g].
  destruct (decide (e = e')) as [<-|Hne].
  - rewrite deref_insert_eq. unfold natoms at 1. by rewrite dict_get_set_eq.
  - by rewrite deref_insert_ne.
Qed.

End frame.

Section call_frame.
Context {T : Type}.
Implicit Types (self : AtomsCollate T) (examples : list loc) (w : world).

Lemma preserves_unchanged {A : Type} (Rel : world -> world -> Prop) `{!Reflexive Rel}
    (c : M A) :
  (forall w, (c w).2 = w) -> preserves Rel c.
Proof. intros Hc w. by rewrite Hc. Qed.

Lemma restore_shape_positions examples :
  preserves only_positions_updated (_restore_shape examples).
Proof.
  unfold _restore_shape.
  apply preserves_bind; [apply _ | | intros; by apply preserves_unchanged].
  apply preserves_forM; [apply _|]. intros d.
  apply preserves_bind; [apply _ | by apply preserves_unchanged | intros r].
  apply preserves_bind; [apply _ | by apply preserves_unchanged | intros r'].
  apply setitem_positions. by left.
Qed.

Lemma augment_positions self examples :
  preserves only_positions_updated (augment self examples).
Proof.
  unfold augment. apply preserves_forM; [apply _|]. intros e.
  apply preserves_bind; [apply _ | | intros _].
  { destruct (rotate self); [|by apply preserves_unchanged].
    apply preserves_bind; [apply _ | by apply preserves_unchanged | intros r].
    apply preserves_bind; [apply _ | by apply preserves_unchanged | intros c].
    apply preserves_bind; [apply _ | | intros c'].
    - unfold _random_rotate.
      apply preserves_bind; [apply _ | | intros; by apply preserves_unchanged].
      by apply preserves_heap; [apply only_positions_updated_heap|].
    - apply setitem_positions. by left. }
  apply preserves_bind; [apply _ | by apply preserves_unchanged | intros r].
  apply preserves_bind; [apply _ | by apply preserves_unchanged | intros R].
  apply preserves_bind; [apply _ | | intros deltas].
  { by apply preserves_heap; [apply only_positions_updated_heap|]. }
  apply preserves_bind; [apply _ | | intros _].
  - apply setitem_positions. by right.
  - apply setitem_positions. by left.
Qed.

Lemma call_positions self examples :
  preserves only_positions_updated (__call__ self examples).
Proof.
  unfold __call__.
  apply preserves_bind; [apply _ | apply restore_shape_positions | intros ex].
  apply preserves_bind; [apply _ | apply augment_positions | intros _].
  apply preserves_bind; [apply _ | by apply preserves_unchanged | intros w0].
  by apply preserves_unchanged.
Qed.

End call_frame.


(** ** What a call takes from the random generator *)

Section call_oblivious.
Context {T : Type}.
Implicit Types (self : AtomsCollate T) (examples : list loc) (w : world).

Lemma oblivious_getitem e k : oblivious (getitem e k).
Proof. intros w1 w2 Hw. unfold getitem. cbn. by rewrite (deref_heap e w1 w2 Hw). Qed.

Lemma oblivious_setitem e k v : oblivious (setitem e k v).
Proof.
  intros w1 w2 Hw. unfold setitem. cbn. by rewrite (deref_heap e w1 w2 Hw), Hw.
Qed.

Lemma oblivious_liftM {A : Type} (r : result A) : oblivious (liftM r).
Proof. by intros w1 w2 Hw. Qed.

Lemma oblivious_mret {A : Type} (a : A) : oblivious (mret a : M A).
Proof. by intros w1 w2 Hw. Qed.

Lemma oblivious_rand_norm size m :
  (m == 0)%Q -> oblivious (_get_rand_norm_3d size m).
Proof.
  intros Hm%Qeq_bool_iff w1 w2 Hw. unfold _get_rand_norm_3d. cbn. by rewrite Hm.
Qed.

Lemma restore_shape_oblivious examples : oblivious (_restore_shape examples).
Proof.
  unfold _restore_shape.
  apply oblivious_bind; [|intros; apply oblivious_mret].
  apply oblivious_forM. intros d.
  apply oblivious_bind; [apply oblivious_getitem | intros r].
  apply oblivious_bind; [apply oblivious_liftM | intros r'].
  apply oblivious_setitem.
Qed.

Lemma augment_oblivious self examples :
  (rand_cov self == 0)%Q -> rotate self = false -> oblivious (augment self examples).
Proof.
  intros Hcov Hrot. unfold augment. rewrite Hrot.
  apply oblivious_forM. intros e.
  apply oblivious_bind; [apply oblivious_mret | intros _].
  apply oblivious_bind; [apply oblivious_getitem | intros r].
  apply oblivious_bind; [apply oblivious_liftM | intros R].
  apply oblivious_bind; [by apply oblivious_rand_norm | intros deltas].
  apply oblivious_bind; [apply oblivious_setitem | intros _].
  apply oblivious_setitem.
Qed.

Lemma call_oblivious self examples :
  (rand_cov self == 0)%Q -> rotate self = false -> oblivious (__call__ self examples).
Proof.
  intros Hcov Hrot. unfold __call__.
  apply oblivious_bind; [apply restore_shape_oblivious | intros ex].
  apply oblivious_bind; [by apply augment_oblivious | intros _].
  intros w1 w2 Hw. unfold mbind, M_bind, bindM, the_world, liftM. cbn [fst snd].
  split; [|done]. f_equal. apply list_fmap_ext. intros _ e _. by apply deref_heap.
Qed.

End call_oblivious.

(** C9, as the code has it.  Without augmentation ([rand_cov = 0] and
    [rotate = False]) batch assembly is a function of the example records
    and the configuration alone: two invocations on the same records
    return the same batch, or raise the same exception, and leave the same
    records, whatever the states of the process-wide random generator. *)
Theorem call_ignores_generator {T : Type} (self : AtomsCollate T)
    (examples : list loc) (w1 w2 : world) :
  (rand_cov self == 0)%Q -> rotate self = false ->
  heap w1 = heap w2 ->
  (__call__ self examples w1).1 = (__call__ self examples w2).1 /\
  heap (__call__ self examples w1).2 = heap (__call__ self examples w2).2.
Proof. intros Hcov Hrot. by apply call_oblivious. Qed.

Lemma call_ignores_generator_witness :
  let w1 := sample_world [triangle] in
  let w2 := World (heap (sample_world [triangle])) (sample_generator 7) in
  (__call__ (plain 2) [0] w1).1 = (__call__ (plain 2) [0] w2).1 /\
  heap (__call__ (plain 2) [0] w1).2 = heap (__call__ (plain 2) [0] w2).2.
Proof.
  apply (call_ignores_generator (plain 2) [0] (sample_world [triangle])
           (World (heap (sample_world [triangle])) (sample_generator 7)));
    reflexivity.
Defined.

(** C9 as stated fails: with [rand_cov = 0.01], a second invocation on
    the same example records, made after the first has advanced the
    generator, returns other coordinates. *)
Lemma ambient_randomness_counterexample :
  let w := sample_world [triangle] in
  exists out1 w1 out2 w2,
    __call__ (noisy 2) [0] w = (Ok out1, w1) /\
    __call__ (noisy 2) [0] (World (heap w) (np_random w1)) = (Ok out2, w2) /\
    dict_get "R" out1 <> dict_get "R" out2.
Proof.
  eexists _, _, _, _. split; [vm_compute; reflexivity|].
  split; [vm_compute; reflexivity|]. vm_compute. intros [=].
Qed.

(** ** The number of atoms of an example *)

Section atoms.
Context {T : Type}.
Implicit Types (self : AtomsCollate T) (examples : list loc) (w : world) (e : loc).

Lemma restore_shape_atoms examples : preserves same_atoms (_restore_shape examples).
Proof.
  unfold _restore_shape.
  apply preserves_bind; [apply _ | | intros; by apply preserves_unchanged].
  apply preserves_forM; [apply _|]. intros d w.
  unfold mbind, M_bind, bindM, getitem, liftM.
  destruct (dict_get "R" (deref d w)) as [r|] eqn:HR; cbn [of_option snd]; [|done].
  destruct r as [a|a| | | |]; cbn [reshape3 snd]; try done.
  - apply setitem_R_atoms. unfold natoms. by rewrite HR.
  - destruct (decide _); cbn [snd]; [|done].
    apply setitem_R_atoms. unfold natoms. by rewrite HR.
Qed.

Lemma length_deltas size m w :
  forall deltas, (_get_rand_norm_3d size m w).1 = Ok deltas -> length deltas = size.
Proof.
  intros deltas. unfold _get_rand_norm_3d. cbn [fst]. intros [= <-].
  destruct (Qeq_bool m 0); by rewrite ?length_replicate, ?length_map, ?length_seq.
Qed.

Lemma rotate_atoms e :
  preserves same_atoms
    (r ← getitem e "R"; c ← liftM (coords r); c' ← _random_rotate c;
     setitem e "R" (Float2 c')).
Proof.
  intros w. unfold mbind, M_bind, bindM, getitem, liftM.
  destruct (dict_get "R" (deref e w)) as [r|] eqn:HR; cbn [of_option snd]; [|done].
  destruct r as [a|a| | | |]; cbn [coords snd]; try done.
  unfold _random_rotate, rand_rotation_matrix, mbind, M_bind, bindM, mret, M_ret, retM.
  cbn [fst snd].
  etransitivity; [|apply setitem_R_atoms].
  - by apply same_atoms_heap.
  - rewrite length_map. unfold natoms, deref. cbn [heap].
    fold (deref e w). by rewrite HR.
Qed.

Lemma perturb_atoms self e :
  preserves same_atoms
    (r ← getitem e "R"; R ← liftM (coords r);
     deltas ← _get_rand_norm_3d (length R) (rand_cov self);
     setitem e "R_orig" (Float2 R);; setitem e "R" (Float2 (zip_with padd R deltas))).
Proof.
  intros w. unfold mbind, M_bind, bindM, getitem, liftM.
  destruct (dict_get "R" (deref e w)) as [r|] eqn:HR; cbn [of_option snd]; [|done].
  destruct r as [R|a| | | |]; cbn [coords snd]; try done.
  pose proof (length_deltas (length R) (rand_cov self) w) as Hlen.
  destruct (_get_rand_norm_3d (length R) (rand_cov self) w) as [[deltas|err] w2] eqn:Hd;
    [|by apply (f_equal fst) in Hd].
  specialize (Hlen deltas eq_refl).
  assert (heap w2 = heap w) as Hheap.
  { apply (f_equal snd) in Hd. cbn [snd] in Hd. by rewrite <- Hd. }
  assert (same_atoms w (setitem e "R_orig" (Float2 R) w2).2) as H3.
  { etransitivity; [by apply same_atoms_heap|]. by apply setitem_other_atoms. }
  cbn [fst snd] in *.
  etransitivity; [exact H3|]. apply setitem_R_atoms.
  etransitivity; [exact (H3 e)|].
  rewrite length_zip_with, Hlen. unfold natoms. rewrite HR. lia.
Qed.

Lemma augment_atoms self examples : preserves same_atoms (augment self examples).
Proof.
  unfold augment. apply preserves_forM; [apply _|]. intros e.
  apply preserves_bind; [apply _ | | intros _; apply perturb_atoms].
  destruct (rotate self); [apply rotate_atoms | by apply preserves_unchanged].
Qed.

(** A call does not change the number of atoms of any example. *)
Lemma call_atoms self examples : preserves same_atoms (__call__ self examples).
Proof.
  unfold __call__.
  apply preserves_bind; [apply _ | apply restore_shape_atoms | intros ex].
  apply preserves_bind; [apply _ | apply augment_atoms | intros _].
  apply preserves_bind; [apply _ | by apply preserves_unchanged | intros w0].
  by apply preserves_unchanged.
Qed.

End atoms.

(** ** Structures without atoms *)

Section empty_structures.
Implicit Types (cutoff : Q) (exs : list (dict value)).

Lemma mapM_app {A B : Type} (f : A -> result B) (l1 l2 : list A) :
  mapM f (l1 ++ l2) = xs ← mapM f l1; ys ← mapM f l2; Ok (xs ++ ys).
Proof.
  induction l1 as [|a l1 IH]; cbn [mapM app mbind result_bind].
  - by destruct (mapM f l2).
  - destruct (f a) as [b|]; cbn [mbind result_bind]; [|done].
    rewrite IH. destruct (mapM f l1) as [xs|]; cbn [mbind result_bind]; [|done].
    by destruct (mapM f l2).
Qed.

(** [batch_graph] in terms of the columns of the batch, when every
    adjacency matrix can be built. *)
Lemma batch_graph_spec cutoff exs mats :
  mapM (adjacency cutoff) exs = Ok mats ->
  batch_graph cutoff exs
  = match concat (batch_cols cutoff exs) with
    | [] => Raise ValueError
    | _ :: _ =>
        if forallb (fun r => bool_decide (r < length (batch_cols cutoff exs)))
                   (concat (batch_cols cutoff exs))
        then Ok (graph_of_cols (batch_cols cutoff exs))
        else Raise IndexError
    end.
Proof.
  intros Hmats. unfold batch_graph, batch_cols. rewrite Hmats. cbn [mbind result_bind].
  apply mapM_adjacency in Hmats as ->.
  assert (map (fun e => of_cols (neighbours cutoff (positions e)) (length (positions e)))
              exs
          = map (fun b => of_cols b.1 b.2)
                (map (fun e => (neighbours cutoff (positions e), length (positions e)))
                     exs)) as ->.
  { by rewrite <- list_fmap_compose. }
  rewrite bmat_fast_cols.
  assert (map fst (map (fun e => (neighbours cutoff (positions e), length (positions e)))
                       exs)
          = map (fun e => neighbours cutoff (positions e)) exs) as ->.
  { by rewrite <- list_fmap_compose. }
  destruct (concat _) as [|c cs] eqn:Hidx; cbn [mbind result_bind]; [done|].
  rewrite edges_and_triplets_of_cols. by rewrite Hidx.
Qed.

Lemma block_cols_skip_empty off (blocks1 blocks2 : list (list (list nat))) :
  block_cols off (blocks1 ++ [] :: blocks2) = block_cols off (blocks1 ++ blocks2).
Proof.
  revert off. induction blocks1 as [|b blocks1 IH]; intros off; cbn [app block_cols].
  - cbn. by rewrite Nat.add_0_r.
  - by rewrite IH.
Qed.

Lemma batch_cols_skip_empty cutoff exs1 exs2 e0 :
  positions e0 = [] ->
  batch_cols cutoff (exs1 ++ e0 :: exs2) = batch_cols cutoff (exs1 ++ exs2).
Proof.
  intros He0. unfold batch_cols. rewrite !fmap_app, fmap_cons, He0.
  apply block_cols_skip_empty.
Qed.

(** Leaving out a structure without atoms does not change the index
    arrays. *)
Lemma batch_graph_skip_empty cutoff exs1 exs2 e0 g :
  positions e0 = [] ->
  batch_graph cutoff (exs1 ++ e0 :: exs2) = Ok g ->
  batch_graph cutoff (exs1 ++ exs2) = Ok g.
Proof.
  intros He0 Hg.
  destruct (mapM (adjacency cutoff) (exs1 ++ e0 :: exs2)) as [mats|] eqn:Hmats;
    [|by unfold batch_graph in Hg; rewrite Hmats in Hg].
  rewrite (batch_graph_spec _ _ _ Hmats), batch_cols_skip_empty in Hg by done.
  rewrite mapM_app in Hmats. cbn [mapM] in Hmats.
  destruct (mapM (adjacency cutoff) exs1) as [mats1|] eqn:H1;
    cbn [mbind result_bind] in Hmats; [|done].
  destruct (adjacency cutoff e0) as [m0|]; cbn [mbind result_bind] in Hmats; [|done].
  destruct (mapM (adjacency cutoff) exs2) as [mats2|] eqn:H2;
    cbn [mbind result_bind] in Hmats; [|done].
  rewrite (batch_graph_spec cutoff (exs1 ++ exs2) (mats1 ++ mats2)); [done|].
  by rewrite mapM_app, H1, H2.
Qed.

Lemma mapM_lookup {A B : Type} (f : A -> result B) (l : list A) (bs : list B) n a :
  mapM f l = Ok bs -> l !! n = Some a -> exists b, f a = Ok b.
Proof.
  revert bs n. induction l as [|x l IH]; intros bs n Hbs Hn; [done|].
  cbn [mapM] in Hbs. destruct (f x) as [b|] eqn:Hx; cbn [mbind result_bind] in Hbs; [|done].
  destruct (mapM f l) as [bs'|]; cbn [mbind result_bind] in Hbs; [|done].
  destruct n as [|n]; simplify_eq/=; eauto.
Qed.

Lemma adjacency_positions cutoff e m :
  adjacency cutoff e = Ok m -> natoms e = length (positions e).
Proof.
  unfold adjacency, natoms, positions.
  by destruct (dict_get "R" e) as [[R| | | | |]|].
Qed.

End empty_structures.

(** C7, as the code has it.  A structure without atoms is not rejected.
    When a call returns a batch and example [n] of the input has no atoms,
    the index arrays of the batch are those assembled from the other
    examples: the empty structure contributes no edge and no triplet. *)
Theorem empty_structure_is_skipped {T : Type} (self : AtomsCollate T)
    (examples : list loc) (w w' : world) (out : dict T) (n : nat) (e0 : loc) :
  __call__ self examples w = (Ok out, w') ->
  examples !! n = Some e0 ->
  no_atoms (deref e0 w) ->
  exists g, carries self out g /\
            batch_graph (cutoff self) (map (fun e => deref e w') (delete n examples)) = Ok g.
Proof.
  intros Hcall Hn Hempty.
  pose proof (call_atoms self examples w e0) as Hatoms. rewrite Hcall in Hatoms.
  cbn [snd] in Hatoms.
  apply call_collate, collate_carries in Hcall as (g & Hg & Hout).
  exists g. split; [done|].
  assert (positions (deref e0 w') = []) as Hpos.
  { destruct (mapM (adjacency (cutoff self)) (map (fun e => deref e w') examples))
      as [mats|] eqn:Hmats; [|by unfold batch_graph in Hg; rewrite Hmats in Hg].
    destruct (mapM_lookup _ _ _ n (deref e0 w') Hmats) as [m0 Hm0].
    { by rewrite list_lookup_fmap, Hn. }
    apply adjacency_positions in Hm0. apply length_zero_iff_nil.
    rewrite <- Hm0, Hatoms. unfold natoms. by destruct Hempty as [-> | ->]. }
  rewrite <- (take_drop_middle examples n e0 Hn) in Hg. rewrite fmap_app, fmap_cons in Hg.
  rewrite delete_take_drop, fmap_app. by apply (batch_graph_skip_empty _ _ _ _ _ Hpos).
Qed.

Lemma empty_structure_is_skipped_witness :
  exists g, carries (plain 2) with_no_structure_batch g /\
            batch_graph 2 (map (fun e => deref e with_no_structure_call.2) (delete 1 [0; 1]))
            = Ok g.
Proof.
  apply (empty_structure_is_skipped (plain 2) [0; 1] (sample_world [triangle; no_structure])
           with_no_structure_call.2 with_no_structure_batch 1 1).
  - vm_compute. reflexivity.
  - reflexivity.
  - left. reflexivity.
Defined.

(** C7 as stated fails: the call on a triangle and a structure without
    atoms raises nothing and returns the batch of the triangle alone, with
    six edges and three atoms, all of structure 0. *)
Lemma zero_atoms_accepted_counterexample :
  exists out w',
    __call__ (plain 2) [0; 1] (sample_world [triangle; no_structure]) = (Ok out, w') /\
    dict_get "Z" no_structure = Some (Int1 []) /\
    dict_get "batch_seg" out = Some (ints [0; 0; 0]) /\
    dict_get "idnb_i" out = Some (ints [0; 0; 1; 1; 2; 2]) /\
    dict_get "idnb_j" out = Some (ints [1; 2; 0; 2; 0; 1]).
Proof.
  exists with_no_structure_batch, with_no_structure_call.2.
  split; [vm_compute; reflexivity|]. by repeat split.
Qed.

(** ** When a batch is returned *)

Section returns.
Implicit Types (cutoff : Q) (exs : list (dict value)).

Lemma neighbours_length cutoff (R : list point) : length (neighbours cutoff R) = length R.
Proof.
  unfold neighbours, within_matrix, identity_matrix.
  rewrite length_map, length_zip_with, !length_map, length_seq. lia.
Qed.

Lemma neighbours_in_range cutoff (R : list point) r c :
  c ∈ getrow (neighbours cutoff R) r -> c < length (neighbours cutoff R).
Proof.
  intros (p & q & _ & Hq & _)%elem_of_neighbours.
  rewrite neighbours_length. by apply lookup_lt_Some in Hq.
Qed.

Lemma block_cols_in_range off (blocks : list (list (list nat))) r c :
  (forall b r' c', b ∈ blocks -> c' ∈ getrow b r' -> c' < length b) ->
  c ∈ getrow (block_cols off blocks) r ->
  c < off + length (block_cols off blocks).
Proof.
  revert off r. induction blocks as [|b blocks IH]; intros off r Hb; cbn [block_cols].
  - unfold getrow. rewrite lookup_nil. by intros ?%elem_of_nil.
  - rewrite getrow_app, length_app, !length_map. destruct (decide _) as [Hr|Hr].
    + rewrite getrow_map. intros (c' & -> & Hc')%list_elem_of_fmap.
      pose proof (Hb b r c' ltac:(by left) Hc'). lia.
    + intros Hc%IH; [lia|]. intros b' r' c' Hb'. apply Hb. by right.
Qed.

Lemma elem_of_concat {A : Type} (x : A) (ls : list (list A)) :
  x ∈ concat ls -> exists l, x ∈ l /\ l ∈ ls.
Proof.
  induction ls as [|l ls IH]; cbn [concat]; [by intros ?%elem_of_nil|].
  intros [Hx|Hx]%elem_of_app.
  - exists l. split; [done | by left].
  - destruct (IH Hx) as (l' & Hx' & Hl'). exists l'. split; [done | by right].
Qed.

(** Every column of the batch adjacency matrix is one of its rows, so
    selecting rows by source atom (lines 155, 158, 168 and 170) cannot
    fail. *)
Lemma batch_cols_in_range cutoff exs :
  forallb (fun r => bool_decide (r < length (batch_cols cutoff exs)))
          (concat (batch_cols cutoff exs)) = true.
Proof.
  apply forallb_forall. intros c Hc. apply bool_decide_eq_true_2.
  apply list_elem_of_In, elem_of_concat in Hc as (row & Hc & Hrow).
  apply list_elem_of_lookup in Hrow as [r Hrow].
  apply (block_cols_in_range 0 _ r c).
  - intros b r' c' (e & -> & _)%list_elem_of_fmap. apply neighbours_in_range.
  - fold (batch_cols cutoff exs). unfold getrow. by rewrite Hrow.
Qed.

(** When the adjacency matrix of every structure can be built, the index
    arrays are returned if the batch has at least one edge, and
    [_bmat_fast] raises otherwise. *)
Lemma batch_graph_returns cutoff exs mats :
  mapM (adjacency cutoff) exs = Ok mats ->
  batch_graph cutoff exs
  = match concat (batch_cols cutoff exs) with
    | [] => Raise ValueError
    | _ :: _ => Ok (graph_of_cols (batch_cols cutoff exs))
    end.
Proof.
  intros Hmats. rewrite (batch_graph_spec _ _ _ Hmats), batch_cols_in_range. done.
Qed.

End returns.

(** A batch without any edge is not assembled: two atoms one unit apart
    with cutoff 0.5. *)
Lemma batch_without_edges :
  (__call__ (plain (1 # 2)) [0] (sample_world [pair_apart])).1 = Raise ValueError.
Proof. vm_compute. reflexivity. Qed.

(** ** The zero displacement *)

Lemma Qplus_zero (x : Q) : (x + 0)%Q = x.
Proof.
  destruct x as [n d]. unfold Qplus. cbn [Qnum Qden].
  by rewrite Z.mul_1_r, Z.mul_0_l, Z.add_0_r, Pos.mul_1_r.
Qed.

(** Adding the zero displacement leaves a position as it is, bit for
    bit. *)
Lemma padd_origin (p : point) : padd p origin = p.
Proof. destruct p as [[x y] z]. unfold padd, origin. by rewrite !Qplus_zero. Qed.

Lemma zip_with_padd_origin (R : list point) :
  zip_with padd R (replicate (length R) origin) = R.
Proof. induction R as [|p R IH]; [done|]. cbn. by rewrite padd_origin, IH. Qed.

(** ** Calling twice *)

Section twice.
Context {T : Type}.
Implicit Types (self : AtomsCollate T) (examples : list loc) (w : world) (e : loc).

Lemma dict_set_same {V : Type} k (v : V) (d : dict V) :
  dict_get k d = Some v -> dict_set k v d = d.
Proof.
  induction d as [|[k' v'] d IH]; cbn [dict_get dict_set]; [done|].
  destruct (String.eqb_spec k k') as [->|Hne].
  - by intros [= ->].
  - intros Hd. by rewrite IH.
Qed.

Lemma deref_lookup e w (d : dict value) : heap w !! e = Some d -> deref e w = d.
Proof. intros Hd. exact (f_equal (default []) Hd). Qed.







End twice.

(** ** The triangle *)

Section triangle.
Context {T : Type}.
Implicit Types (self : AtomsCollate T) (w : world) (e : loc) (p q : point).

Lemma run_restore_shape w e (d : dict value) (r : value) (R : list point) :
  deref e w = d -> dict_get "R" d = Some r -> reshape3 r = Ok (Float2 R) ->
  _restore_shape [e] w
  = (Ok [e], World (<[e := dict_set "R" (Float2 R) d]> (heap w)) (np_random w)).
Proof.
  intros Hd HR Hr. unfold _restore_shape. cbn [forM_].
  unfold mbind, M_bind, bindM, mret, M_ret, retM, getitem, liftM, setitem.
  rewrite Hd, HR. cbn [of_option]. by rewrite Hr.
Qed.

Lemma run_augment self w e (d : dict value) (R : list point) :
  (rand_cov self == 0)%Q -> rotate self = false ->
  deref e w = d -> dict_get "R" d = Some (Float2 R) ->
  exists w',
    augment self [e] w = (Ok (), w') /\
    deref e w' = dict_set "R" (Float2 R) (dict_set "R_orig" (Float2 R) d).
Proof.
  intros Hcov%Qeq_bool_iff Hrot Hd HR. unfold augment. rewrite Hrot. cbn [forM_].
  unfold mbind, M_bind, bindM, mret, M_ret, retM, getitem, liftM, setitem,
    _get_rand_norm_3d.
  rewrite Hd, HR. cbn [of_option coords fst snd heap np_random].
  rewrite Hcov, zip_with_padd_origin.
  eexists. split; [reflexivity|].
  rewrite deref_insert_eq. f_equal. rewrite deref_insert_eq. f_equal.
  unfold deref in *. cbn [heap]. exact Hd.
Qed.

(** What a call without augmentation does with a single example: the
    example is left with its positions as ['R'] and as ['R_orig'], and
    is collated in that state. *)
Lemma plain_call_single self w e (d : dict value) (r : value) (R : list point) :
  (rand_cov self == 0)%Q -> rotate self = false ->
  deref e w = d -> dict_get "R" d = Some r -> reshape3 r = Ok (Float2 R) ->
  exists w',
    __call__ self [e] w
    = (collate self [dict_set "R" (Float2 R)
                       (dict_set "R_orig" (Float2 R) (dict_set "R" (Float2 R) d))], w').
Proof.
  intros Hcov Hrot Hd HR Hr. unfold __call__.
  unfold mbind at 1, M_bind at 1, bindM at 1.
  rewrite (run_restore_shape w e d r R Hd HR Hr).
  destruct (run_augment self
              (World (<[e := dict_set "R" (Float2 R) d]> (heap w)) (np_random w))
              e (dict_set "R" (Float2 R) d) R Hcov Hrot) as (w' & Haug & Hd').
  { apply deref_insert_eq. }
  { apply dict_get_set_eq. }
  unfold mbind at 1, M_bind at 1, bindM at 1. rewrite Haug.
  unfold mbind, M_bind, bindM, the_world, liftM. cbn [map fmap list_fmap].
  rewrite Hd'. by exists w'.
Qed.

Lemma concat_single (v : value) : exists v', _concat [v] = Ok v'.
Proof. destruct v; eexists; reflexivity. Qed.

Lemma dict_get_key {V : Type} (d : dict V) k : k ∈ keys d -> is_Some (dict_get k d).
Proof.
  unfold keys. induction d as [|[k' v] d IH]; cbn [map fmap list_fmap dict_get].
  - by intros ?%elem_of_nil.
  - intros Hk. destruct (String.eqb_spec k k') as [->|Hne]; [by eauto|].
    apply IH. apply elem_of_cons in Hk as [?|?]; [done | done].
Qed.

Lemma mapM_ok {A B : Type} (f : A -> result B) (l : list A) :
  (forall a, a ∈ l -> exists b, f a = Ok b) -> exists bs, mapM f l = Ok bs.
Proof.
  induction l as [|a l IH]; intros Hf; [by eexists|].
  destruct (Hf a ltac:(by left)) as [b Hb].
  destruct IH as [bs Hbs]; [intros a' Ha'; apply Hf; by right|].
  exists (b :: bs). cbn [mapM]. by rewrite Hb, Hbs.
Qed.

(** The fields of a single example can always be stacked. *)
Lemma concat_fields_single (d : dict value) : exists data, concat_fields [d] = Ok data.
Proof.
  unfold concat_fields. cbn [head of_option mbind result_bind].
  apply mapM_ok. intros k [v Hv]%dict_get_key.
  cbn [mapM]. rewrite Hv. cbn [of_option mbind result_bind].
  destruct (concat_single v) as [v' ->]. by eexists.
Qed.

(** The adjacency matrix of three atoms that are all within the cutoff
    of each other. *)
Lemma triangle_adjacency (c : Q) (d : dict value) (p0 p1 p2 : point) (Z : value) :
  dict_get "R" d = Some (Float2 [p0; p1; p2]) ->
  dict_get "Z" d = Some Z -> len Z = Ok 3 ->
  (0 <= c)%Q ->
  finite p0 = true -> finite p1 = true -> finite p2 = true ->
  within c p0 p1 = true -> within c p0 p2 = true -> within c p1 p2 = true ->
  adjacency c d = Ok (of_cols [[1; 2]; [0; 2]; [0; 1]] 3).
Proof.
  intros HR HZ Hlen Hc F0 F1 F2 H01 H02 H12. unfold adjacency.
  rewrite HR, HZ. cbn [of_option coords mbind result_bind map]. rewrite Hlen.
  cbn [mbind result_bind].
  rewrite !within_refl by done.
  rewrite (within_sym c p1 p0), (within_sym c p2 p0), (within_sym c p2 p1), H01, H02, H12.
  reflexivity.
Qed.

End triangle.

(** C6.  One structure with three atoms at finite positions, each pair
    of them within the cutoff as line 141 tests it (the equilateral
    triangle of side 1.0 with cutoff 2.0 is such a structure), its
    positions stored flat or as a 3 x 3 array, no augmentation.  The call
    returns a batch with exactly six directed edges and exactly six
    triplets: edge number [n] has exactly the triplet number [n]
    ([id_reduce_ji = 0 .. 5]), and its [k] is the atom that is neither [i]
    nor [j]. *)
Theorem triangle_edges_and_triplets {T : Type} (self : AtomsCollate T)
    (w : world) (e : loc) (r : value) (p0 p1 p2 : point) (Z : value) :
  (rand_cov self == 0)%Q -> rotate self = false ->
  dict_get "R" (deref e w) = Some r -> reshape3 r = Ok (Float2 [p0; p1; p2]) ->
  dict_get "Z" (deref e w) = Some Z -> len Z = Ok 3 ->
  (0 <= cutoff self)%Q ->
  finite p0 = true -> finite p1 = true -> finite p2 = true ->
  within (cutoff self) p0 p1 = true ->
  within (cutoff self) p0 p2 = true ->
  within (cutoff self) p1 p2 = true ->
  exists out w',
    __call__ self [e] w = (Ok out, w') /\
    carries self out
      {| idnb_i := [0; 0; 1; 1; 2; 2];
         idnb_j := [1; 2; 0; 2; 0; 1];
         id3dnb_i := [0; 0; 1; 1; 2; 2];
         id3dnb_j := [1; 2; 0; 2; 0; 1];
         id3dnb_k := [2; 1; 2; 0; 1; 0];
         id_expand_kj := [3; 5; 1; 4; 0; 2];
         id_reduce_ji := [0; 1; 2; 3; 4; 5] |}.
Proof.
  intros Hcov Hrot HR Hr HZ Hlen Hc F0 F1 F2 H01 H02 H12.
  destruct (plain_call_single self w e (deref e w) r [p0; p1; p2] Hcov Hrot eq_refl HR Hr)
    as (w' & Hcall).
  set (d' := dict_set "R" _ _) in Hcall.
  assert (dict_get "R" d' = Some (Float2 [p0; p1; p2])) as HR' by apply dict_get_set_eq.
  assert (dict_get "Z" d' = Some Z) as HZ'.
  { unfold d'. by rewrite !dict_get_set_ne. }
  pose proof (triangle_adjacency (cutoff self) d' p0 p1 p2 Z HR' HZ' Hlen Hc F0 F1 F2
                H01 H02 H12) as Hadj.
  assert (batch_graph (cutoff self) [d']
          = Ok (Graph [0; 0; 1; 1; 2; 2] [1; 2; 0; 2; 0; 1]
                      [0; 0; 1; 1; 2; 2] [1; 2; 0; 2; 0; 1] [2; 1; 2; 0; 1; 0]
                      [3; 5; 1; 4; 0; 2] [0; 1; 2; 3; 4; 5])) as Hg.
  { unfold batch_graph. cbn [mapM]. rewrite Hadj. reflexivity. }
  destruct (concat_fields_single d') as [data Hdata].
  assert (exists out, collate self [d'] = Ok out) as [out Hout].
  { unfold collate. rewrite Hdata, Hg. cbn [mbind result_bind mapM].
    rewrite HZ'. cbn [of_option mbind result_bind]. rewrite Hlen.
    by eexists. }
  exists out, w'. split; [by rewrite Hcall, Hout|].
  apply collate_carries in Hout as (g & Hg' & Hcarries).
  rewrite Hg in Hg'. by injection Hg' as <-.
Qed.

Lemma triangle_edges_and_triplets_witness :
  exists out w',
    __call__ (plain 2) [0] (sample_world [unit_triangle]) = (Ok out, w') /\
    carries (plain 2) out
      {| idnb_i := [0; 0; 1; 1; 2; 2];
         idnb_j := [1; 2; 0; 2; 0; 1];
         id3dnb_i := [0; 0; 1; 1; 2; 2];
         id3dnb_j := [1; 2; 0; 2; 0; 1];
         id3dnb_k := [2; 1; 2; 0; 1; 0];
         id_expand_kj := [3; 5; 1; 4; 0; 2];
         id_reduce_ji := [0; 1; 2; 3; 4; 5] |}.
Proof.
  apply (triangle_edges_and_triplets (plain 2) (sample_world [unit_triangle]) 0
           (Float2 [(0, 0, 0); (1, 0, 0);
                    (1 # 2, 3900231685776981 # 4503599627370496, 0)]%Q)
           (0, 0, 0)%Q (1, 0, 0)%Q (1 # 2, 3900231685776981 # 4503599627370496, 0)%Q
           (Int1 [6; 6; 6]%Z));
    try reflexivity; vm_compute; (reflexivity || by intros [=]).
Defined.

(** * Further properties of the loader *)

(** ** Places in a concatenation *)

Lemma lookup_concat_inv {A : Type} (ls : list (list A)) n x :
  concat ls !! n = Some x ->
  exists s o, n = sum_list (take s (map length ls)) + o /\ getrow ls s !! o = Some x.
Proof.
  revert n. induction ls as [|l ls IH]; intros n; cbn [concat]; [done|].
  destruct (decide (n < length l)) as [Hn|Hn].
  - rewrite lookup_app_l by done. intros Hx. exists 0, n. by split.
  - rewrite lookup_app_r by lia. intros (s & o & Heq & Hx)%IH.
    exists (S s), o. split; [|done]. cbn. lia.
Qed.

Section places.
Context {A : Type}.
Implicit Types (ls : list (list A)).

Lemma length_getrow_lt ls s o : o < length (getrow ls s) -> s < length ls.
Proof.
  unfold getrow. intros Ho. destruct (ls !! s) eqn:Hs; cbn in Ho; [|lia].
  by apply lookup_lt_Some in Hs.
Qed.

(** The tag of position [n] of a concatenation: the number of the
    segment the position lies in. *)
Lemma lookup_tags ls n s :
  concat (imap (fun s l => replicate (length l) s) ls) !! n = Some s <->
  exists o, n = sum_list (take s (map length ls)) + o /\ o < length (getrow ls s).
Proof.
  assert (map length (imap (fun s l => replicate (length l) s) ls) = map length ls) as Hlen.
  { apply list_eq. intros r. rewrite !list_lookup_fmap, list_lookup_imap.
    destruct (ls !! r); simpl; [|done]. by rewrite length_replicate. }
  split.
  - intros (s' & o & -> & Ho)%lookup_concat_inv. rewrite Hlen.
    unfold getrow in *. rewrite list_lookup_imap in Ho.
    destruct (ls !! s') as [l|] eqn:Hl; cbn in Ho; [|done].
    apply lookup_replicate in Ho as [-> Ho]. exists o. rewrite Hl. by split.
  - intros (o & -> & Ho). rewrite <- Hlen. apply lookup_concat_offset.
    unfold getrow in *. rewrite list_lookup_imap.
    destruct (ls !! s) as [l|]; cbn in *; [|lia]. by apply lookup_replicate_2.
Qed.

Lemma place_unique ls s o s' o' :
  sum_list (take s (map length ls)) + o = sum_list (take s' (map length ls)) + o' ->
  o < length (getrow ls s) -> o' < length (getrow ls s') -> s = s' /\ o = o'.
Proof.
  intros Heq Ho Ho'.
  assert (concat (imap (fun s l => replicate (length l) s) ls)
            !! (sum_list (take s (map length ls)) + o) = Some s) as H1.
  { apply lookup_tags. eauto. }
  assert (concat (imap (fun s l => replicate (length l) s) ls)
            !! (sum_list (take s (map length ls)) + o) = Some s') as H2.
  { apply lookup_tags. eauto. }
  rewrite H1 in H2. injection H2 as <-. split; [done | lia].
Qed.

End places.

(** ** Atoms and entries of the batch matrix *)

Section block_places.
Implicit Types (blocks : list (list (list nat))) (cutoff : Q) (exs : list (dict value)).

(** The entries of the block-diagonal arrangement: row [r'] of block [s]
    is row [start + r'], where [start] counts the rows of the blocks before
    [s], and its columns are shifted by the same amount. *)
Lemma elem_of_block_cols_iff off blocks r c :
  c ∈ getrow (block_cols off blocks) r <->
  exists s r' c',
    r = sum_list (take s (map length blocks)) + r' /\
    c = off + sum_list (take s (map length blocks)) + c' /\
    c' ∈ getrow (getrow blocks s) r'.
Proof.
  revert off r. induction blocks as [|b blocks IH]; intros off r; cbn [block_cols].
  - split.
    + unfold getrow. rewrite lookup_nil. by intros ?%elem_of_nil.
    + intros (s & r' & c' & _ & _ & Hc). unfold getrow in Hc.
      rewrite lookup_nil in Hc. cbn in Hc. rewrite lookup_nil in Hc. by apply elem_of_nil in Hc.
  - rewrite getrow_app, length_map. split.
    + destruct (decide _) as [Hr|Hr].
      * rewrite getrow_map. intros (c' & -> & Hc')%list_elem_of_fmap.
        exists 0, r, c'. cbn. split; [done|]. split; [lia | done].
      * intros (s & r' & c' & Hr' & -> & Hc')%IH.
        exists (S s), r', c'. cbn. split; [lia|]. split; [lia | done].
    + intros ([|s] & r' & c' & -> & -> & Hc'); cbn in *.
      * assert (r' < length b) as Hlt.
        { unfold getrow in Hc'. destruct (b !! r') eqn:Hb; [by apply lookup_lt_Some in Hb|].
          by apply elem_of_nil in Hc'. }
        rewrite decide_True by done. rewrite getrow_map.
        apply list_elem_of_fmap. exists c'. split; [lia | done].
      * rewrite decide_False by lia. apply IH. exists s, r', c'.
        split; [lia|]. split; [lia | done].
Qed.

Lemma first_atoms cutoff exs s :
  sum_list (take s (map length (map (fun e => neighbours cutoff (positions e)) exs)))
  = sum_list (take s (map length (map positions exs))).
Proof.
  f_equal. f_equal. rewrite <- !list_fmap_compose. apply list_fmap_ext.
  intros _ e _. cbn. apply neighbours_length.
Qed.

Lemma getrow_fmap_positions {B : Type} (f : dict value -> list B) exs s :
  getrow (map f exs) s = match exs !! s with Some e => f e | None => [] end.
Proof. unfold getrow. rewrite list_lookup_fmap. by destruct (exs !! s). Qed.

Lemma segments_tags exs :
  segments exs = concat (imap (fun s l => replicate (length l) s) (map positions exs)).
Proof.
  unfold segments, np.arange. rewrite repeat_each_concat. f_equal.
  apply list_eq. intros s. rewrite lookup_zip_with, list_lookup_imap, !list_lookup_fmap.
  destruct (exs !! s) as [e|] eqn:He; cbn.
  - rewrite lookup_seq_lt by (by apply lookup_lt_Some in He). done.
  - rewrite lookup_seq_ge by (by apply lookup_ge_None in He). done.
Qed.

Lemma segments_length exs : length (segments exs) = length (batch_positions exs).
Proof.
  unfold segments, batch_positions, np.arange.
  rewrite repeat_each_length by (by rewrite length_seq, length_map).
  by rewrite length_concat_sum, <- list_fmap_compose.
Qed.

(** Atom [a] of the batch is atom [r] of structure [s]. *)
Lemma atom_place exs a p s :
  batch_positions exs !! a = Some p -> segments exs !! a = Some s ->
  exists r, a = sum_list (take s (map length (map positions exs))) + r /\
            getrow (map positions exs) s !! r = Some p.
Proof.
  unfold batch_positions. rewrite segments_tags.
  intros (s' & r & -> & Hp)%lookup_concat_inv (o & Heq & Ho)%lookup_tags.
  destruct (place_unique _ _ _ _ _ Heq (lookup_lt_Some _ _ _ Hp) Ho) as [-> ->].
  by exists o.
Qed.

Lemma place_atom exs s r p :
  getrow (map positions exs) s !! r = Some p ->
  batch_positions exs !! (sum_list (take s (map length (map positions exs))) + r) = Some p /\
  segments exs !! (sum_list (take s (map length (map positions exs))) + r) = Some s.
Proof.
  intros Hp. split.
  - by apply lookup_concat_offset.
  - rewrite segments_tags. apply lookup_tags. exists r. split; [done|].
    by apply lookup_lt_Some in Hp.
Qed.

(** An entry of the batch adjacency matrix. *)
Lemma batch_cols_entry cutoff exs i j :
  j ∈ getrow (batch_cols cutoff exs) i <->
  exists p q s,
    batch_positions exs !! i = Some p /\ batch_positions exs !! j = Some q /\
    segments exs !! i = Some s /\ segments exs !! j = Some s /\
    sp.bool_minus (within cutoff p q) (Nat.eqb i j) = true.
Proof.
  unfold batch_cols. rewrite elem_of_block_cols_iff. split.
  - intros (s & r & c & -> & -> & Hc). rewrite first_atoms.
    rewrite getrow_fmap_positions in Hc.
    destruct (exs !! s) as [e|] eqn:He.
    2:{ unfold getrow in Hc. rewrite lookup_nil in Hc. by apply elem_of_nil in Hc. }
    apply elem_of_neighbours in Hc as (p & q & Hp & Hq & Hb).
    assert (getrow (map positions exs) s = positions e) as Hrow.
    { by rewrite getrow_fmap_positions, He. }
    destruct (place_atom exs s r p) as [Hp1 Hp2]; [by rewrite Hrow|].
    destruct (place_atom exs s c q) as [Hq1 Hq2]; [by rewrite Hrow|].
    exists p, q, s. cbn [Nat.add]. repeat split; try done.
    rewrite <- Hb. f_equal.
    destruct (Nat.eqb_spec r c), (Nat.eqb_spec (sum_list (take s (map length (map positions exs))) + r)
      (sum_list (take s (map length (map positions exs))) + c)); try done; lia.
  - intros (p & q & s & Hp & Hq & Hsi & Hsj & Hb).
    destruct (atom_place exs i p s Hp Hsi) as (r & -> & Hr).
    destruct (atom_place exs j q s Hq Hsj) as (c & -> & Hc).
    exists s, r, c. rewrite first_atoms. split; [done|]. split; [done|].
    rewrite getrow_fmap_positions. rewrite getrow_fmap_positions in Hr, Hc.
    destruct (exs !! s) as [e|]; [|done].
    apply elem_of_neighbours. exists p, q. split; [done|]. split; [done|].
    rewrite <- Hb. f_equal.
    destruct (Nat.eqb_spec r c), (Nat.eqb_spec (sum_list (take s (map length (map positions exs))) + r)
      (sum_list (take s (map length (map positions exs))) + c)); try done; lia.
Qed.

End block_places.

Lemma edge_of_cols (cols : list (list nat)) i j :
  edge (graph_of_cols cols) i j <-> j ∈ getrow cols i.
Proof.
  unfold edge. cbn [graph_of_cols idnb_i idnb_j]. split.
  - intros (n & Hi & Hj).
    exact (Forall2_lookup_lr _ _ _ n i j (edges_in_rows cols) Hi Hj).
  - intros [o Ho]%list_elem_of_lookup.
    exists (sum_list (take i (map length cols)) + o). split.
    + apply lookup_targets. by apply lookup_lt_Some in Ho.
    + by apply lookup_sources.
Qed.

(** ** Fields of dictionaries *)

Section fields.
Context {V : Type}.
Implicit Types (d : dict V) (k : string).

Lemma dict_get_is_Some d k : is_Some (dict_get k d) <-> k ∈ keys d.
Proof.
  split; [|apply dict_get_key].
  unfold keys. induction d as [|[k' v] d IH]; cbn [map dict_get].
  - by intros [? ?].
  - destruct (String.eqb_spec k k') as [->|Hne]; [by left|]. intros ?%IH. by right.
Qed.

Lemma dict_get_None d k : dict_get k d = None <-> k ∉ keys d.
Proof.
  rewrite <- dict_get_is_Some. destruct (dict_get k d) as [v|]; split; try done.
  - intros H. exfalso. apply H. by eexists.
Qed.

(** A dictionary comprehension over the keys [ks]. *)
Lemma comprehension_get (g : string -> result (string * V)) (ks : list string) d k :
  (forall k p, g k = Ok p -> p.1 = k) ->
  mapM g ks = Ok d ->
  keys d = ks /\
  (k ∈ ks -> exists v, g k = Ok (k, v) /\ dict_get k d = Some v).
Proof.
  intros Hg. revert d. induction ks as [|k' ks IH]; intros d; cbn [mapM].
  - intros [= <-]. split; [done|]. by intros ?%elem_of_nil.
  - destruct (g k') as [[k'' v']|] eqn:Hv'; cbn [mbind result_bind]; [|done].
    pose proof (Hg k' _ Hv') as Hk''. cbn in Hk''. subst k''.
    destruct (mapM _ ks) as [d'|]; cbn [mbind result_bind]; [|done].
    intros [= <-]. destruct (IH d' eq_refl) as [Hkeys Hget].
    split; [unfold keys in *; cbn; by rewrite Hkeys|].
    intros Hk. cbn [dict_get]. destruct (String.eqb_spec k k') as [->|Hne]; [by eauto|].
    apply Hget. by apply elem_of_cons in Hk as [?|?].
Qed.

End fields.

Section stacking.
Implicit Types (exs : list (dict value)) (k : string).

(** Lines 132-135: the stacked fields are those of the first example, in
    its order, each the stack of that field over the examples. *)
Lemma concat_fields_get exs data :
  concat_fields exs = Ok data ->
  exists first, head exs = Some first /\ keys data = keys first /\
    forall k, k ∈ keys first ->
      exists to_stack v,
        mapM (fun e => of_option KeyError (dict_get k e)) exs = Ok to_stack /\
        _concat to_stack = Ok v /\ dict_get k data = Some v.
Proof.
  unfold concat_fields. destruct (head exs) as [first|]; cbn [of_option mbind result_bind];
    [|done].
  intros Hdata. exists first. split; [done|].
  assert (forall k p,
             (to_stack ← mapM (fun e => of_option KeyError (dict_get k e)) exs;
              v ← _concat to_stack; Ok (k, v)) = Ok p -> p.1 = k) as Hg.
  { intros k p. destruct (mapM _ exs) as [to_stack|]; cbn [mbind result_bind]; [|done].
    destruct (_concat to_stack) as [v|]; cbn [mbind result_bind]; [|done]. by intros [= <-]. }
  split; [exact (proj1 (comprehension_get _ _ _ "" Hg Hdata))|].
  intros k Hk. destruct (proj2 (comprehension_get _ _ _ k Hg Hdata) Hk) as (v & Hv & Hget).
  destruct (mapM _ exs) as [to_stack|]; cbn [mbind result_bind] in Hv; [|done].
  destruct (_concat to_stack) as [v'|] eqn:Hc; cbn [mbind result_bind] in Hv; [|done].
  injection Hv as <-. by exists to_stack, v'.
Qed.

End stacking.

Lemma dict_get_name_dropped {V T : Type} (f : V -> T) (d : dict V) :
  dict_get "name"
    (omap (fun '(k, v) => if String.eqb k "name" then None else Some (k, f v)) d) = None.
Proof.
  induction d as [|[k' v'] d IH]; simpl; [done|].
  destruct (String.eqb_spec k' "name") as [->|Hne]; [done|].
  cbn [dict_get]. rewrite String.eqb_sym.
  destruct (String.eqb_spec k' "name") as [->|_]; [done | exact IH].
Qed.

Lemma batch_graph_adjacency cutoff (exs : list (dict value)) g :
  batch_graph cutoff exs = Ok g -> exists mats, mapM (adjacency cutoff) exs = Ok mats.
Proof.
  unfold batch_graph. destruct (mapM _ exs) as [mats|]; [by eauto | done].
Qed.

(** The atom counts of line 172 are the numbers of positions, because
    the adjacency matrices could be built. *)
Lemma atom_counts cutoff (exs : list (dict value)) mats N :
  mapM (adjacency cutoff) exs = Ok mats ->
  mapM (fun e => Z ← of_option KeyError (dict_get "Z" e); len Z) exs = Ok N ->
  N = map (fun e => length (positions e)) exs.
Proof.
  revert mats N. induction exs as [|e exs IH]; intros mats N; cbn [mapM].
  - by intros _ [= <-].
  - destruct (adjacency cutoff e) as [m|] eqn:Hm; cbn [mbind result_bind]; [|done].
    destruct (mapM (adjacency cutoff) exs) as [ms|]; cbn [mbind result_bind]; [|done].
    intros _. apply adjacency_len in Hm as (Z & -> & HZ).
    cbn [of_option mbind result_bind]. rewrite HZ. cbn [mbind result_bind].
    destruct (mapM _ exs) as [N'|]; cbn [mbind result_bind]; [|done].
    intros [= <-]. cbn. f_equal. by apply (IH ms).
Qed.


Section assembled.
Context {T : Type}.
Implicit Types (self : AtomsCollate T) (exs : list (dict value)) (out : dict T) (k : string).

(** The fields of the batch: the index arrays, and the stacked fields
    that the index arrays do not replace. *)
Lemma collate_fields self exs out :
  collate self exs = Ok out ->
  exists data,
    concat_fields exs = Ok data /\
    carries self out (graph_of_cols (batch_cols (cutoff self) exs)) /\
    dict_get "batch_seg" out = Some (post_fn self (ints (segments exs))) /\
    (forall k, k ∉ index_fields -> k <> "name"%string ->
               dict_get k out = post_fn self <$> dict_get k data) /\
    dict_get "name" out = None /\
    (forall k, k ∈ index_fields -> is_Some (dict_get k out)).
Proof.
  intros Hout. destruct (collate_carries self exs out Hout) as (g & Hg & Hcarries).
  pose proof (batch_graph_cols _ _ _ Hg) as Hcols. subst g.
  destruct (batch_graph_adjacency _ _ _ Hg) as [mats Hmats].
  unfold collate in Hout. rewrite Hg in Hout.
  destruct (concat_fields exs) as [data|]; cbn [mbind result_bind] in Hout; [|done].
  destruct (mapM _ exs) as [N|] eqn:HN; cbn [mbind result_bind] in Hout; [|done].
  apply (atom_counts _ _ _ _ Hmats) in HN as ->.
  unfold np.repeat in Hout. destruct (decide _); cbn [mbind result_bind] in Hout; [|done].
  injection Hout as <-.
  exists data. split; [done|]. split; [done|].
  split; [rewrite dict_get_converted by done; by rewrite dict_get_set_eq|].
  split.
  { intros k Hk Hname. rewrite dict_get_converted by done. f_equal.
    rewrite !dict_get_set.
    repeat match goal with
           | |- context [String.eqb k ?s] =>
               destruct (String.eqb_spec k s) as [Heq|_];
               [exfalso; apply Hk; rewrite Heq; by repeat constructor|]
           end.
    done. }
  split; [apply dict_get_name_dropped|].
  intros k Hk. rewrite dict_get_converted.
  2:{ intros ->. repeat (apply elem_of_cons in Hk as [?|Hk]; [done|]).
      by apply elem_of_nil in Hk. }
  rewrite !dict_get_set.
  repeat match goal with
         | |- context [String.eqb k ?s] =>
             destruct (String.eqb_spec k s) as [Heq|?]; [by eexists|]
         end.
  exfalso. repeat (apply elem_of_cons in Hk as [?|Hk]; [done|]).
  by apply elem_of_nil in Hk.
Qed.

End assembled.

(** ** Loops over the examples *)

Section loop_rules.

Lemma forM_establishes (P : loc -> world -> Prop) (body : loc -> M ()) :
  (forall e w, (body e w).1 = Ok () -> P e (body e w).2) ->
  (forall e e0 w, P e0 w -> P e0 (body e w).2) ->
  forall examples w,
    (forM_ examples body w).1 = Ok () ->
    Forall (fun e => P e (forM_ examples body w).2) examples.
Proof.
  intros Hest Hstable examples.
  assert (forall l e0 w, P e0 w -> P e0 (forM_ l body w).2) as Hloop.
  { induction l as [|e l IH]; intros e0 w H0; cbn [forM_]; [done|].
    unfold mbind, M_bind, bindM. specialize (Hstable e e0 w H0).
    destruct (body e w) as [[[]|err] w1]; cbn [snd] in *; [by apply IH | done]. }
  induction examples as [|e examples IH]; intros w; cbn [forM_]; [by constructor|].
  unfold mbind, M_bind, bindM. specialize (Hest e w).
  destruct (body e w) as [[[]|err] w1]; cbn [fst snd] in *; [|done].
  intros Hok. constructor; [|by apply IH]. by apply Hloop, Hest.
Qed.

Lemma forM_each (Q : dict value -> dict value -> Prop) (body : loc -> M ()) :
  (forall e w, (body e w).1 = Ok () -> Q (deref e w) (deref e (body e w).2)) ->
  (forall e e0 w, e0 <> e -> deref e0 (body e w).2 = deref e0 w) ->
  forall examples w,
    NoDup examples -> (forM_ examples body w).1 = Ok () ->
    (forall e, e ∈ examples -> Q (deref e w) (deref e (forM_ examples body w).2)) /\
    (forall e0, e0 ∉ examples -> deref e0 (forM_ examples body w).2 = deref e0 w).
Proof.
  intros Hround Hframe examples.
  induction examples as [|e examples IH]; intros w Hnd; cbn [forM_].
  { intros _. split; [by intros e ?%elem_of_nil | done]. }
  apply NoDup_cons in Hnd as [Hnotin Hnd].
  unfold mbind, M_bind, bindM. specialize (Hround e w).
  pose proof (fun e0 => Hframe e e0 w) as Hf.
  destruct (body e w) as [[[]|err] w1]; cbn [fst snd] in *; [|done].
  intros Hok. destruct (IH w1 Hnd Hok) as [IHin IHout]. split.
  - intros e0 [->|Hin]%elem_of_cons.
    + rewrite (IHout e Hnotin). by apply Hround.
    + rewrite <- (Hf e0); [by apply IHin|]. by intros ->.
  - intros e0 [Hne Hnotin0]%not_elem_of_cons. rewrite (IHout e0 Hnotin0). by apply Hf.
Qed.

End loop_rules.

(** ** One round of each loop *)

Section rounds.
Context {T : Type}.
Implicit Types (self : AtomsCollate T) (examples : list loc) (w : world) (e : loc).

(** One round of the loop of [_restore_shape]. *)
Lemma restore_round e w :
  let body := (r ← getitem e "R"; r' ← liftM (reshape3 r); setitem e "R" r') in
  match dict_get "R" (deref e w) with
  | Some r =>
      match reshape3 r with
      | Ok r' => body w = (Ok (), World (<[e := dict_set "R" r' (deref e w)]> (heap w))
                                        (np_random w))
      | Raise err => body w = (Raise err, w)
      end
  | None => body w = (Raise KeyError, w)
  end.
Proof.
  cbn zeta. unfold mbind, M_bind, bindM, getitem, liftM, setitem.
  destruct (dict_get "R" (deref e w)) as [r|]; cbn [of_option]; [|done].
  by destruct (reshape3 r).
Qed.

(** One round of the loop of lines 124-130. *)
Lemma augment_round self e w :
  let body :=
    ((if rotate self
      then r ← getitem e "R"; c ← liftM (coords r); c' ← _random_rotate c;
           setitem e "R" (Float2 c')
      else mret ()) ;;
     r ← getitem e "R"; R ← liftM (coords r);
     deltas ← _get_rand_norm_3d (length R) (rand_cov self);
     setitem e "R_orig" (Float2 R);;
     setitem e "R" (Float2 (zip_with padd R deltas))) in
  (forall e0, e0 <> e -> deref e0 (body w).2 = deref e0 w) /\
  match dict_get "R" (deref e w) with
  | Some (Float2 R) =>
      exists R1 deltas,
        (body w).1 = Ok () /\ length R1 = length R /\ length deltas = length R /\
        (rotate self = false -> R1 = R) /\
        ((rand_cov self == 0)%Q -> deltas = replicate (length R) origin) /\
        forall k, dict_get k (deref e (body w).2)
                  = if String.eqb k "R" then Some (Float2 (zip_with padd R1 deltas))
                    else if String.eqb k "R_orig" then Some (Float2 R1)
                    else dict_get k (deref e w)
  | _ => (body w).1 <> Ok () /\ heap (body w).2 = heap w
  end.
Proof.
  cbn zeta. destruct w as [h g].
  unfold _random_rotate, rand_rotation_matrix, _get_rand_norm_3d.
  unfold mbind, M_bind, bindM, mret, M_ret, retM, getitem, liftM, setitem.
  destruct (rotate self) eqn:Hrot.
  - destruct (dict_get "R" (deref e (World h g))) as [[R|a|a|a|a|a]|] eqn:HR;
      cbn [of_option coords fst snd heap np_random].
    2-7: (split; [done|]; by split).
    rewrite !deref_insert_eq, dict_get_set_eq. cbn [of_option coords fst snd heap np_random].
    rewrite !deref_insert_eq.
    split.
    { intros e0 Hne. rewrite !deref_insert_ne by done. done. }
    eexists _, _. split_and!.
    6:{ intros k. rewrite !dict_get_set.
        destruct (String.eqb k "R"); [reflexivity|].
        destruct (String.eqb k "R_orig"); reflexivity. }
    + done.
    + by rewrite length_map.
    + rewrite length_map. destruct (Qeq_bool _ _);
        by rewrite ?length_replicate, ?length_map, ?length_seq.
    + done.
    + intros Hcov%Qeq_bool_iff. by rewrite Hcov, length_map.
  - destruct (dict_get "R" (deref e (World h g))) as [[R|a|a|a|a|a]|] eqn:HR;
      cbn [of_option coords fst snd heap np_random].
    2-7: (split; [done|]; by split).
    rewrite !deref_insert_eq.
    split.
    { intros e0 Hne. rewrite !deref_insert_ne by done. done. }
    eexists _, _. split_and!.
    6:{ intros k. rewrite !dict_get_set.
        destruct (String.eqb k "R"); [reflexivity|].
        destruct (String.eqb k "R_orig"); reflexivity. }
    + done.
    + done.
    + destruct (Qeq_bool _ _); by rewrite ?length_replicate, ?length_map, ?length_seq.
    + done.
    + intros Hcov%Qeq_bool_iff. by rewrite Hcov.
Qed.

End rounds.

#[local] Instance reshaped_preorder : PreOrder reshaped.
Proof.
  split.
  - intros w e. by left.
  - intros w1 w2 w3 H12 H23 e.
    destruct (H12 e) as [H1|(r & R & Hr & HR & H1)], (H23 e) as [H2|(r' & R' & Hr' & HR' & H2)].
    + left. congruence.
    + right. exists r', R'. rewrite <- H1. done.
    + right. exists r, R. rewrite H2. done.
    + right. exists r, R. split; [done|]. split; [done|].
      rewrite H1 in Hr'. injection Hr' as <-. cbn [reshape3] in HR'. congruence.
Qed.

(** ** Restoring the shape *)

Section restore.
Implicit Types (data : list loc) (w : world) (e : loc).

Lemma shaped_deref e w :
  shaped e w -> exists a, dict_get "R" (deref e w) = Some (Float2 a).
Proof. intros (d & a & Hd & HR). exists a. by rewrite (deref_lookup e w d Hd). Qed.

Lemma reshape3_shape r r' : reshape3 r = Ok r' -> exists R, r' = Float2 R.
Proof.
  destruct r as [a|a|a|a|a|a]; cbn [reshape3]; try done.
  - intros [= <-]. by eexists.
  - destruct (decide _); [|done]. intros [= <-]. by eexists.
Qed.

Lemma restore_round_reshaped e :
  preserves reshaped (r ← getitem e "R"; r' ← liftM (reshape3 r); setitem e "R" r').
Proof.
  intros w. pose proof (restore_round e w) as Hround. cbn zeta in Hround.
  destruct (dict_get "R" (deref e w)) as [r|] eqn:Hr; [|rewrite Hround; by intros e0; left].
  destruct (reshape3 r) as [r'|err] eqn:Hr'; rewrite Hround; [|by intros e0; left].
  cbn [snd]. intros e0. destruct (decide (e = e0)) as [<-|Hne].
  - right. destruct (reshape3_shape r r' Hr') as [R ->]. exists r, R.
    split; [done|]. split; [done|]. destruct w as [h g]. cbn [heap np_random].
    by rewrite deref_insert_eq, dict_get_set_eq.
  - left. destruct w as [h g]. cbn [heap np_random]. by rewrite deref_insert_ne.
Qed.

Lemma restore_round_shaped e w :
  let body := (r ← getitem e "R"; r' ← liftM (reshape3 r); setitem e "R" r') in
  ((body w).1 = Ok () -> shaped e (body w).2) /\
  (forall e0, shaped e0 w -> shaped e0 (body w).2).
Proof.
  pose proof (restore_round e w) as Hround. cbn zeta in *.
  destruct (dict_get "R" (deref e w)) as [r|] eqn:Hr; [|by rewrite Hround].
  destruct (reshape3 r) as [r'|err] eqn:Hr'; rewrite Hround; [|done].
  cbn [fst snd]. destruct (reshape3_shape r r' Hr') as [R ->].
  assert (shaped e (World (<[e := dict_set "R" (Float2 R) (deref e w)]> (heap w))
                          (np_random w))) as He.
  { eexists _, R. cbn [heap]. rewrite lookup_insert_eq. split; [done|].
    apply dict_get_set_eq. }
  split; [done|]. intros e0 (d0 & a & Hd0 & Ha).
  destruct (decide (e = e0)) as [<-|Hne]; [done|].
  exists d0, a. cbn [heap]. by rewrite lookup_insert_ne.
Qed.

(** What [_restore_shape] does when it returns: the positions of every
    example of [data] are in the [N x 3] layout, and the positions of
    any example are either as they were or the [N x 3] form of what they
    were. *)
Lemma restore_shape_spec data w r w1 :
  _restore_shape data w = (Ok r, w1) ->
  Forall (fun e => shaped e w1) data /\ reshaped w w1.
Proof.
  intros Hr. split.
  - unfold _restore_shape in Hr. unfold mbind at 1, M_bind at 1, bindM at 1 in Hr.
    pose proof (forM_establishes shaped
                  (fun d => r ← getitem d "R"; r' ← liftM (reshape3 r); setitem d "R" r')
                  (fun e w => proj1 (restore_round_shaped e w))
                  (fun e e0 w => proj2 (restore_round_shaped e w) e0) data w) as Hall.
    destruct (forM_ data _ w) as [[[]|err] w2]; [|done].
    injection Hr as _ <-. by apply Hall.
  - assert (preserves reshaped (_restore_shape data)) as Hp.
    { unfold _restore_shape.
      apply preserves_bind;
        [apply _ | | intros; apply preserves_unchanged; [apply _ | done]].
      apply preserves_forM; [apply _|]. intros d. apply restore_round_reshaped. }
    specialize (Hp w). by rewrite Hr in Hp.
Qed.

(** An example of [data] had positions that fit the [N x 3] layout. *)
Lemma restore_shape_positions_before data w r w1 e :
  _restore_shape data w = (Ok r, w1) -> e ∈ data ->
  exists r R, dict_get "R" (deref e w) = Some r /\ reshape3 r = Ok (Float2 R) /\
              dict_get "R" (deref e w1) = Some (Float2 R).
Proof.
  intros [Hall Hre]%restore_shape_spec He.
  rewrite Forall_forall in Hall. destruct (shaped_deref e w1 (Hall e He)) as [a Ha].
  destruct (Hre e) as [Heq|(r0 & R & Hr0 & HR & H1)]; [|by eauto].
  exists (Float2 a), a. by rewrite <- Heq.
Qed.

(** [_restore_shape] leaves examples in the [N x 3] layout as they
    are. *)
Lemma restore_shape_shaped data w :
  Forall (fun e => shaped e w) data -> _restore_shape data w = (Ok data, w).
Proof.
  intros Hall. unfold _restore_shape.
  unfold mbind at 1, M_bind at 1, bindM at 1.
  assert (forM_ data
            (fun d => r ← getitem d "R"; r' ← liftM (reshape3 r); setitem d "R" r') w
          = (Ok (), w)) as ->; [|done].
  induction Hall as [|e data (d & a & Hd & HR) _ IH]; cbn [forM_]; [done|].
  unfold mbind at 1, M_bind at 1, bindM at 1.
  pose proof (restore_round e w) as Hround. cbn zeta in Hround.
  rewrite (deref_lookup e w d Hd), HR in Hround. cbn [reshape3] in Hround.
  rewrite Hround, (dict_set_same "R" _ d HR), insert_id by done.
  destruct w. exact IH.
Qed.

End restore.


(** ** The stages of a call *)

Section stages.
Context {T : Type}.
Implicit Types (self : AtomsCollate T) (examples : list loc) (w : world) (e : loc)
  (out : dict T).

(** The three stages of a call that returns a batch. *)
Lemma call_stages self examples w out w' :
  __call__ self examples w = (Ok out, w') ->
  exists w1,
    _restore_shape examples w = (Ok examples, w1) /\
    augment self examples w1 = (Ok (), w') /\
    collate self (map (fun e => deref e w') examples) = Ok out.
Proof.
  intros Hcall. pose proof (call_collate self examples w out w' Hcall) as Hout.
  unfold __call__ in Hcall. unfold mbind at 1, M_bind at 1, bindM at 1 in Hcall.
  destruct (_restore_shape examples w) as [[r|] w1] eqn:Hr; [|done].
  pose proof (restore_shape_result _ _ _ _ Hr) as ->.
  unfold mbind at 1, M_bind at 1, bindM at 1 in Hcall.
  destruct (augment self examples w1) as [[[]|] w2] eqn:Haug; [|done].
  unfold mbind, M_bind, bindM, the_world, liftM in Hcall. injection Hcall as _ <-.
  by exists w1.
Qed.

Lemma augmented_of_fields (d d' : dict value) (R1 deltas : list point) :
  length deltas = length R1 ->
  (forall k, dict_get k d'
             = if String.eqb k "R" then Some (Float2 (zip_with padd R1 deltas))
               else if String.eqb k "R_orig" then Some (Float2 R1)
               else dict_get k d) ->
  augmented d'.
Proof.
  intros Hlen Hk. exists (zip_with padd R1 deltas), R1.
  rewrite !Hk. cbn. split; [done|]. split; [done|]. rewrite length_zip_with. lia.
Qed.

Lemma augment_round_augmented self e w :
  let body :=
    ((if rotate self
      then r ← getitem e "R"; c ← liftM (coords r); c' ← _random_rotate c;
           setitem e "R" (Float2 c')
      else mret ()) ;;
     r ← getitem e "R"; R ← liftM (coords r);
     deltas ← _get_rand_norm_3d (length R) (rand_cov self);
     setitem e "R_orig" (Float2 R);;
     setitem e "R" (Float2 (zip_with padd R deltas))) in
  ((body w).1 = Ok () -> augmented (deref e (body w).2)) /\
  (forall e0, augmented (deref e0 w) -> augmented (deref e0 (body w).2)).
Proof.
  destruct (augment_round self e w) as [Hframe Hround]. cbn zeta in *.
  destruct (dict_get "R" (deref e w)) as [[R|a|a|a|a|a]|].
  2-7: (destruct Hround as [Hfail Hheap]; split; [done|];
        intros e0; by rewrite (deref_heap e0 _ w Hheap)).
  destruct Hround as (R1 & deltas & Hok & HR1 & Hd & _ & _ & Hk).
  pose proof (augmented_of_fields _ _ R1 deltas ltac:(lia) Hk) as He.
  split; [done|]. intros e0 H0. destruct (decide (e0 = e)) as [->|Hne]; [done|].
  by rewrite Hframe.
Qed.

(** After the loop of lines 124-130 every example has its positions
    under ['R'] and ['R_orig'], as many of the one as of the other. *)
Lemma augment_augmented self examples w :
  (augment self examples w).1 = Ok () ->
  Forall (fun e => augmented (deref e (augment self examples w).2)) examples.
Proof.
  unfold augment.
  apply (forM_establishes (fun e w => augmented (deref e w))).
  - intros e w0. exact (proj1 (augment_round_augmented self e w0)).
  - intros e e0 w0. exact (proj2 (augment_round_augmented self e w0) e0).
Qed.

Lemma call_augmented self examples w out w' :
  __call__ self examples w = (Ok out, w') ->
  Forall (fun e => augmented (deref e w')) examples.
Proof.
  intros (w1 & _ & Haug & _)%call_stages.
  pose proof (augment_augmented self examples w1) as Hall. rewrite Haug in Hall.
  by apply Hall.
Qed.

End stages.

(** ** Stacked fields *)

Section stacks.
Implicit Types (to_stack : list value) (v : value).

Lemma mapM_fmap {A B : Type} (g : A -> result B) (h : A -> B) (l : list A) :
  Forall (fun a => g a = Ok (h a)) l -> mapM g l = Ok (map h l).
Proof.
  induction 1 as [|a l Ha _ IH]; cbn [mapM]; [done|].
  by rewrite Ha, IH.
Qed.

Lemma mapM_lengths {B : Type} (f : value -> result (list B)) to_stack ls :
  (forall v l, f v = Ok l -> length l = count v) ->
  mapM f to_stack = Ok ls -> length (concat ls) = sum_list (map count to_stack).
Proof.
  intros Hf. revert ls. induction to_stack as [|v to_stack IH]; intros ls; cbn [mapM].
  - by intros [= <-].
  - destruct (f v) as [l|] eqn:Hl; cbn [mbind result_bind]; [|done].
    destruct (mapM f to_stack) as [ls'|]; cbn [mbind result_bind]; [|done].
    intros [= <-]. cbn. rewrite length_app, (Hf v l Hl), (IH ls' eq_refl). done.
Qed.

Lemma existsb_false {A : Type} (f : A -> bool) (l : list A) :
  existsb f l = false -> Forall (fun x => f x = false) l.
Proof.
  induction l as [|x l IH]; cbn [existsb]; [by constructor|].
  intros [Hx Hl]%orb_false_iff. constructor; auto.
Qed.

Lemma length_elements {A : Type} (f : value -> list A) to_stack :
  Forall (fun x => length (f (atleast_1d x)) = count x) to_stack ->
  length (concat (map f (map atleast_1d to_stack))) = sum_list (map count to_stack).
Proof.
  induction 1 as [|x to_stack Hx _ IH]; [done|].
  cbn. by rewrite length_app, Hx, IH.
Qed.

(** An array has a length, the number of its elements along the first
    axis. *)
Lemma len_count v n : len v = Ok n -> count v = n.
Proof. destruct v; cbn; congruence. Qed.

(** What [np.hstack] returns is one-dimensional, like its parts, and
    keeps every element. *)
Lemma hstack_spec to_stack v :
  hstack to_stack = Ok v ->
  Forall (fun x => is_2d x = false) to_stack /\
  is_2d v = false /\ len v = Ok (count v) /\
  count v = sum_list (map count to_stack).
Proof.
  unfold hstack.
  destruct (existsb is_2d _) eqn:H2; [done|].
  apply existsb_false in H2. rewrite Forall_fmap in H2.
  assert (Forall (fun x => is_2d x = false) to_stack) as Hflat.
  { eapply Forall_impl; [exact H2|]. by intros [a|a|a|a|x|z]. }
  destruct (existsb is_str _) eqn:Hs; [|destruct (existsb is_float _) eqn:Hf].
  - intros [= <-]. split_and!; try done. cbn [count]. apply length_elements.
    eapply Forall_impl; [exact Hflat|].
    intros [a|a|a|a|x|z]; cbn; by rewrite ?length_map.
  - intros [= <-]. split_and!; try done. cbn [count]. apply length_elements.
    apply existsb_false in Hs. rewrite Forall_fmap in Hs.
    apply Forall_forall. intros y Hy. rewrite Forall_forall in Hflat, Hs.
    specialize (Hflat y Hy). specialize (Hs y Hy).
    destruct y as [a|a|a|a|x|z]; cbn in *; by rewrite ?length_map.
  - intros [= <-]. split_and!; try done. cbn [count]. apply length_elements.
    apply existsb_false in Hs, Hf. rewrite Forall_fmap in Hs, Hf.
    apply Forall_forall. intros y Hy. rewrite Forall_forall in Hflat, Hs, Hf.
    specialize (Hflat y Hy). specialize (Hs y Hy). specialize (Hf y Hy).
    destruct y as [a|a|a|a|x|z]; cbn in *; by rewrite ?length_map.
Qed.

(** What [np.concatenate] returns for arrays of positions has two
    dimensions, like its parts, and keeps every row. *)
Lemma concatenate2_spec to_stack v :
  concatenate2 to_stack = Ok v ->
  Forall (fun x => is_2d x = true) to_stack /\
  is_2d v = true /\ len v = Ok (count v) /\
  count v = sum_list (map count to_stack).
Proof.
  unfold concatenate2. destruct (mapM _ to_stack) as [ls|] eqn:Hls; [|done].
  cbn. intros [= <-]. split_and!; try done.
  - apply Forall_forall. intros x [n Hn]%list_elem_of_lookup.
    destruct (mapM_lookup _ _ _ n x Hls Hn) as [b Hb]. by destruct x.
  - cbn [count]. eapply mapM_lengths; [|exact Hls].
    intros [a|a|a|a|x|z] l; try done. by intros [= <-].
Qed.

(** [_concat] keeps every element: the stack is an array with as many
    elements as its parts together. *)
Lemma concat_len to_stack v :
  _concat to_stack = Ok v ->
  len v = Ok (count v) /\ count v = sum_list (map count to_stack).
Proof.
  unfold _concat. destruct to_stack as [|[a|a|a|a|x|z] to_stack]; [done|..].
  1: by intros (_ & _ & ? & ?)%concatenate2_spec.
  all: by intros (_ & _ & ? & ?)%hstack_spec.
Qed.

(** Arrays of positions are joined along their first axis. *)
Lemma concat_positions (Rs : list (list point)) :
  Rs <> [] -> _concat (map Float2 Rs) = Ok (Float2 (concat Rs)).
Proof.
  intros Hne. destruct Rs as [|R Rs]; [done|].
  change (_concat (map Float2 (R :: Rs))) with (concatenate2 (map Float2 (R :: Rs))).
  unfold concatenate2.
  rewrite (mapM_fmap _ (fun v => match v with Float2 a => a | _ => [] end)).
  - cbn [fmap result_fmap]. do 2 f_equal. rewrite <- list_fmap_compose.
    by rewrite list_fmap_id.
  - apply Forall_fmap, Forall_forall. by intros a _.
Qed.

End stacks.

Lemma stacked_numbers cutoff (exs : list (dict value)) mats Zs :
  mapM (adjacency cutoff) exs = Ok mats ->
  mapM (fun e => of_option KeyError (dict_get "Z" e)) exs = Ok Zs ->
  sum_list (map count Zs) = length (batch_positions exs).
Proof.
  unfold batch_positions. rewrite length_concat_sum, <- list_fmap_compose.
  revert mats Zs. induction exs as [|e exs IH]; intros mats Zs; cbn [mapM].
  - by intros _ [= <-].
  - destruct (adjacency cutoff e) as [m|] eqn:Hm; cbn [mbind result_bind]; [|done].
    destruct (mapM (adjacency cutoff) exs) as [ms|]; cbn [mbind result_bind]; [|done].
    intros _. apply adjacency_len in Hm as (Z & -> & HZ%len_count).
    cbn [of_option mbind result_bind].
    destruct (mapM _ exs) as [Zs'|]; cbn [mbind result_bind]; [|done].
    intros [= <-]. cbn. rewrite HZ. f_equal. by apply (IH ms).
Qed.

Section output.
Context {T : Type}.
Implicit Types (self : AtomsCollate T) (examples : list loc) (w : world) (out : dict T).

Lemma augmented_positions (d : dict value) :
  augmented d ->
  dict_get "R" d = Some (Float2 (positions d)) /\
  dict_get "R_orig" d = Some (Float2 (originals d)) /\
  length (originals d) = length (positions d).
Proof.
  intros (a & b & Ha & Hb & Hlen). unfold positions, originals. by rewrite Ha, Hb.
Qed.

(** The fields of an assembled batch that describe the atoms. *)
Lemma call_output self examples w out w' :
  __call__ self examples w = (Ok out, w') ->
  let exs := map (fun e => deref e w') examples in
  exists Z,
    dict_get "R" out = Some (post_fn self (Float2 (batch_positions exs))) /\
    dict_get "R_orig" out = Some (post_fn self (Float2 (concat (map originals exs)))) /\
    dict_get "Z" out = Some (post_fn self Z) /\
    dict_get "batch_seg" out = Some (post_fn self (ints (segments exs))) /\
    carries self out (graph_of_cols (batch_cols (cutoff self) exs)) /\
    length (concat (map originals exs)) = length (batch_positions exs) /\
    len Z = Ok (length (batch_positions exs)).
Proof.
  intros Hcall exs. pose proof (call_augmented self examples w out w' Hcall) as Haug.
  apply call_stages in Hcall as (w1 & _ & _ & Hout).
  assert (Forall augmented exs) as Hexs.
  { unfold exs. apply Forall_fmap. exact Haug. }
  fold exs in Hout. clearbody exs. clear Haug.
  destruct (collate_carries self exs out Hout) as (g & Hg & _).
  destruct (batch_graph_adjacency _ _ _ Hg) as [mats Hmats].
  destruct (collate_fields self exs out Hout) as (data & Hdata & Hcarries & Hseg & Hget & _).
  destruct (concat_fields_get exs data Hdata) as (first & Hfirst & _ & Hstack).
  assert (first ∈ exs) as Hin.
  { destruct exs as [|e exs]; [done|]. injection Hfirst as ->. by left. }
  rewrite Forall_forall in Hexs.
  destruct (augmented_positions first (Hexs first Hin)) as (HR & HRo & _).
  assert (exs <> []) as Hne by (by intros ->).
  assert (forall k, k ∈ ["R"; "R_orig"; "Z"]%string -> k ∉ index_fields) as Hplain.
  { intros k Hk Hi.
    repeat (apply elem_of_cons in Hk as [->|Hk];
      [repeat (apply elem_of_cons in Hi as [?|Hi]; [done|]); by apply elem_of_nil in Hi|]).
    by apply elem_of_nil in Hk. }
  (* Positions. *)
  destruct (Hstack "R"%string) as (stackR & vR & HsR & HcR & HgR).
  { apply dict_get_is_Some. by rewrite HR. }
  rewrite (mapM_fmap _ (fun e => Float2 (positions e))) in HsR.
  2:{ apply Forall_forall. intros e He.
      destruct (augmented_positions e (Hexs e He)) as (-> & _). done. }
  injection HsR as <-.
  rewrite (list_fmap_compose positions Float2), concat_positions in HcR.
  2:{ by destruct exs. }
  injection HcR as <-.
  (* Positions before the perturbation. *)
  destruct (Hstack "R_orig"%string) as (stackO & vO & HsO & HcO & HgO).
  { apply dict_get_is_Some. by rewrite HRo. }
  rewrite (mapM_fmap _ (fun e => Float2 (originals e))) in HsO.
  2:{ apply Forall_forall. intros e He.
      destruct (augmented_positions e (Hexs e He)) as (_ & -> & _). done. }
  injection HsO as <-.
  rewrite (list_fmap_compose originals Float2), concat_positions in HcO.
  2:{ by destruct exs. }
  injection HcO as <-.
  (* Atomic numbers. *)
  assert (is_Some (dict_get "Z" first)) as HZ.
  { destruct exs as [|e exs]; [done|]. injection Hfirst as ->.
    cbn [mapM] in Hmats.
    destruct (adjacency (cutoff self) first) as [m|] eqn:Hm; [|done].
    apply adjacency_len in Hm as (Z & -> & _). by eexists. }
  destruct (Hstack "Z"%string) as (stackZ & vZ & HsZ & HcZ & HgZ).
  { by apply dict_get_is_Some. }
  exists vZ.
  rewrite (Hget "R"%string), (Hget "R_orig"%string), (Hget "Z"%string)
    by (done || apply Hplain; by repeat constructor).
  rewrite HgR, HgO, HgZ. split_and!; try done.
  - unfold batch_positions. rewrite !length_concat_sum, <- !list_fmap_compose. f_equal.
    apply list_fmap_ext. intros _ e He%list_elem_of_lookup_2. cbn.
    by destruct (augmented_positions e (Hexs e He)) as (_ & _ & ->).
  - destruct (concat_len _ _ HcZ) as [-> ->].
    by rewrite (stacked_numbers _ _ _ _ Hmats HsZ).
Qed.

End output.

(** ** Edges and distances *)

Section entries_of_the_difference.
Implicit Types (c : Q) (p q : point).

(** An entry of the difference of line 142 where the cutoff is not
    negative and the position is finite: another atom, within the
    cutoff. *)
Lemma entry_iff c p q (i j : nat) :
  (0 <= c)%Q -> finite p = true -> (i = j -> p = q) ->
  sp.bool_minus (within c p q) (Nat.eqb i j) = true <-> i <> j /\ within c p q = true.
Proof.
  intros Hc Hp Hpq. destruct (Nat.eqb_spec i j) as [Hij|Hij].
  - rewrite <- (Hpq Hij), within_refl by done. cbn. split; [done | by intros [? _]].
  - destruct (within c p q); cbn; split; try done. by intros [_ ?].
Qed.

End entries_of_the_difference.

(** X6.  The edges are the close pairs.  With a cutoff that is not
    negative and positions in the ['R'] of the batch that are finite,
    [(i <- j)] is an edge of the batch exactly when [i] and [j] are
    different atoms of one structure ([batch_seg] agrees on them) that are
    within the cutoff of each other, by the distance that line 140 computes
    from the positions in the ['R'] of the batch and the comparison of line
    141, both in binary64 arithmetic. *)
Theorem edges_join_close_atoms {T : Type} (self : AtomsCollate T)
    (examples : list loc) (w w' : world) (out : dict T) :
  (0 <= cutoff self)%Q ->
  __call__ self examples w = (Ok out, w') ->
  exists R seg g,
    dict_get "R" out = Some (post_fn self (Float2 R)) /\
    dict_get "batch_seg" out = Some (post_fn self (ints seg)) /\
    carries self out g /\
    (forallb finite R = true ->
     forall i j, edge g i j <->
       i <> j /\
       exists p q s, R !! i = Some p /\ R !! j = Some q /\
                     seg !! i = Some s /\ seg !! j = Some s /\
                     float64.leb (distance p q) (float64.of_Q (cutoff self)) = true).
Proof.
  intros Hc Hcall. destruct (call_output self examples w out w' Hcall)
    as (Z & HR & _ & _ & Hseg & Hg & _).
  eexists _, _, _. split; [exact HR|]. split; [exact Hseg|]. split; [exact Hg|].
  intros Hfin i j. rewrite edge_of_cols, batch_cols_entry. split.
  - intros (p & q & s & Hp & Hq & Hsi & Hsj & Hb).
    apply entry_iff in Hb as [Hne Hd];
      [|done|by eauto using finite_lookup|intros <-; congruence].
    split; [done|]. by exists p, q, s.
  - intros (Hne & p & q & s & Hp & Hq & Hsi & Hsj & Hd).
    exists p, q, s. split_and!; try done.
    apply entry_iff; [done | by eauto using finite_lookup | done | by split].
Qed.

Lemma edges_join_close_atoms_witness :
  exists R seg g,
    dict_get "R" triangle_batch = Some (post_fn (plain 2) (Float2 R)) /\
    dict_get "batch_seg" triangle_batch = Some (post_fn (plain 2) (ints seg)) /\
    carries (plain 2) triangle_batch g /\
    (forallb finite R = true ->
     forall i j, edge g i j <->
       i <> j /\
       exists p q s, R !! i = Some p /\ R !! j = Some q /\
                     seg !! i = Some s /\ seg !! j = Some s /\
                     float64.leb (distance p q) (float64.of_Q (cutoff (plain 2))) = true).
Proof.
  apply (edges_join_close_atoms (plain 2) [0] (sample_world [triangle]) triangle_call.2 triangle_batch).
  - by vm_compute.
  - vm_compute. reflexivity.
Defined.

(** X7.  For every cutoff, negative ones included: with every edge
    [(i <- j)] the batch has the edge [(j <- i)], and [i] and [j] are
    atoms of the batch that belong to one structure. *)
Theorem edges_pair_up_within_structures {T : Type} (self : AtomsCollate T)
    (examples : list loc) (w w' : world) (out : dict T) :
  __call__ self examples w = (Ok out, w') ->
  exists seg g,
    dict_get "batch_seg" out = Some (post_fn self (ints seg)) /\
    carries self out g /\
    forall i j, edge g i j ->
      edge g j i /\ exists s, seg !! i = Some s /\ seg !! j = Some s.
Proof.
  intros Hcall. destruct (call_output self examples w out w' Hcall)
    as (Z & _ & _ & _ & Hseg & Hg & _).
  eexists _, _. split; [exact Hseg|]. split; [exact Hg|].
  intros i j. rewrite !edge_of_cols, !batch_cols_entry.
  intros (p & q & s & Hp & Hq & Hsi & Hsj & Hb). split; [|by exists s].
  exists q, p, s. split_and!; try done.
  by rewrite within_sym, Nat.eqb_sym.
Qed.

Lemma edges_pair_up_within_structures_witness :
  exists seg g,
    dict_get "batch_seg" triangle_batch = Some (post_fn (plain 2) (ints seg)) /\
    carries (plain 2) triangle_batch g /\
    forall i j, edge g i j ->
      edge g j i /\ exists s, seg !! i = Some s /\ seg !! j = Some s.
Proof.
  apply (edges_pair_up_within_structures (plain 2) [0] (sample_world [triangle]) triangle_call.2 triangle_batch).
  vm_compute. reflexivity.
Defined.

(** ** What a call requires and what it returns *)

Section requirements.
Context {T : Type}.
Implicit Types (self : AtomsCollate T) (examples : list loc) (w : world) (out : dict T).

Lemma collate_first self (exs : list (dict value)) out :
  collate self exs = Ok out -> exs <> [].
Proof.
  unfold collate, concat_fields. by destruct exs.
Qed.

Lemma mapM_Forall {A B : Type} (f : A -> result B) (l : list A) (bs : list B) :
  mapM f l = Ok bs -> Forall (fun a => exists b, f a = Ok b) l.
Proof.
  intros Hbs. apply Forall_lookup. intros n a Hn. by apply (mapM_lookup f l bs n a).
Qed.

End requirements.

Lemma natoms_reshape3 (d : dict value) r R :
  dict_get "R" d = Some r -> reshape3 r = Ok (Float2 R) -> natoms d = length R.
Proof.
  unfold natoms. intros ->. destruct r as [a|a|a|a|a|a]; cbn [reshape3]; try done.
  - by intros [= <-].
  - destruct (decide _); [|done]. by intros [= <-].
Qed.

Lemma natoms_positions (d : dict value) : augmented d -> natoms d = length (positions d).
Proof. intros (a & b & Ha & _). unfold natoms, positions. by rewrite Ha. Qed.



(** What a call that returns a batch found in its examples. *)
Lemma call_requirements {T : Type} (self : AtomsCollate T)
    (examples : list loc) (w w' : world) (out : dict T) :
  __call__ self examples w = (Ok out, w') ->
  examples <> [] /\
  forall e, e ∈ examples ->
    exists r R Z,
      dict_get "R" (deref e w) = Some r /\ reshape3 r = Ok (Float2 R) /\
      dict_get "Z" (deref e w) = Some Z /\ len Z = Ok (length R).
Proof.
  intros Hcall.
  pose proof (call_atoms self examples w) as Hatoms.
  pose proof (call_positions self examples w) as Hframe.
  pose proof (call_augmented self examples w out w' Hcall) as Haug.
  rewrite Hcall in Hatoms, Hframe. cbn [snd] in Hatoms, Hframe.
  destruct (call_stages self examples w out w' Hcall) as (w1 & Hrestore & _ & Hout).
  split.
  { intros ->. by apply collate_first in Hout. }
  intros e He.
  destruct (restore_shape_positions_before examples w examples w1 e Hrestore He)
    as (r & R & Hr & HR & _).
  destruct (collate_carries self _ out Hout) as (g & Hg & _).
  destruct (batch_graph_adjacency _ _ _ Hg) as [mats Hmats].
  apply mapM_Forall in Hmats. rewrite Forall_fmap, Forall_forall in Hmats.
  destruct (Hmats e He) as [m Hm]. cbn in Hm.
  apply adjacency_len in Hm as (Z & HZ & Hlen).
  exists r, R, Z. split; [done|]. split; [done|].
  destruct (Hframe e "Z"%string) as [HZeq _]. rewrite <- HZeq, HZ by done.
  split; [done|]. rewrite Hlen. f_equal.
  rewrite Forall_forall in Haug.
  rewrite <- (natoms_positions _ (Haug e He)), (Hatoms e).
  by apply (natoms_reshape3 _ r R).
Qed.

Lemma rows3_length (a : list Q) : 3 * length (rows3 a) + length a `mod` 3 = length a.
Proof.
  remember (length a) as n eqn:Hn. revert a Hn.
  induction (lt_wf n) as [n _ IH]. intros a ->.
  destruct a as [|x [|y [|z a]]]; try done.
  cbn [rows3 length]. specialize (IH (length a) ltac:(simpl; lia) a eq_refl).
  replace (S (S (S (length a)))) with (length a + 1 * 3) by lia.
  rewrite Nat.Div0.mod_add. lia.
Qed.

(** What fits the [N x 3] layout has [3 N] elements. *)
Lemma reshape3_size r R : reshape3 r = Ok (Float2 R) -> array_size r = 3 * length R.
Proof.
  destruct r as [a|a|a|a|x|z]; cbn [reshape3 array_size]; try done.
  - by intros [= <-].
  - destruct (decide _) as [Hmod|]; [|done]. intros [= <-].
    pose proof (rows3_length a). lia.
Qed.

(** X2.  [__call__] needs positions and atomic numbers in every example.
    When a call returns a batch, the list of examples was not empty, and
    every example held, on entry, an entry ['R'] with [3 N] elements for
    some [N], so that it fits the [N x 3] layout, and an entry ['Z'] that
    has a length, which is [N]. *)
Theorem call_needs_positions_and_numbers {T : Type} (self : AtomsCollate T)
    (examples : list loc) (w w' : world) (out : dict T) :
  __call__ self examples w = (Ok out, w') ->
  examples <> [] /\
  forall e, e ∈ examples ->
    exists r Z N,
      dict_get "R" (deref e w) = Some r /\ array_size r = 3 * N /\
      dict_get "Z" (deref e w) = Some Z /\ len Z = Ok N.
Proof.
  intros [Hne Hall]%call_requirements. split; [done|]. intros e He.
  destruct (Hall e He) as (r & R & Z & Hr & HR & HZ & Hlen).
  exists r, Z, (length R). split_and!; try done. by apply reshape3_size.
Qed.

Lemma call_needs_positions_and_numbers_witness :
  [0] <> [] /\
  forall e, e ∈ [0] ->
    exists r Z N,
      dict_get "R" (deref e (sample_world [triangle])) = Some r /\
      array_size r = 3 * N /\
      dict_get "Z" (deref e (sample_world [triangle])) = Some Z /\ len Z = Ok N.
Proof.
  apply (call_needs_positions_and_numbers (plain 2) [0] (sample_world [triangle]) triangle_call.2 triangle_batch).
  vm_compute. reflexivity.
Defined.

(** X5.  The arrays over atoms have one length.  In a batch that is
    returned, ['R'], ['R_orig'], ['Z'] and ['batch_seg'] have one entry
    per atom of the batch, and ['batch_seg'] holds the number [s] of
    structure [s] once for every atom the example [s] had on entry. *)
Theorem atom_arrays_have_one_length {T : Type} (self : AtomsCollate T)
    (examples : list loc) (w w' : world) (out : dict T) :
  __call__ self examples w = (Ok out, w') ->
  exists R R_orig Z batch_seg,
    dict_get "R" out = Some (post_fn self (Float2 R)) /\
    dict_get "R_orig" out = Some (post_fn self (Float2 R_orig)) /\
    dict_get "Z" out = Some (post_fn self Z) /\
    dict_get "batch_seg" out = Some (post_fn self (ints batch_seg)) /\
    batch_seg = np.repeat_each (np.arange (length examples))
                               (map (fun e => natoms (deref e w)) examples) /\
    length R = length batch_seg /\ length R_orig = length batch_seg /\
    len Z = Ok (length batch_seg).
Proof.
  intros Hcall.
  pose proof (call_atoms self examples w) as Hatoms.
  pose proof (call_augmented self examples w out w' Hcall) as Haug.
  rewrite Hcall in Hatoms. cbn [snd] in Hatoms.
  destruct (call_output self examples w out w' Hcall)
    as (Z & HR & HRo & HZ & Hseg & _ & HlenO & HlenZ).
  eexists _, _, Z, _. split; [exact HR|]. split; [exact HRo|]. split; [exact HZ|].
  split; [exact Hseg|]. rewrite segments_length. split_and!; try done.
  unfold segments. rewrite length_map. f_equal.
  rewrite <- list_fmap_compose. apply list_fmap_ext.
  intros _ e He%list_elem_of_lookup_2. cbn.
  rewrite Forall_forall in Haug. by rewrite <- (natoms_positions _ (Haug e He)), (Hatoms e).
Qed.

Lemma atom_arrays_have_one_length_witness :
  exists R R_orig Z batch_seg,
    dict_get "R" triangle_batch = Some (post_fn (plain 2) (Float2 R)) /\
    dict_get "R_orig" triangle_batch = Some (post_fn (plain 2) (Float2 R_orig)) /\
    dict_get "Z" triangle_batch = Some (post_fn (plain 2) Z) /\
    dict_get "batch_seg" triangle_batch = Some (post_fn (plain 2) (ints batch_seg)) /\
    batch_seg = np.repeat_each (np.arange (length [0]))
                  (map (fun e => natoms (deref e (sample_world [triangle]))) [0]) /\
    length R = length batch_seg /\ length R_orig = length batch_seg /\
    len Z = Ok (length batch_seg).
Proof.
  apply (atom_arrays_have_one_length (plain 2) [0] (sample_world [triangle]) triangle_call.2 triangle_batch).
  vm_compute. reflexivity.
Defined.

(** The fields of a batch that is returned. *)
Lemma call_fields {T : Type} (self : AtomsCollate T)
    (examples : list loc) (w w' : world) (out : dict T) :
  __call__ self examples w = (Ok out, w') ->
  exists e0, head examples = Some e0 /\
    forall k, is_Some (dict_get k out) <->
      k <> "name"%string /\
      (k = "R_orig"%string \/ k ∈ index_fields \/ is_Some (dict_get k (deref e0 w))).
Proof.
  intros Hcall.
  pose proof (call_positions self examples w) as Hframe.
  pose proof (call_augmented self examples w out w' Hcall) as Haug.
  rewrite Hcall in Hframe. cbn [snd] in Hframe.
  destruct (call_stages self examples w out w' Hcall) as (w1 & Hrestore & _ & Hout).
  destruct (collate_fields self _ out Hout) as (data & Hdata & _ & _ & Hget & Hname & Hidx).
  destruct (concat_fields_get _ data Hdata) as (first & Hfirst & Hkeys & _).
  destruct examples as [|e0 examples]; cbn in Hfirst; [done|]. injection Hfirst as <-.
  exists e0. split; [done|]. intros k.
  apply Forall_cons in Haug as [(a & b & Ha & Hb & _) _].
  destruct (restore_shape_positions_before _ w _ w1 e0 Hrestore ltac:(by left))
    as (r & _ & Hr & _).
  destruct (String.eqb_spec k "name") as [->|Hnm].
  { rewrite Hname. split; [by intros [? ?] | by intros [? _]]. }
  destruct (decide (k ∈ index_fields)) as [Hin|Hin].
  { split; [by auto | intros _; by apply Hidx]. }
  rewrite (Hget k Hin Hnm), fmap_is_Some, dict_get_is_Some, Hkeys, <- dict_get_is_Some.
  destruct (String.eqb_spec k "R_orig") as [->|HRo].
  { rewrite Hb. split; [by auto | by eauto]. }
  destruct (String.eqb_spec k "R") as [->|HR].
  { rewrite Ha, Hr. split; [intros _; split; [done|]; by eauto | by eauto]. }
  destruct (Hframe e0 k) as [Heq _]. rewrite Heq by done. split; [by auto|].
  intros [_ [?|[?|?]]]; done.
Qed.

(** X3.  The fields of a batch.  A batch that is returned has exactly
    these fields: the eight index arrays that [__call__] computes,
    ['R_orig'], and every field the first example had on entry; a field
    called ['name'] is never among them. *)
Theorem fields_of_a_batch {T : Type} (self : AtomsCollate T)
    (examples : list loc) (w w' : world) (out : dict T) :
  __call__ self examples w = (Ok out, w') ->
  exists e0, head examples = Some e0 /\
    forall k, is_Some (dict_get k out) <->
      k <> "name"%string /\
      (k = "R_orig"%string \/ k ∈ index_fields \/ is_Some (dict_get k (deref e0 w))).
Proof. apply call_fields. Qed.

Lemma fields_of_a_batch_witness :
  exists e0, head [0] = Some e0 /\
    forall k, is_Some (dict_get k triangle_batch) <->
      k <> "name"%string /\
      (k = "R_orig"%string \/ k ∈ index_fields \/
       is_Some (dict_get k (deref e0 (sample_world [triangle])))).
Proof.
  apply (fields_of_a_batch (plain 2) [0] (sample_world [triangle]) triangle_call.2 triangle_batch).
  vm_compute. reflexivity.
Defined.

(** ** Noise and rotation *)

Section noise.
Context {T : Type}.
Implicit Types (self : AtomsCollate T) (examples : list loc) (w : world) (e : loc)
  (out : dict T).




End noise.




Section originals.
Context {T : Type}.
Implicit Types (self : AtomsCollate T) (examples : list loc) (w : world) (e : loc)
  (out : dict T).

Lemma input_positions_reshape3 (d : dict value) r R :
  dict_get "R" d = Some r -> reshape3 r = Ok (Float2 R) -> input_positions d = R.
Proof.
  unfold input_positions. intros ->. destruct r as [a|a|a|a|a|a]; cbn [reshape3]; try done.
  - by intros [= <-].
  - destruct (decide _); [|done]. by intros [= <-].
Qed.

Lemma augment_originals self examples w :
  rotate self = false -> NoDup examples ->
  (augment self examples w).1 = Ok () ->
  forall e, e ∈ examples ->
    forall R, dict_get "R" (deref e w) = Some (Float2 R) ->
              dict_get "R_orig" (deref e (augment self examples w).2) = Some (Float2 R).
Proof.
  intros Hrot Hnd Hok.
  refine (proj1 (forM_each
            (fun d d' => forall R, dict_get "R" d = Some (Float2 R) ->
                                   dict_get "R_orig" d' = Some (Float2 R))
            _ _ _ examples w Hnd Hok)).
  - intros e w0 Hok0 R HR. destruct (augment_round self e w0) as [_ Hround].
    cbn zeta in Hround. rewrite HR in Hround.
    destruct Hround as (R1 & deltas & _ & _ & _ & HR1 & _ & Hk).
    by rewrite Hk, (HR1 Hrot).
  - intros e e0 w0 Hne. by apply (proj1 (augment_round self e w0)).
Qed.

End originals.

(** X13.  Without rotation, ['R_orig'] is the input.  When no example
    is listed twice, ['R_orig'] of the batch is the stack of the positions
    the examples had on entry, laid out [N x 3], whatever the noise; the
    same positions are stored under ['R_orig'] in every example.  (On a
    second call the entry positions are the noisy ones of the first.) *)
Theorem without_rotation_R_orig_is_the_input {T : Type} (self : AtomsCollate T)
    (examples : list loc) (w w' : world) (out : dict T) :
  rotate self = false -> NoDup examples ->
  __call__ self examples w = (Ok out, w') ->
  dict_get "R_orig" out
  = Some (post_fn self
            (Float2 (concat (map (fun e => input_positions (deref e w)) examples)))) /\
  forall e, e ∈ examples ->
    dict_get "R_orig" (deref e w') = Some (Float2 (input_positions (deref e w))).
Proof.
  intros Hrot Hnd Hcall.
  destruct (call_stages self examples w out w' Hcall) as (w1 & Hrestore & Haug & _).
  assert (forall e, e ∈ examples ->
            dict_get "R_orig" (deref e w') = Some (Float2 (input_positions (deref e w))))
    as Hall.
  { intros e He.
    destruct (restore_shape_positions_before _ _ _ _ e Hrestore He) as (r & R & Hr & HR & H1).
    rewrite (input_positions_reshape3 _ r R Hr HR).
    pose proof (augment_originals self examples w1 Hrot Hnd) as Ho.
    rewrite Haug in Ho. by apply Ho. }
  split; [|exact Hall].
  destruct (call_output self examples w out w' Hcall) as (Z & _ & -> & _).
  do 4 f_equal. rewrite <- list_fmap_compose. apply list_fmap_ext.
  intros _ e He%list_elem_of_lookup_2. cbn. unfold originals. by rewrite (Hall e He).
Qed.

Lemma without_rotation_R_orig_is_the_input_witness :
  dict_get "R_orig" triangle_batch
  = Some (post_fn (plain 2)
            (Float2 (concat (map (fun e => input_positions (deref e (sample_world [triangle])))
                                 [0])))) /\
  forall e, e ∈ [0] ->
    dict_get "R_orig" (deref e triangle_call.2)
    = Some (Float2 (input_positions (deref e (sample_world [triangle])))).
Proof.
  apply (without_rotation_R_orig_is_the_input (plain 2) [0] (sample_world [triangle]) triangle_call.2 triangle_batch).
  - reflexivity.
  - apply NoDup_singleton.
  - vm_compute. reflexivity.
Defined.



(** X9.  A batch that is returned has at least one edge: ['idnb_i'] and
    ['idnb_j'] have one length, and it is not zero. *)
Theorem a_batch_has_an_edge {T : Type} (self : AtomsCollate T)
    (examples : list loc) (w w' : world) (out : dict T) :
  __call__ self examples w = (Ok out, w') ->
  exists g, carries self out g /\
            0 < length (idnb_i g) /\ length (idnb_j g) = length (idnb_i g).
Proof.
  intros (w1 & _ & _ & Hout)%call_stages.
  destruct (collate_carries self _ out Hout) as (g & Hg & Hcarries).
  destruct (batch_graph_adjacency _ _ _ Hg) as [mats Hmats].
  rewrite (batch_graph_returns _ _ _ Hmats) in Hg.
  exists g. split; [done|].
  destruct (concat _) as [|c cs] eqn:Hcols; [done|]. injection Hg as <-.
  cbn [graph_of_cols idnb_i idnb_j].
  rewrite targets_length, <- length_concat_sum, Hcols. cbn. split; [lia | done].
Qed.

Lemma a_batch_has_an_edge_witness :
  exists g, carries (plain 2) triangle_batch g /\
            0 < length (idnb_i g) /\ length (idnb_j g) = length (idnb_i g).
Proof.
  apply (a_batch_has_an_edge (plain 2) [0] (sample_world [triangle]) triangle_call.2 triangle_batch).
  vm_compute. reflexivity.
Defined.

(** X16.  [_restore_shape] once is enough.  When it returns, it returns
    the list it was given, and running it again on the examples as it
    left them returns too and changes nothing. *)
Theorem restore_shape_once_is_enough (data : list loc) (w w1 : world) (r : list loc) :
  _restore_shape data w = (Ok r, w1) ->
  r = data /\ _restore_shape data w1 = (Ok data, w1).
Proof.
  intros Hr. split; [by apply restore_shape_result in Hr|].
  apply restore_shape_shaped. by apply restore_shape_spec in Hr as [Hall _].
Qed.

Lemma restore_shape_once_is_enough_witness :
  [0] = [0] /\
  _restore_shape [0] (_restore_shape [0] (sample_world [triangle])).2
  = (Ok [0], (_restore_shape [0] (sample_world [triangle])).2).
Proof.
  apply (restore_shape_once_is_enough [0] (sample_world [triangle])).
  vm_compute. reflexivity.
Defined.

Lemma mapM_map {A B C : Type} (f : B -> result C) (g : A -> B) (l : list A) :
  mapM f (map g l) = mapM (fun a => f (g a)) l.
Proof. induction l as [|a l IH]; [done|]. cbn [map mapM]. by rewrite IH. Qed.

Lemma mapM_ext {A B : Type} (f g : A -> result B) (l : list A) :
  (forall a, a ∈ l -> f a = g a) -> mapM f l = mapM g l.
Proof.
  induction l as [|a l IH]; intros Hfg; [done|]. cbn [mapM].
  rewrite (Hfg a) by (by left). rewrite IH; [done|]. intros a' Ha'. apply Hfg. by right.
Qed.

(** X4.  The other fields are stacked.  A field of the batch that is
    neither an index array nor ['R'] nor ['R_orig'] is [post_fn] of the
    [_concat] of that field over all examples, in the order of the
    examples, with the values the examples had on entry; so every example
    has that field. *)
Theorem other_fields_are_stacked {T : Type} (self : AtomsCollate T)
    (examples : list loc) (w w' : world) (out : dict T) (k : string) (v : T) :
  __call__ self examples w = (Ok out, w') ->
  k ∉ index_fields -> k <> "R"%string -> k <> "R_orig"%string ->
  dict_get k out = Some v ->
  exists to_stack stacked,
    mapM (fun e => of_option KeyError (dict_get k (deref e w))) examples = Ok to_stack /\
    _concat to_stack = Ok stacked /\ v = post_fn self stacked.
Proof.
  intros Hcall Hidx HR HRo Hv.
  pose proof (call_positions self examples w) as Hframe.
  rewrite Hcall in Hframe. cbn [snd] in Hframe.
  destruct (call_stages self examples w out w' Hcall) as (w1 & _ & _ & Hout).
  destruct (collate_fields self _ out Hout) as (data & Hdata & _ & _ & Hget & Hname & _).
  assert (k <> "name"%string) as Hnm by (intros ->; congruence).
  rewrite (Hget k Hidx Hnm) in Hv.
  destruct (dict_get k data) as [stacked|] eqn:Hk; [|done]. injection Hv as <-.
  destruct (concat_fields_get _ data Hdata) as (first & _ & Hkeys & Hstack).
  destruct (Hstack k) as (to_stack & stacked' & Hto & Hc & Hk').
  { rewrite <- Hkeys. apply dict_get_is_Some. by rewrite Hk. }
  exists to_stack, stacked. split; [|split; [congruence | done]].
  rewrite <- Hto, mapM_map. apply mapM_ext. intros e _.
  destruct (Hframe e k) as [Heq _]. by rewrite Heq.
Qed.

Lemma other_fields_are_stacked_witness :
  exists to_stack stacked,
    mapM (fun e => of_option KeyError (dict_get "U0" (deref e (sample_world [triangle]))))
         [0] = Ok to_stack /\
    _concat to_stack = Ok stacked /\ Float1 [1 # 2]%Q = post_fn (plain 2) stacked.
Proof.
  apply (other_fields_are_stacked (plain 2) [0] (sample_world [triangle]) triangle_call.2 triangle_batch "U0" (Float1 [1 # 2]%Q)).
  - vm_compute. reflexivity.
  - by apply (bool_decide_unpack _).
  - done.
  - done.
  - reflexivity.
Defined.

(** ** Triplets *)

Section masks.
Context {A : Type}.
Implicit Types (mask : list bool) (a : list A).

Lemma mapM_lookup_iff {B C : Type} (f : B -> result C) (l : list B) (bs : list C) t x :
  mapM f l = Ok bs ->
  bs !! t = Some x <-> exists b, l !! t = Some b /\ f b = Ok x.
Proof.
  revert bs t. induction l as [|b l IH]; intros bs t; cbn [mapM].
  - intros [= <-]. rewrite lookup_nil. split; [done | by intros (? & ? & _)].
  - destruct (f b) as [c|] eqn:Hc; cbn [mbind result_bind]; [|done].
    destruct (mapM f l) as [bs'|]; cbn [mbind result_bind]; [|done].
    intros [= <-]. destruct t as [|t]; cbn.
    + split; [intros [= <-]; by eauto | intros (b' & [= <-] & Hb'); congruence].
    + by apply IH.
Qed.

(** Indexing with a mask is indexing with the positions of its [True]
    values (line 161). *)
Lemma lookup_compress mask a t x :
  length mask = length a ->
  np.compress mask a !! t = Some x <->
  exists n, np.nonzero mask !! t = Some n /\ a !! n = Some x.
Proof.
  intros Hlen. rewrite (mapM_lookup_iff _ _ _ t x (take_nonzero mask a Hlen)).
  split; intros (n & Hn & Hx); exists n; (split; [done|]).
  - destruct (a !! n); cbn in Hx; congruence.
  - by rewrite Hx.
Qed.

Lemma nonzero_from_increasing k mask t t' n n' :
  t < t' -> np.nonzero_from k mask !! t = Some n -> np.nonzero_from k mask !! t' = Some n' ->
  n < n'.
Proof.
  revert k t t'. induction mask as [|b mask IH]; intros k t t' Ht; cbn [np.nonzero_from];
    [done|].
  destruct b; cbn [app]; [|by apply IH].
  destruct t as [|t], t' as [|t']; try lia; cbn.
  - intros [= <-] Hn'. apply list_elem_of_lookup_2, lookup_nonzero_from in Hn'. lia.
  - apply IH. lia.
Qed.

Lemma nonzero_injective mask t t' n :
  np.nonzero mask !! t = Some n -> np.nonzero mask !! t' = Some n -> t = t'.
Proof.
  intros Ht Ht'. destruct (Nat.lt_trichotomy t t') as [Hlt|[->|Hlt]]; [|done|].
  - pose proof (nonzero_from_increasing 0 mask t t' n n Hlt Ht Ht'). lia.
  - pose proof (nonzero_from_increasing 0 mask t' t n n Hlt Ht' Ht). lia.
Qed.

Lemma nonzero_monotone mask t t' n n' :
  t <= t' -> np.nonzero mask !! t = Some n -> np.nonzero mask !! t' = Some n' -> n <= n'.
Proof.
  intros Hle Ht Ht'. destruct (decide (t = t')) as [->|Hne]; [by simplify_eq|].
  pose proof (nonzero_from_increasing 0 mask t t' n n' ltac:(lia) Ht Ht'). lia.
Qed.

Lemma nonzero_complete mask n :
  mask !! n = Some true -> exists t, np.nonzero mask !! t = Some n.
Proof.
  intros Hn. apply list_elem_of_lookup, lookup_nonzero_from.
  split; [lia|]. by rewrite Nat.sub_0_r.
Qed.

End masks.

Section prefix_sums.
Implicit Types (L : list nat).

Lemma sum_take_S L r x :
  L !! r = Some x -> sum_list (take (S r) L) = sum_list (take r L) + x.
Proof.
  intros Hr. rewrite (take_S_r L r x Hr), sum_list_with_app. cbn. unfold id. lia.
Qed.

Lemma sum_take_le L r r' : r <= r' -> sum_list (take r L) <= sum_list (take r' L).
Proof.
  revert r r'. induction L as [|x L IH]; intros r r' Hle.
  - by rewrite !take_nil.
  - destruct r as [|r], r' as [|r']; cbn; try lia. specialize (IH r r' ltac:(lia)). lia.
Qed.

(** Positions in different segments are ordered as the segments. *)
Lemma place_order L r o r' o' x x' :
  L !! r = Some x -> L !! r' = Some x' -> o < x -> o' < x' ->
  sum_list (take r L) + o <= sum_list (take r' L) + o' -> r <= r'.
Proof.
  intros Hr Hr' Ho Ho' Hle. destruct (decide (r <= r')) as [|Hgt]; [done|]. exfalso.
  pose proof (sum_take_le L (S r') r ltac:(lia)) as Hmono.
  rewrite (sum_take_S L r' x' Hr') in Hmono. lia.
Qed.

End prefix_sums.

Section candidates.
Implicit Types (cols : list (list nat)).

Lemma triplet_counts_segments cols :
  triplet_counts cols = map length (map (getrow cols) (concat cols)).
Proof. unfold triplet_counts. by rewrite <- list_fmap_compose. Qed.

Lemma getrow_segments cols r :
  getrow (map (getrow cols) (concat cols)) r
  = match concat cols !! r with Some j => getrow cols j | None => [] end.
Proof. unfold getrow at 1. rewrite list_lookup_fmap. by destruct (concat cols !! r). Qed.

(** Candidate [n] belongs to the outer edge [r] when [n] lies in the
    segment of [r]. *)
Lemma lookup_cand_reduce cols n r :
  cand_reduce cols !! n = Some r <->
  exists o j, n = sum_list (take r (triplet_counts cols)) + o /\
              concat cols !! r = Some j /\ o < length (getrow cols j).
Proof.
  assert (cand_reduce cols
          = concat (imap (fun s l => replicate (length l) s)
                         (map (getrow cols) (concat cols)))) as ->.
  { unfold cand_reduce. f_equal. by rewrite imap_fmap. }
  rewrite lookup_tags, <- triplet_counts_segments. split.
  - intros (o & -> & Ho). rewrite getrow_segments in Ho.
    destruct (concat cols !! r) as [j|]; [by exists o, j | cbn in Ho; lia].
  - intros (o & j & -> & Hj & Ho). exists o. split; [done|].
    by rewrite getrow_segments, Hj.
Qed.

(** Its inner edge is the edge at the same offset of the row of [j]. *)
Lemma lookup_cand_expand cols r o j :
  concat cols !! r = Some j -> o < length (getrow cols j) ->
  cand_expand cols !! (sum_list (take r (triplet_counts cols)) + o)
  = Some (sum_list (take j (map length cols)) + o).
Proof.
  intros Hj Ho.
  assert (cand_expand cols
          = concat (map (fun s => seq (sum_list (take s (map length cols)))
                                      (length (getrow cols s))) (concat cols))) as ->.
  { unfold cand_expand. f_equal. apply list_fmap_ext. intros _ s _. apply edge_numbers. }
  assert (triplet_counts cols
          = map length (map (fun s => seq (sum_list (take s (map length cols)))
                                          (length (getrow cols s))) (concat cols))) as ->.
  { unfold triplet_counts. rewrite <- list_fmap_compose. apply list_fmap_ext.
    intros _ s _. cbn. by rewrite length_seq. }
  apply lookup_concat_offset. unfold getrow at 1. rewrite list_lookup_fmap, Hj. cbn.
  by apply lookup_seq_lt.
Qed.

(** Where an edge is stored: edge [e] with target [j] and source [k]
    is the entry at some offset of row [j]. *)
Lemma edge_place cols e j k :
  targets cols !! e = Some j -> concat cols !! e = Some k ->
  exists o, e = sum_list (take j (map length cols)) + o /\ getrow cols j !! o = Some k.
Proof.
  unfold targets. intros (o & -> & Ho)%lookup_tags Hk. exists o. split; [done|].
  destruct (lookup_lt_is_Some_2 _ _ Ho) as [k' Hk'].
  rewrite (lookup_sources cols j o k' Hk') in Hk. congruence.
Qed.

Lemma triplet_place cols t r e :
  let g := graph_of_cols cols in
  id_reduce_ji g !! t = Some r -> id_expand_kj g !! t = Some e ->
  exists n o j,
    np.nonzero (keep cols) !! t = Some n /\
    n = sum_list (take r (triplet_counts cols)) + o /\
    concat cols !! r = Some j /\ o < length (getrow cols j) /\
    e = sum_list (take j (map length cols)) + o.
Proof.
  cbn. rewrite !lookup_compress
    by (by rewrite keep_length, ?cand_reduce_length, ?cand_expand_length).
  intros (n & Hn & Hr) (n' & Hn' & He). rewrite Hn in Hn'. injection Hn' as <-.
  apply lookup_cand_reduce in Hr as (o & j & -> & Hj & Ho).
  rewrite (lookup_cand_expand cols r o j Hj Ho) in He. injection He as <-.
  by eexists _, o, j.
Qed.

End candidates.

Section triplet_lists.
Implicit Types (cols : list (list nat)).

Lemma triplets_complete cols r e i j k :
  let g := graph_of_cols cols in
  idnb_i g !! r = Some i -> idnb_j g !! r = Some j ->
  idnb_i g !! e = Some j -> idnb_j g !! e = Some k -> k <> i ->
  exists t, id_reduce_ji g !! t = Some r /\ id_expand_kj g !! t = Some e /\
            id3dnb_i g !! t = Some i /\ id3dnb_j g !! t = Some j /\ id3dnb_k g !! t = Some k.
Proof.
  cbn. intros Hri Hrj Hej Hek Hne.
  destruct (edge_place cols e j k Hej Hek) as (o & -> & Ho).
  assert (o < length (getrow cols j)) as Hlt by (by apply lookup_lt_Some in Ho).
  set (n := sum_list (take r (triplet_counts cols)) + o).
  assert (cand_reduce cols !! n = Some r) as Hr.
  { apply lookup_cand_reduce. by exists o, j. }
  pose proof (lookup_cand_expand cols r o j Hrj Hlt) as He. fold n in He.
  destruct (Forall2_lookup_r _ _ _ n r (cand_reduce_target cols) Hr) as (i' & Hi & Hi').
  destruct (Forall2_lookup_r _ _ _ n r (cand_reduce_source cols) Hr) as (j' & Hj & Hj').
  destruct (Forall2_lookup_r _ _ _ n _ (cand_expand_source cols) He) as (k' & Hk & Hk').
  simplify_eq.
  assert (keep cols !! n = Some true) as Hkeep.
  { unfold keep. rewrite lookup_zip_with, Hi, Hk. cbn.
    by destruct (Nat.eqb_spec i k) as [->|]. }
  destruct (nonzero_complete _ n Hkeep) as [t Ht]. exists t.
  rewrite !lookup_compress
    by (by rewrite keep_length, ?cand_reduce_length, ?cand_expand_length, ?cand_i_length,
             ?cand_j_length, ?cand_k_length).
  split_and!; by exists n.
Qed.

Lemma triplets_listed_once cols t t' r e :
  let g := graph_of_cols cols in
  id_reduce_ji g !! t = Some r -> id_expand_kj g !! t = Some e ->
  id_reduce_ji g !! t' = Some r -> id_expand_kj g !! t' = Some e ->
  t = t'.
Proof.
  intros g Hr He Hr' He'.
  destruct (triplet_place cols t r e Hr He) as (n & o & j & Hn & -> & Hj & Ho & ->).
  destruct (triplet_place cols t' r _ Hr' He') as (n' & o' & j' & Hn' & -> & Hj' & Ho' & Heq).
  rewrite Hj in Hj'. injection Hj' as <-.
  assert (o' = o) as -> by lia. by apply (nonzero_injective _ _ _ _ Hn Hn').
Qed.

Lemma triplets_in_edge_order cols t t' r r' :
  let g := graph_of_cols cols in
  t <= t' -> id_reduce_ji g !! t = Some r -> id_reduce_ji g !! t' = Some r' -> r <= r'.
Proof.
  intros g Hle Hr Hr'.
  destruct (triplet_lengths cols) as (_ & _ & Hlen & Hlen'). fold g in Hlen, Hlen'.
  destruct (lookup_lt_is_Some_2 (id_expand_kj g) t) as [e He].
  { apply lookup_lt_Some in Hr. lia. }
  destruct (lookup_lt_is_Some_2 (id_expand_kj g) t') as [e' He'].
  { apply lookup_lt_Some in Hr'. lia. }
  destruct (triplet_place cols t r e Hr He) as (n & o & j & Hn & -> & Hj & Ho & _).
  destruct (triplet_place cols t' r' e' Hr' He') as (n' & o' & j' & Hn' & -> & Hj' & Ho' & _).
  pose proof (nonzero_monotone _ _ _ _ _ Hle Hn Hn') as Hmono.
  apply (place_order (triplet_counts cols) r o r' o'
           (length (getrow cols j)) (length (getrow cols j'))); try done.
  - unfold triplet_counts. by rewrite list_lookup_fmap, Hj.
  - unfold triplet_counts. by rewrite list_lookup_fmap, Hj'.
Qed.

End triplet_lists.

(** X10.  Every path is a triplet.  Whenever the batch has the edges
    [e = (j <- k)] and [r = (i <- j)] with [k] different from [i], some
    triplet [t] is that path: [id_reduce_ji[t] = r], [id_expand_kj[t] = e],
    and the triplet arrays hold [i], [j] and [k] at [t]. *)
Theorem every_path_is_a_triplet {T : Type} (self : AtomsCollate T)
    (examples : list loc) (w w' : world) (out : dict T) :
  __call__ self examples w = (Ok out, w') ->
  exists g, carries self out g /\
    forall r e i j k,
      idnb_i g !! r = Some i -> idnb_j g !! r = Some j ->
      idnb_i g !! e = Some j -> idnb_j g !! e = Some k -> k <> i ->
      exists t, id_reduce_ji g !! t = Some r /\ id_expand_kj g !! t = Some e /\
                id3dnb_i g !! t = Some i /\ id3dnb_j g !! t = Some j /\
                id3dnb_k g !! t = Some k.
Proof.
  intros (g & Hout & ->)%call_graph. eexists. split; [exact Hout|].
  intros r e i j k. apply triplets_complete.
Qed.

Lemma every_path_is_a_triplet_witness :
  exists g, carries (plain 2) triangle_batch g /\
    forall r e i j k,
      idnb_i g !! r = Some i -> idnb_j g !! r = Some j ->
      idnb_i g !! e = Some j -> idnb_j g !! e = Some k -> k <> i ->
      exists t, id_reduce_ji g !! t = Some r /\ id_expand_kj g !! t = Some e /\
                id3dnb_i g !! t = Some i /\ id3dnb_j g !! t = Some j /\
                id3dnb_k g !! t = Some k.
Proof.
  apply (every_path_is_a_triplet (plain 2) [0] (sample_world [triangle]) triangle_call.2 triangle_batch).
  vm_compute. reflexivity.
Defined.

(** X11.  The triplets are listed once, grouped by outer edge: no two
    triplets have the same outer and inner edge, and [id_reduce_ji] does
    not decrease along the triplet arrays. *)
Theorem triplets_are_listed_once_by_outer_edge {T : Type} (self : AtomsCollate T)
    (examples : list loc) (w w' : world) (out : dict T) :
  __call__ self examples w = (Ok out, w') ->
  exists g, carries self out g /\
    (forall t t' r e,
        id_reduce_ji g !! t = Some r -> id_expand_kj g !! t = Some e ->
        id_reduce_ji g !! t' = Some r -> id_expand_kj g !! t' = Some e -> t = t') /\
    (forall t t' r r',
        t <= t' -> id_reduce_ji g !! t = Some r -> id_reduce_ji g !! t' = Some r' -> r <= r').
Proof.
  intros (g & Hout & ->)%call_graph. eexists. split; [exact Hout|]. split.
  - intros t t' r e. apply triplets_listed_once.
  - intros t t' r r'. apply triplets_in_edge_order.
Qed.

Lemma triplets_are_listed_once_by_outer_edge_witness :
  exists g, carries (plain 2) triangle_batch g /\
    (forall t t' r e,
        id_reduce_ji g !! t = Some r -> id_expand_kj g !! t = Some e ->
        id_reduce_ji g !! t' = Some r -> id_expand_kj g !! t' = Some e -> t = t') /\
    (forall t t' r r',
        t <= t' -> id_reduce_ji g !! t = Some r -> id_reduce_ji g !! t' = Some r' -> r <= r').
Proof.
  apply (triplets_are_listed_once_by_outer_edge (plain 2) [0] (sample_world [triangle]) triangle_call.2 triangle_batch).
  vm_compute. reflexivity.
Defined.

(** ** The order of the edges *)

Section edge_order.
Implicit Types (cols : list (list nat)) (cutoff : Q).

Lemma increasing_nil : increasing [].
Proof. by intros o o' x y _ ?. Qed.

Lemma increasing_shift off (l : list nat) :
  increasing l -> increasing (map (fun c => c + off) l).
Proof.
  intros Hl o o' x y Hlt. rewrite !list_lookup_fmap.
  destruct (l !! o) as [x'|] eqn:Hx, (l !! o') as [y'|] eqn:Hy; cbn; try done.
  intros [= <-] [= <-]. pose proof (Hl o o' x' y' Hlt Hx Hy). lia.
Qed.

Lemma neighbours_increasing cutoff (R : list point) r :
  increasing (getrow (neighbours cutoff R) r).
Proof.
  unfold neighbours, getrow. rewrite list_lookup_fmap.
  destruct (_ !! r) as [mask|]; cbn; [|apply increasing_nil].
  intros o o' x y Hlt. by apply nonzero_from_increasing.
Qed.

Lemma block_cols_increasing off (blocks : list (list (list nat))) r :
  (forall b r', b ∈ blocks -> increasing (getrow b r')) ->
  increasing (getrow (block_cols off blocks) r).
Proof.
  revert off r. induction blocks as [|b blocks IH]; intros off r Hb; cbn [block_cols].
  - unfold getrow. rewrite lookup_nil. apply increasing_nil.
  - rewrite getrow_app, length_map. destruct (decide _).
    + rewrite getrow_map. apply increasing_shift, Hb. by left.
    + apply IH. intros b' r' Hb'. apply Hb. by right.
Qed.

Lemma batch_cols_increasing cutoff (exs : list (dict value)) r :
  increasing (getrow (batch_cols cutoff exs) r).
Proof.
  apply block_cols_increasing. intros b r' (e & -> & _)%list_elem_of_fmap.
  apply neighbours_increasing.
Qed.

Lemma edges_in_row_order cols m n i j i' j' :
  (forall r, increasing (getrow cols r)) ->
  let g := graph_of_cols cols in
  m < n ->
  idnb_i g !! m = Some i -> idnb_j g !! m = Some j ->
  idnb_i g !! n = Some i' -> idnb_j g !! n = Some j' ->
  i < i' \/ (i = i' /\ j < j').
Proof.
  cbn. intros Hinc Hlt Hi Hj Hi' Hj'.
  destruct (edge_place cols m i j Hi Hj) as (o & -> & Ho).
  destruct (edge_place cols n i' j' Hi' Hj') as (o' & -> & Ho').
  assert (i <= i') as Hle.
  { apply (place_order (map length cols) i o i' o'
             (length (getrow cols i)) (length (getrow cols i'))).
    - unfold getrow in *. rewrite list_lookup_fmap. by destruct (cols !! i).
    - unfold getrow in *. rewrite list_lookup_fmap. by destruct (cols !! i').
    - by apply lookup_lt_Some in Ho.
    - by apply lookup_lt_Some in Ho'.
    - lia. }
  destruct (decide (i = i')) as [<-|Hne]; [|left; lia].
  right. split; [done|]. apply (Hinc i o o'); [lia | done | done].
Qed.

End edge_order.

(** X8.  The edges are listed once, in row-major order: along the edge
    arrays the targets [idnb_i] do not decrease, and among the edges of one
    target the sources [idnb_j] increase strictly.  So no pair occurs
    twice. *)
Theorem edges_are_listed_once_in_row_order {T : Type} (self : AtomsCollate T)
    (examples : list loc) (w w' : world) (out : dict T) :
  __call__ self examples w = (Ok out, w') ->
  exists g, carries self out g /\
    forall m n i j i' j',
      m < n ->
      idnb_i g !! m = Some i -> idnb_j g !! m = Some j ->
      idnb_i g !! n = Some i' -> idnb_j g !! n = Some j' ->
      i < i' \/ (i = i' /\ j < j').
Proof.
  intros (g & Hout & ->)%call_graph. eexists. split; [exact Hout|].
  intros m n i j i' j'. apply edges_in_row_order. intros r. apply batch_cols_increasing.
Qed.

Lemma edges_are_listed_once_in_row_order_witness :
  exists g, carries (plain 2) triangle_batch g /\
    forall m n i j i' j',
      m < n ->
      idnb_i g !! m = Some i -> idnb_j g !! m = Some j ->
      idnb_i g !! n = Some i' -> idnb_j g !! n = Some j' ->
      i < i' \/ (i = i' /\ j < j').
Proof.
  apply (edges_are_listed_once_in_row_order (plain 2) [0] (sample_world [triangle]) triangle_call.2 triangle_batch).
  vm_compute. reflexivity.
Defined.

(** ** Stacking *)

Section concat_kinds.
Implicit Types (to_stack : list value) (v : value).

Lemma mapM_all {A B : Type} (f : A -> result B) (P : A -> Prop) (l : list A) (bs : list B) :
  (forall a b, f a = Ok b -> P a) -> mapM f l = Ok bs -> Forall P l.
Proof.
  intros Hf Hbs. apply Forall_forall. intros a [n Hn]%list_elem_of_lookup.
  destruct (mapM_lookup f l bs n a Hbs Hn) as [b Hb]. by apply (Hf a b).
Qed.

End concat_kinds.

Lemma existsb_none {A : Type} (f : A -> bool) (l : list A) :
  Forall (fun x => f x = false) l -> existsb f l = false.
Proof. induction 1 as [|x l Hx _ IH]; [done|]. cbn. by rewrite Hx, IH. Qed.

(** X17.  [_concat] stacks arrays of one kind.  It returns exactly when
    the sequence is not empty and its values have two dimensions all or
    none of them; then the stack is an array with as many elements along
    its first axis as its parts together, a number counting as one
    element, and it has two dimensions exactly when its parts have. *)
Theorem concat_stacks_arrays_of_one_kind (to_stack : list value) :
  ((exists v, _concat to_stack = Ok v) <->
   to_stack <> [] /\
   (Forall (fun x => is_2d x = true) to_stack \/
    Forall (fun x => is_2d x = false) to_stack)) /\
  forall v, _concat to_stack = Ok v ->
    len v = Ok (sum_list (map count to_stack)) /\
    Forall (fun x => is_2d x = is_2d v) to_stack.
Proof.
  assert (forall v, _concat to_stack = Ok v ->
            to_stack <> [] /\ len v = Ok (sum_list (map count to_stack)) /\
            Forall (fun x => is_2d x = is_2d v) to_stack) as Hret.
  { intros v Hv. split; [by intros ->|].
    destruct (concat_len _ _ Hv) as [Hlen Hcount]. split; [by rewrite Hlen, Hcount|].
    unfold _concat in Hv. destruct to_stack as [|[a|a|a|a|x|z] to_stack]; [done|..].
    1: apply concatenate2_spec in Hv as (Hall & -> & _); exact Hall.
    all: apply hstack_spec in Hv as (Hall & -> & _); exact Hall. }
  split; [|intros v Hv; by destruct (Hret v Hv) as (_ & ? & ?)].
  split.
  - intros [v Hv]. destruct (Hret v Hv) as (Hne & _ & Hall). split; [done|].
    destruct (is_2d v); by auto.
  - intros [Hne [Hall|Hall]].
    + destruct to_stack as [|x to_stack]; [done|].
      pose proof (Forall_inv Hall) as Hx. destruct x as [a|a|a|a|x|z]; try done.
      cbn [_concat]. unfold concatenate2.
      rewrite (mapM_fmap _ (fun v => match v with Float2 a => a | _ => [] end)); [by eexists|].
      eapply Forall_impl; [exact Hall|]. by intros [b|b|b|b|y|y].
    + destruct to_stack as [|x to_stack]; [done|].
      pose proof (Forall_inv Hall) as Hx.
      assert (_concat (x :: to_stack) = hstack (x :: to_stack)) as ->.
      { by destruct x. }
      unfold hstack. rewrite existsb_none.
      * repeat destruct (existsb _ _); by eexists.
      * rewrite Forall_fmap. eapply Forall_impl; [exact Hall|]. by intros [b|b|b|b|y|y].
Qed.

(** ** Merging matrices *)

Section entries.
Context {A : Type}.
Implicit Types (rows : list (list (nat * A))) (blocks : list (list (list (nat * A)))).

Lemma no_entries rows :
  concat (map (map fst) rows) = [] <-> Forall (fun row => row = []) rows.
Proof.
  induction rows as [|row rows IH]; cbn [map concat].
  - split; [by constructor | done].
  - rewrite Forall_cons, <- IH. split.
    + intros [Hrow Hrows]%app_eq_nil. split; [|done]. by destruct row.
    + intros [-> ->]. done.
Qed.

Lemma block_rows_no_entries off blocks :
  Forall (fun row => row = []) (block_rows off blocks)
  <-> Forall (Forall (fun row => row = [])) blocks.
Proof.
  revert off. induction blocks as [|b blocks IH]; intros off; cbn [block_rows].
  - split; by constructor.
  - rewrite Forall_app, Forall_cons, IH. 
    assert (Forall (fun row => row = []) (map (map (fun '(c, v) => (c + off, v))) b)
            <-> Forall (fun row => row = []) b) as ->; [|done].
    rewrite Forall_fmap. apply Forall_iff. intros row. cbn. by destruct row.
Qed.

End entries.

(** X18.  [_bmat_fast] needs a stored entry.  For CSR matrices in
    canonical form (an empty list of them included), when no matrix has a
    stored entry, [_bmat_fast] raises [ValueError]. *)
Theorem bmat_fast_needs_a_stored_entry {A : Type}
    (bl : list (list (list (nat * A)) * nat)) :
  (forall b row, b ∈ bl -> row ∈ b.1 -> row = []) ->
  _bmat_fast (map block_matrix bl) = Raise ValueError.
Proof.
  intros Hempty. rewrite bmat_fast_rows. unfold bmat_rows.
  assert (concat (map (map fst) (block_rows 0 (map fst bl))) = []) as ->; [|done].
  apply no_entries, block_rows_no_entries, Forall_fmap, Forall_forall.
  intros b Hb. apply Forall_forall. intros row Hrow. by apply (Hempty b).
Qed.

Lemma bmat_fast_needs_a_stored_entry_witness :
  _bmat_fast (map block_matrix [([[]], 1)]) = @Raise (sp.csr_matrix bool) ValueError.
Proof.
  apply (bmat_fast_needs_a_stored_entry [([[]], 1)]).
  intros b row Hb Hrow. apply list_elem_of_singleton in Hb. subst b.
  by apply list_elem_of_singleton in Hrow.
Defined.



(** ** From a batch to an [AtomsBatch] *)

Section from_dict.
Context {T : Type}.
Implicit Types (d : dict T) (k : string) (to : T -> T).

Lemma dict_get_moved to d k :
  dict_get k (map (fun '(k, v) => (k, to v)) d) = to <$> dict_get k d.
Proof.
  induction d as [|[k' v] d IH]; cbn [map dict_get]; [done|].
  destruct (String.eqb k k'); [done | apply IH].
Qed.

Lemma keys_moved to d : keys (map (fun '(k, v) => (k, to v)) d) = keys d.
Proof.
  unfold keys. rewrite <- list_fmap_compose. apply list_fmap_ext. by intros _ [k v] _.
Qed.

Lemma init_returns d :
  (exists b, AtomsBatch.init d = Ok b) <->
  (forall k, is_Some (dict_get k d) -> k ∈ AtomsBatch.required ++ AtomsBatch.optional) /\
  (forall k, k ∈ AtomsBatch.required -> is_Some (dict_get k d)).
Proof.
  unfold AtomsBatch.init.
  destruct (forallb _ (keys d)) eqn:Hkeys.
  - rewrite forallb_forall in Hkeys.
    assert (forall k, is_Some (dict_get k d) ->
                      k ∈ AtomsBatch.required ++ AtomsBatch.optional) as Hallowed.
    { intros k Hk%dict_get_is_Some%list_elem_of_In. by apply Hkeys, bool_decide_eq_true in Hk. }
    split.
    + intros [b Hb]. split; [done|]. intros k Hk.
      repeat (apply elem_of_cons in Hk as [->|Hk];
        [repeat match type of Hb with
                | context [dict_get ?key d] =>
                    destruct (dict_get key d) eqn:?; cbn [of_option mbind result_bind] in Hb;
                    [|done]
                end; by eexists|]).
      by apply elem_of_nil in Hk.
    + intros [_ Hreq].
      repeat match goal with
             | |- context [of_option TypeError (dict_get ?key d)] =>
                 let v := fresh "v" in
                 destruct (Hreq key ltac:(by repeat constructor)) as [v ->];
                 cbn [of_option mbind result_bind]
             end.
      by eexists.
  - split; [by intros [? ?]|]. intros [Hallowed _]. exfalso.
    apply not_true_iff_false in Hkeys. apply Hkeys, forallb_forall.
    intros k Hk%list_elem_of_In%dict_get_is_Some. by apply bool_decide_eq_true, Hallowed.
Qed.

Lemma init_raises d err : AtomsBatch.init d = Raise err -> err = TypeError.
Proof.
  unfold AtomsBatch.init. destruct (forallb _ _); [|by intros [= <-]].
  repeat match goal with
         | |- context [of_option TypeError (dict_get ?key d)] =>
             destruct (dict_get key d); cbn [of_option mbind result_bind];
             [|by intros [= <-]]
         end.
  done.
Qed.

End from_dict.

(** X21.  [AtomsBatch.from_dict] on a batch.  A batch that [__call__]
    returns has every field [AtomsBatch] requires; [from_dict] accepts it
    exactly when every field of the first example, other than ['name'],
    is a field of [AtomsBatch], and raises [TypeError] otherwise. *)
Theorem from_dict_accepts_known_fields {T : Type} (self : AtomsCollate T) (to : T -> T)
    (examples : list loc) (w w' : world) (out : dict T) :
  __call__ self examples w = (Ok out, w') ->
  exists e0, head examples = Some e0 /\
    ((exists b, AtomsBatch.from_dict to out = Ok b) <->
     (forall k, is_Some (dict_get k (deref e0 w)) ->
                k = "name"%string \/ k ∈ AtomsBatch.required ++ AtomsBatch.optional)) /\
    (forall err, AtomsBatch.from_dict to out = Raise err -> err = TypeError).
Proof.
  intros Hcall.
  destruct (call_fields self examples w w' out Hcall) as (e0 & He0 & Hfields).
  destruct (call_requirements self examples w w' out Hcall) as [_ Hneeds].
  destruct (Hneeds e0) as (r & _ & Z & Hr & _ & HZ & _).
  { destruct examples; [done|]. injection He0 as ->. by left. }
  exists e0. split; [done|]. split; [|intros err; apply init_raises].
  unfold AtomsBatch.from_dict. rewrite init_returns.
  assert (forall k, is_Some (dict_get k (map (fun '(k, v) => (k, to v)) out))
                    <-> is_Some (dict_get k out)) as Hmoved.
  { intros k. by rewrite dict_get_moved, fmap_is_Some. }
  split.
  - intros [Hallowed _] k Hk.
    destruct (String.eqb_spec k "name") as [->|Hnm]; [by left|]. right.
    apply Hallowed, Hmoved, Hfields. by auto.
  - intros Hknown. split.
    + intros k [Hnm [->|[Hk|Hk]]]%Hmoved%Hfields.
      * by repeat constructor.
      * unfold index_fields in Hk.
        repeat (apply elem_of_cons in Hk as [->|Hk]; [by repeat constructor|]).
        by apply elem_of_nil in Hk.
      * by destruct (Hknown k Hk).
    + intros k Hk. apply Hmoved, Hfields.
      repeat (apply elem_of_cons in Hk as [->|Hk];
              [split; [done|];
               first [ by left
                     | right; left; by repeat constructor
                     | right; right; by rewrite ?Hr, ?HZ ]|]).
      by apply elem_of_nil in Hk.
Qed.

Lemma from_dict_accepts_known_fields_witness :
  exists e0, head [0] = Some e0 /\
    ((exists b, AtomsBatch.from_dict id triangle_batch = Ok b) <->
     (forall k, is_Some (dict_get k (deref e0 (sample_world [triangle]))) ->
                k = "name"%string \/ k ∈ AtomsBatch.required ++ AtomsBatch.optional)) /\
    (forall err, AtomsBatch.from_dict id triangle_batch = Raise err -> err = TypeError).
Proof.
  apply (from_dict_accepts_known_fields (plain 2) id [0] (sample_world [triangle])
           triangle_call.2 triangle_batch).
  vm_compute. reflexivity.
Defined.

(** ** The frame of a call *)

Section others.
Context {T : Type}.
Implicit Types (self : AtomsCollate T) (examples : list loc) (w : world) (e : loc).

Lemma forM_frame (body : loc -> M ()) (l : list loc) (e0 : loc) w :
  (forall e w, e0 <> e -> deref e0 (body e w).2 = deref e0 w) ->
  e0 ∉ l -> deref e0 (forM_ l body w).2 = deref e0 w.
Proof.
  intros Hbody. revert w. induction l as [|e l IH]; intros w Hnotin; cbn [forM_]; [done|].
  apply not_elem_of_cons in Hnotin as [Hne Hnotin].
  unfold mbind, M_bind, bindM. specialize (Hbody e w Hne).
  destruct (body e w) as [[[]|err] w1]; cbn [snd] in *; [|done].
  by rewrite IH.
Qed.

Lemma restore_round_frame e e0 w :
  e0 <> e ->
  deref e0 ((r ← getitem e "R"; r' ← liftM (reshape3 r); setitem e "R" r') w).2
  = deref e0 w.
Proof.
  intros Hne. pose proof (restore_round e w) as Hround. cbn zeta in Hround.
  destruct (dict_get "R" (deref e w)) as [r|]; [|by rewrite Hround].
  destruct (reshape3 r) as [r'|err]; rewrite Hround; [|done].
  cbn [snd]. destruct w as [h g]. cbn [heap np_random]. by rewrite deref_insert_ne.
Qed.

Lemma call_frame self examples w e0 :
  e0 ∉ examples -> deref e0 (__call__ self examples w).2 = deref e0 w.
Proof.
  intros Hnotin. unfold __call__. unfold mbind at 1, M_bind at 1, bindM at 1.
  assert (deref e0 (_restore_shape examples w).2 = deref e0 w) as Hrestore.
  { unfold _restore_shape. unfold mbind at 1, M_bind at 1, bindM at 1.
    pose proof (forM_frame
                  (fun d => r ← getitem d "R"; r' ← liftM (reshape3 r); setitem d "R" r')
                  examples e0 w (fun e w0 Hne => restore_round_frame e e0 w0 Hne) Hnotin)
      as Hloop.
    destruct (forM_ examples _ w) as [[[]|err] w1]; exact Hloop. }
  destruct (_restore_shape examples w) as [[r|err] w1] eqn:Hr; cbn [snd] in *; [|done].
  apply restore_shape_result in Hr as ->.
  unfold mbind at 1, M_bind at 1, bindM at 1.
  assert (deref e0 (augment self examples w1).2 = deref e0 w1) as Haugment.
  { unfold augment. apply forM_frame; [|done].
    intros e w0 Hne. by apply (proj1 (augment_round self e w0)). }
  destruct (augment self examples w1) as [[[]|err] w2]; cbn [snd] in *; [|congruence].
  unfold mbind, M_bind, bindM, the_world, liftM. cbn [snd]. congruence.
Qed.

End others.

(** X15.  A call touches its examples only.  Whether it returns or
    raises, a call leaves every example that is not in its list as it
    was, and changes the number of atoms of no example. *)
Theorem call_touches_its_examples_only {T : Type} (self : AtomsCollate T)
    (examples : list loc) (w : world) (e0 : loc) :
  let w' := (__call__ self examples w).2 in
  natoms (deref e0 w') = natoms (deref e0 w) /\
  (e0 ∉ examples -> deref e0 w' = deref e0 w).
Proof.
  split; [apply (call_atoms self examples w) | apply call_frame].
Qed.

(** ** Index errors *)

Section index_errors.
Context {T : Type}.
Implicit Types (self : AtomsCollate T) (examples : list loc) (w : world) (e : loc).

Lemma mapM_never {A B : Type} (f : A -> result B) (l : list A) (err : exn) :
  (forall a, a ∈ l -> f a <> Raise err) -> mapM f l <> Raise err.
Proof.
  induction l as [|a l IH]; intros Hf; cbn [mapM]; [done|].
  pose proof (Hf a ltac:(by left)) as Ha.
  destruct (f a) as [b|err']; cbn [mbind result_bind]; [|congruence].
  assert (mapM f l <> Raise err) as Hl by (apply IH; intros a' Ha'; apply Hf; by right).
  destruct (mapM f l) as [bs|err']; cbn [mbind result_bind]; [done | congruence].
Qed.

Lemma mapM_length {A B : Type} (f : A -> result B) (l : list A) (bs : list B) :
  mapM f l = Ok bs -> length bs = length l.
Proof.
  revert bs. induction l as [|a l IH]; intros bs; cbn [mapM].
  - by intros [= <-].
  - destruct (f a) as [b|]; cbn [mbind result_bind]; [|done].
    destruct (mapM f l) as [bs'|]; cbn [mbind result_bind]; [|done].
    intros [= <-]. cbn. f_equal. by apply IH.
Qed.

Lemma forM_never (body : loc -> M ()) (l : list loc) (err : exn) w :
  (forall e w, (body e w).1 <> Raise err) -> (forM_ l body w).1 <> Raise err.
Proof.
  intros Hbody. revert w. induction l as [|e l IH]; intros w; cbn [forM_]; [done|].
  unfold mbind, M_bind, bindM. specialize (Hbody e w).
  destruct (body e w) as [[[]|err'] w1]; cbn [fst] in *; [apply IH | done].
Qed.

Lemma concat_never_index (to_stack : list value) :
  to_stack <> [] -> _concat to_stack <> Raise IndexError.
Proof.
  intros Hne.
  assert (concatenate2 to_stack <> Raise IndexError) as H2.
  { unfold concatenate2.
    pose proof (mapM_never (fun v => match v with Float2 a => Ok a | _ => Raise ValueError end)
                  to_stack IndexError) as Hm.
    destruct (mapM _ to_stack); [done|]. cbn. intros [= ->]. apply Hm; [|done].
    by intros [a|a|a|a|a|a] _. }
  assert (hstack to_stack <> Raise IndexError) as H1.
  { unfold hstack. by repeat destruct (existsb _ _). }
  unfold _concat. by destruct to_stack as [|[a|a|a|a|a|a] to_stack].
Qed.

Lemma of_option_never {A : Type} (o : option A) (err err' : exn) :
  err <> err' -> of_option err o <> Raise err'.
Proof. destruct o; cbn; congruence. Qed.

Lemma concat_fields_never_index (exs : list (dict value)) :
  exs <> [] -> concat_fields exs <> Raise IndexError.
Proof.
  intros Hne. unfold concat_fields. destruct exs as [|first exs]; [done|].
  cbn [head of_option mbind result_bind]. apply mapM_never. intros k _.
  destruct (mapM _ (first :: exs)) as [to_stack|err] eqn:Hstack; cbn [mbind result_bind].
  - assert (to_stack <> []) as Hto.
    { apply mapM_length in Hstack. by destruct to_stack. }
    pose proof (concat_never_index to_stack Hto).
    destruct (_concat to_stack); cbn [mbind result_bind]; [done | congruence].
  - intros [= ->].
    apply (mapM_never (fun d : dict value => of_option KeyError (dict_get k d))
             (first :: exs) IndexError); [|done].
    intros d _. by apply of_option_never.
Qed.

Lemma adjacency_never_index cutoff (e : dict value) : adjacency cutoff e <> Raise IndexError.
Proof.
  unfold adjacency.
  destruct (dict_get "R" e) as [[R|a|a|a|a|a]|]; cbn [of_option coords mbind result_bind]; try done.
  destruct (dict_get "Z" e) as [Z|]; cbn [of_option mbind result_bind]; [|done].
  destruct Z; cbn [len mbind result_bind]; try done; unfold sp.sub; by destruct (decide _).
Qed.

Lemma batch_graph_never_index cutoff (exs : list (dict value)) :
  batch_graph cutoff exs <> Raise IndexError.
Proof.
  destruct (mapM (adjacency cutoff) exs) as [mats|err] eqn:Hmats.
  - rewrite (batch_graph_returns _ _ _ Hmats). by destruct (concat _).
  - unfold batch_graph. rewrite Hmats. cbn [mbind result_bind]. intros [= ->].
    apply (mapM_never (adjacency cutoff) exs IndexError); [|done].
    intros d _. apply adjacency_never_index.
Qed.

Lemma collate_never_index self (exs : list (dict value)) :
  exs <> [] -> collate self exs <> Raise IndexError.
Proof.
  intros Hne. unfold collate.
  pose proof (concat_fields_never_index exs Hne).
  destruct (concat_fields exs) as [data|]; cbn [mbind result_bind]; [|congruence].
  pose proof (batch_graph_never_index (cutoff self) exs).
  destruct (batch_graph (cutoff self) exs) as [g|]; cbn [mbind result_bind]; [|congruence].
  pose proof (mapM_never
                (fun d : dict value => Z ← of_option KeyError (dict_get "Z" d); len Z)
                exs IndexError) as HN.
  destruct (mapM _ exs) as [N|]; cbn [mbind result_bind].
  2:{ intros [= ->]. apply HN; [|done]. intros d _. by destruct (dict_get "Z" d) as [[]|]. }
  unfold np.repeat. by destruct (decide _).
Qed.

Lemma restore_round_never_index e w :
  ((r ← getitem e "R"; r' ← liftM (reshape3 r); setitem e "R" r') w).1 <> Raise IndexError.
Proof.
  pose proof (restore_round e w) as Hround. cbn zeta in Hround.
  destruct (dict_get "R" (deref e w)) as [r|]; [|by rewrite Hround].
  destruct (reshape3 r) as [r'|err] eqn:Hr; rewrite Hround; [done|].
  cbn. intros [= ->]. destruct r as [a|a|a|a|a|a]; cbn in Hr; try done.
  by destruct (decide _).
Qed.

Lemma augment_round_never_index self e w :
  (((if rotate self
     then r ← getitem e "R"; c ← liftM (coords r); c' ← _random_rotate c;
          setitem e "R" (Float2 c')
     else mret ()) ;;
    r ← getitem e "R"; R ← liftM (coords r);
    deltas ← _get_rand_norm_3d (length R) (rand_cov self);
    setitem e "R_orig" (Float2 R);;
    setitem e "R" (Float2 (zip_with padd R deltas))) w).1 <> Raise IndexError.
Proof.
  destruct w as [h g].
  unfold _random_rotate, rand_rotation_matrix, _get_rand_norm_3d.
  unfold mbind, M_bind, bindM, mret, M_ret, retM, getitem, liftM, setitem.
  destruct (rotate self);
    destruct (dict_get "R" (deref e (World h g))) as [[R|a|a|a|a|a]|] eqn:HR;
    cbn [of_option coords fst snd heap np_random]; try done.
  by rewrite !deref_insert_eq, dict_get_set_eq.
Qed.

End index_errors.

(** X1.  [IndexError] means no examples.  [__call__] raises
    [IndexError] exactly when the list of examples is empty (from
    [examples[0]] in line 134; the row selections of lines 155-170 stay in
    range), and on the empty list it changes nothing. *)
Theorem index_error_means_no_examples {T : Type} (self : AtomsCollate T)
    (examples : list loc) (w : world) :
  ((__call__ self examples w).1 = Raise IndexError <-> examples = []) /\
  (__call__ self [] w).2 = w.
Proof.
  split; [|done]. split; [|by intros ->].
  intros Hcall. destruct (decide (examples = [])) as [|Hne]; [done|]. exfalso.
  revert Hcall. unfold __call__. unfold mbind at 1, M_bind at 1, bindM at 1.
  assert ((_restore_shape examples w).1 <> Raise IndexError) as Hrestore.
  { unfold _restore_shape. unfold mbind at 1, M_bind at 1, bindM at 1.
    pose proof (forM_never
                  (fun d => r ← getitem d "R"; r' ← liftM (reshape3 r); setitem d "R" r')
                  examples IndexError w restore_round_never_index) as Hloop.
    destruct (forM_ examples _ w) as [[[]|err] w1]; cbn [fst] in *; [done|].
    intros [= ->]. by apply Hloop. }
  destruct (_restore_shape examples w) as [[r|err] w1] eqn:Hr; cbn [fst] in *;
    [|intros [= ->]; by apply Hrestore].
  apply restore_shape_result in Hr as ->.
  unfold mbind at 1, M_bind at 1, bindM at 1.
  assert ((augment self examples w1).1 <> Raise IndexError) as Haugment.
  { unfold augment. apply forM_never. intros e w0. apply augment_round_never_index. }
  destruct (augment self examples w1) as [[[]|err] w2]; cbn [fst] in *;
    [|intros [= ->]; by apply Haugment].
  unfold mbind, M_bind, bindM, the_world, liftM. cbn [fst].
  apply collate_never_index. by destruct examples.
Qed.
